(** * cuco::static_multimap — device views of the open-addressing multimap

    A shallow embedding of [include/cuco/detail/static_multimap.inl]:
    the slot array, the single-worker and the cooperative-group (CG)
    insert protocols, and the probing queries [find], [contains],
    [find_all] and [count].

    Conventions.
    - Keys and values are held as the bit patterns of their 4-byte
      objects, as integers of [Z]; the key type decides what its
      [operator==] makes of two patterns.
    - A slot iterator is the index of the slot in [slots_]; [end()] is
      the index [capacity_].
    - The slot array is shared memory.  An insert is a small-step machine
      that performs one atomic operation per step, so that the steps of
      other workers can be interleaved with it; the read-only queries run
      as fuelled loops over one table state.
    - The caller's [key_equal] is instrumented: the queries return, next
      to their result, the list of argument pairs [key_equal] was invoked
      with. *)

From Stdlib Require Import ZArith Lia Bool.
From stdpp Require Import base list.

Local Open Scope nat_scope.

(** ** Template parameters and slots *)

(** The [Key] template parameter: an arithmetic type of four bytes. *)
Inductive arith_type := int32_t | float32.

Definition is_nan (x : Z) : bool :=
  (Z.land x 0x7F800000 =? 0x7F800000)%Z && negb (Z.land x 0x007FFFFF =? 0)%Z.

Definition is_zero (x : Z) : bool := (Z.land x 0x7FFFFFFF =? 0)%Z.

(** The built-in [operator==] of the key type, on bit patterns: integer
    equality for [int32_t]; for [float32] the IEEE-754 comparison, under
    which a NaN equals nothing and the two zeros equal each other. *)
Definition operator_eq (Key : arith_type) (a b : Z) : bool :=
  match Key with
  | int32_t => (a =? b)%Z
  | float32 =>
      negb (is_nan a) && negb (is_nan b) && ((a =? b)%Z || (is_zero a && is_zero b))
  end.

(** Modelled from the spec: [detail::bitwise_compare] of
    [cuco/detail/bitwise_compare.cuh], which is not part of the sources at
    hand; the equality of the two bit patterns. *)
Definition bitwise_compare (lhs rhs : Z) : bool := (lhs =? rhs)%Z.

(** [pair_atomic_type]: the two independently atomic words of a slot. *)
Record slot := Slot { first : Z; second : Z }.

Abbreviation table := (list slot).

(** What a view carries besides the base pointer. *)
Record view := View {
  capacity_ : nat;
  empty_key_sentinel_ : Z;
  empty_value_sentinel_ : Z
}.

Definition get_empty_key_sentinel (vw : view) : Z := empty_key_sentinel_ vw.
Definition get_empty_value_sentinel (vw : view) : Z := empty_value_sentinel_ vw.
Definition get_capacity (vw : view) : nat := capacity_ vw.

(** [end()] is one past the last slot. *)
Definition end_ (vw : view) : nat := capacity_ vw.

(** [enum class insert_result]. *)
Inductive insert_result := CONTINUE | SUCCESS | DUPLICATE.

Definition insert_result_eqb (a b : insert_result) : bool :=
  match a, b with
  | CONTINUE, CONTINUE | SUCCESS, SUCCESS | DUPLICATE, DUPLICATE => true
  | _, _ => false
  end.

(** ** Atomic operations on the words of a slot *)

(** [slots_[i].first.compare_exchange_strong(expected, desired)].  The
    value written back into [expected] on failure is never read by the
    callers below (the retry loop re-assigns it), so it is not returned. *)
Definition first_compare_exchange_strong
    (t : table) (i : nat) (expected desired : Z) : bool * table :=
  match t !! i with
  | Some s =>
      if (first s =? expected)%Z
      then (true, <[i := Slot desired (second s)]> t)
      else (false, t)
  | None => (false, t)
  end.

(** [slots_[i].second.compare_exchange_strong(expected, desired)]. *)
Definition second_compare_exchange_strong
    (t : table) (i : nat) (expected desired : Z) : bool * table :=
  match t !! i with
  | Some s =>
      if (second s =? expected)%Z
      then (true, <[i := Slot (first s) desired]> t)
      else (false, t)
  | None => (false, t)
  end.

(** [slots_[i].second.store(desired)]. *)
Definition second_store (t : table) (i : nat) (desired : Z) : table :=
  match t !! i with
  | Some s => <[i := Slot (first s) desired]> t
  | None => t
  end.

(** ** Probing sequences *)

(** Modelled from the spec: [initial_slot(k, hash)] of the views, declared
    in [static_multimap.cuh], which is not part of the sources at hand:
    [initial = h(k) mod capacity]. *)
Definition initial_slot (vw : view) (k : Z) (hash : Z -> nat) : nat :=
  hash k mod capacity_ vw.

(** Modelled from the spec: [next_slot(s)], also declared in the missing
    header: [next(i) = (i + 1) mod capacity]. *)
Definition next_slot (vw : view) (s : nat) : nat :=
  (s + 1) mod capacity_ vw.

(** Modelled from the spec: [initial_slot(g, k, hash)], declared in the
    missing header, for the lane of rank [rank] in a group of [CGSize]
    lanes.  The window starts at
    [(h(k) mod (capacity / W)) * W] and holds one slot per lane. *)
Definition initial_slot_cg (vw : view) (CGSize : nat) (rank : nat) (k : Z)
    (hash : Z -> nat) : nat :=
  (hash k mod (capacity_ vw / CGSize)) * CGSize + rank.

(** Modelled from the spec: [next_slot(g, s)], declared in the missing
    header: [next(i) = (i + W) mod capacity]. *)
Definition next_slot_cg (vw : view) (CGSize : nat) (s : nat) : nat :=
  (s + CGSize) mod capacity_ vw.

(** ** Cooperative-group primitives *)

Module cg.

(** [g.ballot(pred)]: bit [r] of the mask is the predicate of the lane
    of rank [r]. *)
Fixpoint ballot (preds : list bool) : Z :=
  match preds with
  | [] => 0%Z
  | b :: rest => Z.lor (Z.b2z b) (Z.shiftl (ballot rest) 1)
  end.

(** [__ffs(x)]: the position, counted from one, of the least
    significant set bit of a 32-bit word; zero when no bit is set. *)
Definition ffs (x : Z) : nat :=
  match List.find (fun i => Z.testbit x (Z.of_nat i)) (seq 0 32) with
  | Some i => S i
  | None => 0
  end.

(** [g.shfl(var, src_lane)]: the value the lane [src_lane] holds. *)
Definition shfl {A : Type} (var : list A) (src_lane : nat) : option A :=
  var !! src_lane.

(** [g.any(pred)]. *)
Definition any (preds : list bool) : bool := existsb (fun b => b) preds.

End cg.

Module device_mutable_view.

(** ** The two-word commit at one slot (lines 215-235 and 277-296) *)

(** Program points of the protocol; each is one atomic operation. *)
Inductive commit_pc :=
| key_cas                           (* slot_key.compare_exchange_strong *)
| value_cas (key_success : bool)    (* slot_value.compare_exchange_strong *)
| value_retry                       (* while (not value_success) ... *)
| value_rollback.                   (* slot_value.store(empty value) *)

Inductive commit_result :=
| Pending (pc : commit_pc)
| Finished (key_success : bool).

Definition commit_step (vw : view) (insert_pair : Z * Z) (loc : nat)
    (pc : commit_pc) (t : table) : commit_result * table :=
  match pc with
  | key_cas =>
      let '(key_success, t') :=
        first_compare_exchange_strong t loc (get_empty_key_sentinel vw) (fst insert_pair) in
      (Pending (value_cas key_success), t')
  | value_cas key_success =>
      let '(value_success, t') :=
        second_compare_exchange_strong t loc (get_empty_value_sentinel vw) (snd insert_pair) in
      if key_success then
        (if value_success then Finished true else Pending value_retry, t')
      else if value_success then (Pending value_rollback, t')
      else (Finished false, t')
  | value_retry =>
      let '(value_success, t') :=
        second_compare_exchange_strong t loc (get_empty_value_sentinel vw) (snd insert_pair) in
      (if value_success then Finished true else Pending value_retry, t')
  | value_rollback =>
      (Finished false, second_store t loc (get_empty_value_sentinel vw))
  end.

(** ** [device_mutable_view::insert], single worker (lines 208-241) *)

Inductive insert_state :=
| Probing (current_slot : nat) (pc : commit_pc)
| Returned.

Definition insert_step (vw : view) (insert_pair : Z * Z)
    (st : insert_state) (t : table) : insert_state * table :=
  match st with
  | Returned => (Returned, t)
  | Probing current_slot pc =>
      match commit_step vw insert_pair current_slot pc t with
      | (Pending pc', t') => (Probing current_slot pc', t')
      | (Finished true, t') => (Returned, t')
      | (Finished false, t') => (Probing (next_slot vw current_slot) key_cas, t')
      end
  end.

(** What the other workers do to the slot array just before the [i]-th
    atomic step of the worker under study. *)
Definition interference := nat -> table -> table.

Definition quiet : interference := fun _ t => t.

Fixpoint insert_run (vw : view) (insert_pair : Z * Z) (env : interference)
    (fuel i : nat) (st : insert_state) (t : table) : insert_state * table :=
  match fuel with
  | O => (st, t)
  | S fuel' =>
      let '(st', t') := insert_step vw insert_pair st (env i t) in
      insert_run vw insert_pair env fuel' (S i) st' t'
  end.

(** The function itself: [fuel] atomic steps of
    [insert(insert_pair, hash, key_equal)]. *)
Definition insert (vw : view) (insert_pair : Z * Z) (hash : Z -> nat)
    (key_equal : Z -> Z -> bool) (env : interference) (fuel : nat) (t : table)
    : insert_state * table :=
  insert_run vw insert_pair env fuel 0
    (Probing (initial_slot vw (fst insert_pair) hash) key_cas) t.

(** ** [device_mutable_view::insert], cooperative group (lines 249-313) *)

(** The lane's vector load of [arr[0]] and [arr[1]] at its
    [current_slot]; reading past the array has no defined behaviour. *)
Definition load_window (t : table) (current_slot : nat) : option (slot * slot) :=
  match t !! current_slot, t !! (current_slot + 1) with
  | Some a0, Some a1 => Some (a0, a1)
  | _, _ => None
  end.

(** The registers [current_slot] and [status] hold one value per lane,
    in rank order. *)
Inductive insert_cg_state :=
| Window (current_slot : list nat)
| Elected (current_slot : list nat) (src_lane insert_location : nat)
          (pc : commit_pc) (status : list insert_result)
| Voting (current_slot : list nat) (status : list insert_result)
| Returned_cg
| Fault_cg.

Definition first_slot_is_empty (vw : view) (arr : slot * slot) : bool :=
  bitwise_compare (first (fst arr)) (get_empty_value_sentinel vw).

Definition second_slot_is_empty (vw : view) (arr : slot * slot) : bool :=
  bitwise_compare (first (snd arr)) (get_empty_value_sentinel vw).

Definition insert_cg_step (vw : view) (CGSize : nat) (insert_pair : Z * Z)
    (st : insert_cg_state) (t : table) : insert_cg_state * table :=
  match st with
  | Window current_slot =>
      match mapM (load_window t) current_slot with
      | None => (Fault_cg, t)
      | Some arr =>
          let window_contains_empty :=
            cg.ballot
              (map (fun a => first_slot_is_empty vw a || second_slot_is_empty vw a) arr) in
          if (window_contains_empty =? 0)%Z
          then (Window (map (next_slot_cg vw CGSize) current_slot), t)
          else
            let status := replicate (length current_slot) CONTINUE in
            let src_lane := cg.ffs window_contains_empty - 1 in
            match current_slot !! src_lane, arr !! src_lane with
            | Some c, Some a =>
                let insert_location :=
                  c + (if first_slot_is_empty vw a then 0 else 1) in
                (Elected current_slot src_lane insert_location key_cas status, t)
            | _, _ => (Fault_cg, t)
            end
      end
  | Elected current_slot src_lane insert_location pc status =>
      match commit_step vw insert_pair insert_location pc t with
      | (Pending pc', t') =>
          (Elected current_slot src_lane insert_location pc' status, t')
      | (Finished true, t') =>
          (Voting current_slot (<[src_lane := SUCCESS]> status), t')
      | (Finished false, t') => (Voting current_slot status, t')
      end
  | Voting current_slot status =>
      if cg.any (map (fun s => insert_result_eqb s SUCCESS) status)
      then (Returned_cg, t)
      else (Window current_slot, t)
  | Returned_cg => (Returned_cg, t)
  | Fault_cg => (Fault_cg, t)
  end.

Fixpoint insert_cg_run (vw : view) (CGSize : nat) (insert_pair : Z * Z)
    (env : interference) (fuel i : nat) (st : insert_cg_state) (t : table)
    : insert_cg_state * table :=
  match fuel with
  | O => (st, t)
  | S fuel' =>
      let '(st', t') := insert_cg_step vw CGSize insert_pair st (env i t) in
      insert_cg_run vw CGSize insert_pair env fuel' (S i) st' t'
  end.

(** [fuel] steps of [insert(g, insert_pair, hash, key_equal)]. *)
Definition insert_cg (vw : view) (CGSize : nat) (insert_pair : Z * Z)
    (hash : Z -> nat) (key_equal : Z -> Z -> bool) (env : interference)
    (fuel : nat) (t : table) : insert_cg_state * table :=
  insert_cg_run vw CGSize insert_pair env fuel 0
    (Window (map (fun rank => initial_slot_cg vw CGSize rank (fst insert_pair) hash)
                 (seq 0 CGSize))) t.

End device_mutable_view.

(** ** Instrumented calls of the caller's [key_equal] *)

(** A computation together with the argument pairs of the calls of
    [key_equal] it made, in order. *)
Definition traced (A : Type) : Type := (A * list (Z * Z))%type.

Definition tret {A : Type} (a : A) : traced A := (a, []).

Definition tbind {A B : Type} (m : traced A) (f : A -> traced B) : traced B :=
  let '(a, calls1) := m in
  let '(b, calls2) := f a in
  (b, calls1 ++ calls2).

Notation "'do' x <~ m ; k" := (tbind m (fun x => k))
  (at level 10, x name, m at level 100, k at level 200).

Definition invoke (key_equal : Z -> Z -> bool) (a b : Z) : traced bool :=
  (key_equal a b, [(a, b)]).

(** Every lane of the group evaluates its predicate, in rank order. *)
Fixpoint lanes {A : Type} (pred : A -> traced bool) (regs : list A)
    : traced (list bool) :=
  match regs with
  | [] => tret []
  | r :: rest => do b <~ pred r; do bs <~ lanes pred rest; tret (b :: bs)
  end.

(** What a fuelled loop yields: the value returned, or the loop is still
    running when the fuel is spent, or it read outside the slot array. *)
Inductive outcome (A : Type) :=
| Ret (a : A)
| OutOfFuel
| Fault.
Arguments Ret {A} a.
Arguments OutOfFuel {A}.
Arguments Fault {A}.

Module device_view.

(** [fancy_iterator{slot, k, *this}]. *)
Record fancy_iterator := FancyIterator {
  it_slot : nat;
  it_key : Z;
  it_view : view
}.

Section Queries.

(** Template parameters of the map and the state of one view. *)
Variable Key : arith_type.
Variable CGSize : nat.
Variable vw : view.
Variable t : table.

(** [find(k, hash, key_equal)], lines 320-339 (and its const twin). *)
Fixpoint find_loop (k : Z) (key_equal : Z -> Z -> bool) (fuel : nat)
    (current_slot : nat) : traced (outcome nat) :=
  match fuel with
  | O => tret OutOfFuel
  | S fuel' =>
      match t !! current_slot with
      | None => tret Fault
      | Some s =>
          let existing_key := first s in
          if bitwise_compare existing_key (get_empty_key_sentinel vw)
          then tret (Ret (end_ vw))
          else
            do eq <~ invoke key_equal existing_key k;
            if eq then tret (Ret current_slot)
            else find_loop k key_equal fuel' (next_slot vw current_slot)
      end
  end.

Definition find (k : Z) (hash : Z -> nat) (key_equal : Z -> Z -> bool)
    (fuel : nat) : traced (outcome nat) :=
  find_loop k key_equal fuel (initial_slot vw k hash).

(** [contains(k, hash, key_equal)], lines 456-471. *)
Fixpoint contains_loop (k : Z) (key_equal : Z -> Z -> bool) (fuel : nat)
    (current_slot : nat) : traced (outcome bool) :=
  match fuel with
  | O => tret OutOfFuel
  | S fuel' =>
      match t !! current_slot with
      | None => tret Fault
      | Some s =>
          let existing_key := first s in
          if bitwise_compare existing_key (empty_key_sentinel_ vw)
          then tret (Ret false)
          else
            do eq <~ invoke key_equal existing_key k;
            if eq then tret (Ret true)
            else contains_loop k key_equal fuel' (next_slot vw current_slot)
      end
  end.

Definition contains (k : Z) (hash : Z -> nat) (key_equal : Z -> Z -> bool)
    (fuel : nat) : traced (outcome bool) :=
  contains_loop k key_equal fuel (initial_slot vw k hash).

(** Every lane loads the key of its own [current_slot]. *)
Definition load_keys (current_slot : list nat) : option (list Z) :=
  mapM (fun c => first <$> t !! c) current_slot.

(** [find(g, k, hash, key_equal)], lines 373-406 (and its const twin).
    The [and] of the ballot's argument does not evaluate [key_equal]
    on a lane whose slot is empty. *)
Fixpoint find_cg_loop (k : Z) (key_equal : Z -> Z -> bool) (fuel : nat)
    (current_slot : list nat) : traced (outcome nat) :=
  match fuel with
  | O => tret OutOfFuel
  | S fuel' =>
      match load_keys current_slot with
      | None => tret Fault
      | Some existing_key =>
          let slot_is_empty :=
            map (fun ek => bitwise_compare ek (get_empty_key_sentinel vw)) existing_key in
          do preds <~ lanes (fun ek =>
                     if bitwise_compare ek (get_empty_key_sentinel vw)
                     then tret false
                     else invoke key_equal ek k) existing_key;
          let exists_ := cg.ballot preds in
          if negb (exists_ =? 0)%Z then
            let src_lane := cg.ffs exists_ - 1 in
            match cg.shfl current_slot src_lane with
            | Some res_slot => tret (Ret res_slot)
            | None => tret Fault
            end
          else if negb (cg.ballot slot_is_empty =? 0)%Z then tret (Ret (end_ vw))
          else find_cg_loop k key_equal fuel' (map (next_slot_cg vw CGSize) current_slot)
      end
  end.

Definition initial_slots (k : Z) (hash : Z -> nat) : list nat :=
  map (fun rank => initial_slot_cg vw CGSize rank k hash) (seq 0 CGSize).

Definition find_cg (k : Z) (hash : Z -> nat) (key_equal : Z -> Z -> bool)
    (fuel : nat) : traced (outcome nat) :=
  find_cg_loop k key_equal fuel (initial_slots k hash).

(** [contains(g, k, hash, key_equal)], lines 478-503. *)
Fixpoint contains_cg_loop (k : Z) (key_equal : Z -> Z -> bool) (fuel : nat)
    (current_slot : list nat) : traced (outcome bool) :=
  match fuel with
  | O => tret OutOfFuel
  | S fuel' =>
      match load_keys current_slot with
      | None => tret Fault
      | Some existing_key =>
          let slot_is_empty :=
            map (fun ek => bitwise_compare ek (get_empty_key_sentinel vw)) existing_key in
          do preds <~ lanes (fun ek =>
                     if bitwise_compare ek (get_empty_key_sentinel vw)
                     then tret false
                     else invoke key_equal ek k) existing_key;
          if negb (cg.ballot preds =? 0)%Z then tret (Ret true)
          else if negb (cg.ballot slot_is_empty =? 0)%Z then tret (Ret false)
          else contains_cg_loop k key_equal fuel' (map (next_slot_cg vw CGSize) current_slot)
      end
  end.

Definition contains_cg (k : Z) (hash : Z -> nat) (key_equal : Z -> Z -> bool)
    (fuel : nat) : traced (outcome bool) :=
  contains_cg_loop k key_equal fuel (initial_slots k hash).

(** [find_all(g, k, hash, key_equal)], lines 577-617 (and its const
    twin).  The key is read through a plain pair pointer and compared
    with the sentinel by the [operator==] of the key type. *)
Fixpoint find_all_cg_loop (k : Z) (key_equal : Z -> Z -> bool) (fuel : nat)
    (current_slot : list nat) : traced (outcome fancy_iterator) :=
  match fuel with
  | O => tret OutOfFuel
  | S fuel' =>
      match load_keys current_slot with
      | None => tret Fault
      | Some existing_key =>
          let slot_is_empty :=
            map (fun ek => operator_eq Key ek (get_empty_key_sentinel vw)) existing_key in
          do preds <~ lanes (fun ek =>
                     if operator_eq Key ek (get_empty_key_sentinel vw)
                     then tret false
                     else invoke key_equal ek k) existing_key;
          let exists_ := cg.ballot preds in
          if negb (exists_ =? 0)%Z then
            let src_lane := cg.ffs exists_ - 1 in
            match cg.shfl current_slot src_lane with
            | Some res_slot => tret (Ret (FancyIterator res_slot k vw))
            | None => tret Fault
            end
          else if negb (cg.ballot slot_is_empty =? 0)%Z
          then tret (Ret (FancyIterator (end_ vw) k vw))
          else find_all_cg_loop k key_equal fuel' (map (next_slot_cg vw CGSize) current_slot)
      end
  end.

Definition find_all_cg (k : Z) (hash : Z -> nat) (key_equal : Z -> Z -> bool)
    (fuel : nat) : traced (outcome fancy_iterator) :=
  find_all_cg_loop k key_equal fuel (initial_slots k hash).

End Queries.

Section Counting.

Variable Key : arith_type.
Variable CGSize : nat.
Variable vw : view.
Variable t : table.

(** [fancy_iterator::operator++] is declared in [static_multimap.cuh],
    which is not part of the sources at hand; [count] is modelled over
    any such operator. *)
Variable increment : fancy_iterator -> traced (outcome fancy_iterator).

(** The single-worker [find_all(k, hash, key_equal)] is declared in the
    same header and is a parameter as well. *)
Variable find_all :
  Z -> (Z -> nat) -> (Z -> Z -> bool) -> traced (outcome fancy_iterator).

(** [while (found != this->end()) { ++found; ++count; }] with
    [size_t count]. *)
Fixpoint count_loop (fuel : nat) (found : fancy_iterator) (count : Z)
    : traced (outcome Z) :=
  match fuel with
  | O => tret OutOfFuel
  | S fuel' =>
      if it_slot found =? end_ vw then tret (Ret count)
      else
        do r <~ increment found;
        match r with
        | Ret found' => count_loop fuel' found' ((count + 1) mod 2 ^ 64)%Z
        | OutOfFuel => tret OutOfFuel
        | Fault => tret Fault
        end
  end.

(** [count(k, hash, key_equal)], lines 510-521 (and its const twin). *)
Definition count (k : Z) (hash : Z -> nat) (key_equal : Z -> Z -> bool)
    (fuel : nat) : traced (outcome Z) :=
  do r <~ find_all k hash key_equal;
  match r with
  | Ret found => count_loop fuel found 0%Z
  | OutOfFuel => tret OutOfFuel
  | Fault => tret Fault
  end.

(** [count(g, k, hash, key_equal)], lines 546-557 (and its const twin). *)
Definition count_cg (k : Z) (hash : Z -> nat) (key_equal : Z -> Z -> bool)
    (fuel : nat) : traced (outcome Z) :=
  do r <~ find_all_cg Key CGSize vw t k hash key_equal fuel;
  match r with
  | Ret found => count_loop fuel found 0%Z
  | OutOfFuel => tret OutOfFuel
  | Fault => tret Fault
  end.

(** The sequence of matches a cursor produces, in the words of the
    specification: the positions the cursor takes, from the one
    [find_all] returned, until it equals [end()]. *)
Fixpoint matches_from (fuel : nat) (found : fancy_iterator)
    : traced (outcome (list fancy_iterator)) :=
  match fuel with
  | O => tret OutOfFuel
  | S fuel' =>
      if it_slot found =? end_ vw then tret (Ret [])
      else
        do r <~ increment found;
        match r with
        | Ret found' =>
            do rest <~ matches_from fuel' found';
            match rest with
            | Ret l => tret (Ret (found :: l))
            | OutOfFuel => tret OutOfFuel
            | Fault => tret Fault
            end
        | OutOfFuel => tret OutOfFuel
        | Fault => tret Fault
        end
  end.

(** The sequence of matches of [k]: the positions of the cursor that the
    single-worker [find_all(k)] returns. *)
Definition matches (k : Z) (hash : Z -> nat) (key_equal : Z -> Z -> bool)
    (fuel : nat) : traced (outcome (list fancy_iterator)) :=
  do r <~ find_all k hash key_equal;
  match r with
  | Ret found => matches_from fuel found
  | OutOfFuel => tret OutOfFuel
  | Fault => tret Fault
  end.

(** The same for the cursor of the cooperative [find_all(g, k)]. *)
Definition matches_cg (k : Z) (hash : Z -> nat) (key_equal : Z -> Z -> bool)
    (fuel : nat) : traced (outcome (list fancy_iterator)) :=
  do r <~ find_all_cg Key CGSize vw t k hash key_equal fuel;
  match r with
  | Ret found => matches_from fuel found
  | OutOfFuel => tret OutOfFuel
  | Fault => tret Fault
  end.

End Counting.

(** Modelled from the spec: [fancy_iterator::operator++] of the
    single-worker flavour, which is not part of the sources at hand.  It
    resumes probing from the slot after the current match and scans
    forward, skipping non-matching non-empty slots, until another match
    (the new position) or an empty slot (the cursor equals [end()]). *)
Fixpoint scan_forward (vw : view) (t : table) (k : Z)
    (key_equal : Z -> Z -> bool) (fuel : nat) (current_slot : nat)
    : traced (outcome fancy_iterator) :=
  match fuel with
  | O => tret OutOfFuel
  | S fuel' =>
      match t !! current_slot with
      | None => tret Fault
      | Some s =>
          if bitwise_compare (first s) (get_empty_key_sentinel vw)
          then tret (Ret (FancyIterator (end_ vw) k vw))
          else
            do eq <~ invoke key_equal (first s) k;
            if eq then tret (Ret (FancyIterator current_slot k vw))
            else scan_forward vw t k key_equal fuel' (next_slot vw current_slot)
      end
  end.

(** Modelled from the spec: the [operator++] itself, which carries on
    from the slot after the cursor's with the cursor's key and view. *)
Definition operator_increment (t : table) (key_equal : Z -> Z -> bool)
    (fuel : nat) (it : fancy_iterator) : traced (outcome fancy_iterator) :=
  scan_forward (it_view it) t (it_key it) key_equal fuel
    (next_slot (it_view it) (it_slot it)).

(** Modelled from the spec: the single-worker [find_all(k, hash,
    key_equal)], which is not part of the sources at hand: a cursor at the
    first match on the probe path of [k]. *)
Definition find_all (vw : view) (t : table) (fuel : nat) (k : Z)
    (hash : Z -> nat) (key_equal : Z -> Z -> bool)
    : traced (outcome fancy_iterator) :=
  scan_forward vw t k key_equal fuel (initial_slot vw k hash).

End device_view.

(** ** Predicates on tables and machine states *)

(** No slot of the table is empty. *)
Definition full (vw : view) (t : table) : Prop :=
  Forall (fun s => first s <> empty_key_sentinel_ vw) t.

(** The other workers never empty a key field (keys are immutable once
    set). *)
Definition keeps_full (vw : view) (env : device_mutable_view.interference) : Prop :=
  forall i t, full vw t -> full vw (env i t).

(** The [status] registers of the lanes, at the program points where the
    variable is in scope. *)
Definition status_of (st : device_mutable_view.insert_cg_state) : list insert_result :=
  match st with
  | device_mutable_view.Elected _ _ _ _ status => status
  | device_mutable_view.Voting _ status => status
  | _ => []
  end.

(** Every lane's [status] is one of the two values the protocol assigns. *)
Definition two_valued (st : device_mutable_view.insert_cg_state) : Prop :=
  Forall (fun s => s = CONTINUE \/ s = SUCCESS) (status_of st).

(** The key fields of [t'] differ from those of [t] at most by
    transitions of a key field from the empty sentinel to [k]. *)
Definition keys_only_claimed (vw : view) (k : Z) (t t' : table) : Prop :=
  length t' = length t /\
  forall i s, t !! i = Some s ->
    exists s', t' !! i = Some s' /\
      (first s' = first s \/ (first s = empty_key_sentinel_ vw /\ first s' = k)).

(** The program points a worker can be at while it has not won a key. *)
Definition key_lost (pc : device_mutable_view.commit_pc) : Prop :=
  pc = device_mutable_view.key_cas \/
  pc = device_mutable_view.value_cas false \/
  pc = device_mutable_view.value_rollback.

(** The single worker has not won a key. *)
Definition not_committed (st : device_mutable_view.insert_state) : Prop :=
  match st with
  | device_mutable_view.Probing _ pc => key_lost pc
  | device_mutable_view.Returned => False
  end.

(** The same for the group: no lane has set its [status] to [SUCCESS]. *)
Definition not_committed_cg (st : device_mutable_view.insert_cg_state) : Prop :=
  match st with
  | device_mutable_view.Window _ => True
  | device_mutable_view.Elected _ _ _ pc status =>
      key_lost pc /\ Forall (fun s => s = CONTINUE) status
  | device_mutable_view.Voting _ status => Forall (fun s => s = CONTINUE) status
  | device_mutable_view.Returned_cg => False
  | device_mutable_view.Fault_cg => True
  end.

(** The cursor [it] of an enumeration of [k] is at [end()], or at a slot
    from which the probe path reaches the slot [e] in at most [m]
    further steps. *)
Definition before_empty (vw : view) (k : Z) (e m : nat)
    (it : device_view.fancy_iterator) : Prop :=
  device_view.it_key it = k /\ device_view.it_view it = vw /\
  (device_view.it_slot it = end_ vw \/
   (device_view.it_slot it < capacity_ vw /\
    exists d, 0 < d <= m /\ Nat.iter d (next_slot vw) (device_view.it_slot it) = e)).

(** [t'] is [t] with one slot, empty in [t], now holding [(k, v)]. *)
Definition occupies_one_empty_slot (vw : view) (k v : Z) (t t' : table) : Prop :=
  exists i,
    t !! i = Some (Slot (empty_key_sentinel_ vw) (empty_value_sentinel_ vw)) /\
    t' = <[i := Slot k v]> t.

(** What the slot array [t'] is, relative to the array [t] the insert of
    [(k, v)] started from, when the worker runs alone and is at program
    point [pc] of the commit at slot [loc]. *)
Definition commit_inv (vw : view) (k v : Z) (t : table) (loc : nat)
    (pc : device_mutable_view.commit_pc) (t' : table) : Prop :=
  match pc with
  | device_mutable_view.key_cas => t' = t
  | device_mutable_view.value_cas true =>
      exists s, t !! loc = Some s /\ first s = empty_key_sentinel_ vw /\
                t' = <[loc := Slot k (second s)]> t
  | device_mutable_view.value_cas false => t' = t
  | device_mutable_view.value_retry =>
      exists s, t !! loc = Some s /\ first s = empty_key_sentinel_ vw /\
                second s <> empty_value_sentinel_ vw /\
                t' = <[loc := Slot k (second s)]> t
  | device_mutable_view.value_rollback =>
      exists s, t !! loc = Some s /\ second s = empty_value_sentinel_ vw /\
                t' = <[loc := Slot (first s) v]> t
  end.

(** The invariant of the single-worker insert that runs alone. *)
Definition insert_inv (vw : view) (k v : Z) (t : table)
    (st : device_mutable_view.insert_state) (t' : table) : Prop :=
  match st with
  | device_mutable_view.Probing loc pc => commit_inv vw k v t loc pc t'
  | device_mutable_view.Returned => occupies_one_empty_slot vw k v t t'
  end.

(** The invariant of the cooperative insert that runs alone. *)
Definition insert_cg_inv (vw : view) (k v : Z) (t : table)
    (st : device_mutable_view.insert_cg_state) (t' : table) : Prop :=
  match st with
  | device_mutable_view.Window _ => t' = t
  | device_mutable_view.Elected _ src_lane loc pc status =>
      commit_inv vw k v t loc pc t' /\ src_lane < length status /\
      Forall (fun s => s = CONTINUE) status
  | device_mutable_view.Voting _ status =>
      if cg.any (map (fun s => insert_result_eqb s SUCCESS) status)
      then occupies_one_empty_slot vw k v t t'
      else t' = t
  | device_mutable_view.Returned_cg => occupies_one_empty_slot vw k v t t'
  | device_mutable_view.Fault_cg => True
  end.

(** The [n]-th slot of the single-worker probe path of [k]. *)
Definition probe (vw : view) (k : Z) (hash : Z -> nat) (n : nat) : nat :=
  Nat.iter n (next_slot vw) (initial_slot vw k hash).

(** A call of [key_equal] whose first argument, the key of a slot, is not
    the empty key sentinel and whose second argument is the queried key. *)
Definition guarded_call (vw : view) (k : Z) (call : Z * Z) : Prop :=
  fst call <> empty_key_sentinel_ vw /\ snd call = k.

(** The predicate a lane contributes to the ballot of the cooperative
    [find] and [contains]: its slot is not empty and holds a key that
    [key_equal] identifies with [k]. *)
Definition lane_matches (vw : view) (k : Z) (key_equal : Z -> Z -> bool) (ek : Z) : bool :=
  negb (bitwise_compare ek (empty_key_sentinel_ vw)) && key_equal ek k.

(** What holds of a cooperative insert that runs alone on a table with
    the key fields of [t0] while no lane has won a key: the group fits
    the ballot mask, and the slot the elected lane works on does not hold
    the empty key. *)
Definition never_won_inv (vw : view) (t0 : table)
    (st : device_mutable_view.insert_cg_state) (t : table) : Prop :=
  map first t = map first t0 /\ not_committed_cg st /\
  match st with
  | device_mutable_view.Window current_slot => length current_slot <= 32
  | device_mutable_view.Voting current_slot _ => length current_slot <= 32
  | device_mutable_view.Elected current_slot _ loc _ _ =>
      length current_slot <= 32 /\
      forall s, t0 !! loc = Some s -> first s <> empty_key_sentinel_ vw
  | _ => True
  end.

(** ** Two single-worker inserts on one slot array *)

Module race.

(** The two workers and the shared slot array.  The atomic operations
    of the two workers take effect one at a time, those of each worker in
    program order. *)
Record config := Config {
  worker_a : device_mutable_view.insert_state;
  worker_b : device_mutable_view.insert_state;
  slots : table
}.

(** One atomic step of worker A ([who = true]) or of worker B. *)
Definition step (vw : view) (pair_a pair_b : Z * Z) (who : bool) (c : config) : config :=
  if who then
    let '(st, t) := device_mutable_view.insert_step vw pair_a (worker_a c) (slots c) in
    Config st (worker_b c) t
  else
    let '(st, t) := device_mutable_view.insert_step vw pair_b (worker_b c) (slots c) in
    Config (worker_a c) st t.

(** The schedule says whose step comes next. *)
Definition run (vw : view) (pair_a pair_b : Z * Z) (schedule : list bool) (c : config)
    : config :=
  foldl (fun c who => step vw pair_a pair_b who c) c schedule.

(** Both workers are about to enter [insert]. *)
Definition start (vw : view) (pair_a pair_b : Z * Z) (hash : Z -> nat) (t : table)
    : config :=
  Config
    (device_mutable_view.Probing (initial_slot vw (fst pair_a) hash)
       device_mutable_view.key_cas)
    (device_mutable_view.Probing (initial_slot vw (fst pair_b) hash)
       device_mutable_view.key_cas)
    t.

(** What a worker currently holds of the slot array: nothing, the key
    word of slot [i] (it won the key CAS, its value is still to come), the
    value word of slot [i] (its value CAS succeeded on a slot whose key
    another worker won; the store back is still to come), or both words
    of slot [i] (it returned). *)
Inductive hold := Idle | Won (i : nat) | Spurious (i : nat) | Done (i : nat).

Definition hold_of (st : device_mutable_view.insert_state) (h : hold) : Prop :=
  match st with
  | device_mutable_view.Probing c device_mutable_view.key_cas => h = Idle
  | device_mutable_view.Probing c (device_mutable_view.value_cas false) => h = Idle
  | device_mutable_view.Probing c (device_mutable_view.value_cas true) => h = Won c
  | device_mutable_view.Probing c device_mutable_view.value_retry => h = Won c
  | device_mutable_view.Probing c device_mutable_view.value_rollback => h = Spurious c
  | device_mutable_view.Returned => exists i, h = Done i
  end.

Definition has_key (h : hold) (i : nat) : bool :=
  match h with
  | Won j | Done j => j =? i
  | Idle | Spurious _ => false
  end.

Definition has_value (h : hold) (i : nat) : bool :=
  match h with
  | Spurious j | Done j => j =? i
  | Idle | Won _ => false
  end.

(** The content of slot [i], which held [s0] at the start, given what
    the two workers hold. *)
Definition seen (pair_a pair_b : Z * Z) (ha hb : hold) (i : nat) (s0 : slot) : slot :=
  Slot (if has_key ha i then fst pair_a else if has_key hb i then fst pair_b else first s0)
       (if has_value ha i then snd pair_a
        else if has_value hb i then snd pair_b else second s0).

(** The two workers never hold the same word; a spurious value sits in
    the slot whose key the other worker has just won. *)
Definition compatible (ha hb : hold) : Prop :=
  match ha, hb with
  | Idle, Spurious _ | Spurious _, Idle => False
  | Idle, _ | _, Idle => True
  | Spurious i, Won j | Won i, Spurious j => i = j
  | Spurious _, _ | _, Spurious _ => False
  | Won i, Won j | Won i, Done j | Done i, Won j | Done i, Done j => i <> j
  end.

(** The slot a worker holds a word of was empty at the start. *)
Definition held_was_empty (vw : view) (t0 : table) (h : hold) : Prop :=
  match h with
  | Idle => True
  | Won i | Spurious i | Done i =>
      t0 !! i = Some (Slot (empty_key_sentinel_ vw) (empty_value_sentinel_ vw))
  end.

(** A worker whose key CAS failed is at a slot whose key is set. *)
Definition lost_key (vw : view) (st : device_mutable_view.insert_state) (t : table)
    : Prop :=
  match st with
  | device_mutable_view.Probing c (device_mutable_view.value_cas false) =>
      forall s, t !! c = Some s -> first s <> empty_key_sentinel_ vw
  | _ => True
  end.

(** The invariant of the race, relative to the slot array [t0] that the
    two inserts started on. *)
Definition inv (vw : view) (pair_a pair_b : Z * Z) (t0 : table) (c : config) : Prop :=
  exists ha hb,
    hold_of (worker_a c) ha /\ hold_of (worker_b c) hb /\
    compatible ha hb /\ held_was_empty vw t0 ha /\ held_was_empty vw t0 hb /\
    length (slots c) = length t0 /\
    (forall i s0, t0 !! i = Some s0 -> slots c !! i = Some (seen pair_a pair_b ha hb i s0)) /\
    lost_key vw (worker_a c) (slots c) /\ lost_key vw (worker_b c) (slots c).

End race.

(** Between bulk calls every slot is empty in both words or taken in
    both. *)
Definition settled (vw : view) (t : table) : Prop :=
  forall i s, t !! i = Some s ->
    (first s = empty_key_sentinel_ vw <-> second s = empty_value_sentinel_ vw).

(** A hold that concerns no slot but [c]. *)
Definition about (c : nat) (h : race.hold) : Prop :=
  h = race.Idle \/ h = race.Won c \/ h = race.Spurious c \/ h = race.Done c.

(** The slots the lanes of a group hold in the [n]-th window they
    examine, from the slots [current_slot] of the first. *)
Definition window (vw : view) (CGSize : nat) (current_slot : list nat) (n : nat)
    : list nat :=
  Nat.iter n (map (next_slot_cg vw CGSize)) current_slot.

(** The two-slot load of every lane of the window [current_slot] stays
    inside a slot array of [n] slots. *)
Definition loads_in_range (n : nat) (current_slot : list nat) : Prop :=
  Forall (fun c => c + 1 < n) current_slot.

(** The other workers leave the size of the slot array as it is. *)
Definition keeps_length (env : device_mutable_view.interference) : Prop :=
  forall i (t : table), length (env i t) = length t.

(** The group is inside the [while (true)] loop of the cooperative
    insert: it has neither returned nor read outside the slot array. *)
Definition in_loop (st : device_mutable_view.insert_cg_state) : Prop :=
  match st with
  | device_mutable_view.Window _
  | device_mutable_view.Elected _ _ _ _ _
  | device_mutable_view.Voting _ _ => True
  | device_mutable_view.Returned_cg | device_mutable_view.Fault_cg => False
  end.

(** The group is inside the loop, at one of the windows that follow
    the window [current_slot]. *)
Definition at_window (vw : view) (CGSize : nat) (current_slot : list nat)
    (st : device_mutable_view.insert_cg_state) : Prop :=
  match st with
  | device_mutable_view.Window w
  | device_mutable_view.Elected w _ _ _ _
  | device_mutable_view.Voting w _ => exists n, w = window vw CGSize current_slot n
  | device_mutable_view.Returned_cg | device_mutable_view.Fault_cg => False
  end.

(** ** Worked tables *)

(** The identity hash of the scenarios. *)
Definition identity_hash (k : Z) : nat := Z.to_nat k.

(** Capacity 4, sentinels (-1, -1), after the inserts (1,10), (2,20),
    (3,30), (4,40) under the identity hash: every slot is taken. *)
Definition view4 : view := View 4 (-1) (-1).
Definition full4 : table := [Slot 4 40; Slot 1 10; Slot 2 20; Slot 3 30].

(** Capacity 8 with distinct sentinels: key sentinel -1, value sentinel
    0, every slot as the constructor leaves it. *)
Definition view8_distinct : view := View 8 (-1) 0.
Definition fresh8_distinct : table := replicate 8 (Slot (-1) 0).

(** Capacity 8, sentinels (-1, -1), after the single-worker inserts
    (1,10), (2,20), (1,11), (3,30), (1,12) under the identity hash. *)
Definition view8 : view := View 8 (-1) (-1).
Definition table8 : table :=
  [Slot (-1) (-1); Slot 1 10; Slot 2 20; Slot 1 11;
   Slot 3 30; Slot 1 12; Slot (-1) (-1); Slot (-1) (-1)].

(** Capacity 2, sentinels (-1, -1), a hash that sends every key to slot
    0; the fresh table, and the table after the first atomic step (the key
    CAS) of a worker inserting (7, 70). *)
Definition view2 : view := View 2 (-1) (-1).
Definition zero_hash (k : Z) : nat := 0.
Definition fresh2 : table := [Slot (-1) (-1); Slot (-1) (-1)].
Definition mid_insert2 : table := [Slot 7 (-1); Slot (-1) (-1)].

(** Capacity 4, sentinels (-1, -1): window 0 holds an empty slot and the
    key 4, window 1 the keys 6 and 4. *)
Definition table4_cg : table := [Slot (-1) (-1); Slot 4 40; Slot 6 60; Slot 4 41].

(** Float keys: capacity 4, the empty key sentinel is the quiet NaN
    [0x7FC00000], the empty value sentinel 0; every slot as the
    constructor leaves it.  [one_f] is the bit pattern of [1.0f]. *)
Definition quiet_nan : Z := 0x7FC00000.
Definition one_f : Z := 0x3F800000.
Definition view4_nan : view := View 4 quiet_nan 0.
Definition fresh4_nan : table := replicate 4 (Slot quiet_nan 0).

(** * Properties *)

(** ** The worked tables are reached by the inserts themselves *)

Example table8_built :
  foldl (fun t p => snd (device_mutable_view.insert view8 p identity_hash Z.eqb
                           device_mutable_view.quiet 12 t))
        (replicate 8 (Slot (-1) (-1)))
        [(1, 10); (2, 20); (1, 11); (3, 30); (1, 12)]%Z
  = table8.
Proof. reflexivity. Qed.

Example full4_built :
  foldl (fun t p => snd (device_mutable_view.insert view4 p identity_hash Z.eqb
                           device_mutable_view.quiet 2 t))
        (replicate 4 (Slot (-1) (-1)))
        [(1, 10); (2, 20); (3, 30); (4, 40)]%Z
  = full4.
Proof. reflexivity. Qed.

(** The counts of the first scenario: keys 1, 2, 3 and 4 are stored 3,
    1, 1 and 0 times. *)
Example table8_counts :
  map (fun k => fst (device_view.count view8
                       (device_view.operator_increment table8 Z.eqb 8)
                       (device_view.find_all view8 table8 8) k identity_hash Z.eqb 8))
      [1; 2; 3; 4]%Z
  = [Ret 3; Ret 1; Ret 1; Ret 0]%Z.
Proof. reflexivity. Qed.

(** ** Ballots and the lowest set bit *)

Section Ballot.

Lemma ballot_testbit (preds : list bool) (i : nat) :
  Z.testbit (cg.ballot preds) (Z.of_nat i) = nth i preds false.
Proof.
  revert i. induction preds as [|b rest IH]; intros i.
  - destruct i; apply Z.bits_0.
  - cbn [cg.ballot]. rewrite Z.lor_spec. destruct i as [|i].
    + cbn [nth]. change (Z.of_nat 0) with 0%Z.
      rewrite Z.b2z_bit0, Z.shiftl_spec_low by lia. apply orb_false_r.
    + cbn [nth]. rewrite Z.shiftl_spec by lia.
      replace (Z.of_nat (S i) - 1)%Z with (Z.of_nat i) by lia.
      rewrite IH. replace (Z.testbit (Z.b2z b) (Z.of_nat (S i))) with false.
      * reflexivity.
      * destruct b; cbn [Z.b2z]; [|symmetry; apply Z.bits_0].
        rewrite Nat2Z.inj_succ. symmetry.
        apply (Z.bits_above_log2 1); cbn; lia.
Qed.

Lemma ballot_zero (preds : list bool) :
  cg.ballot preds = 0%Z <-> Forall (fun b => b = false) preds.
Proof.
  induction preds as [|b rest IH]; cbn [cg.ballot].
  - split; [constructor | reflexivity].
  - rewrite Z.lor_eq_0_iff, Z.shiftl_eq_0_iff, IH by lia. split.
    + intros [Hb Hr]. constructor; [destruct b; [discriminate | reflexivity] | exact Hr].
    + intros H. inversion H; subst. split; [reflexivity | assumption].
Qed.

Lemma ballot_nonzero (preds : list bool) (r : nat) :
  nth r preds false = true -> cg.ballot preds <> 0%Z.
Proof.
  intros Hr H0. rewrite <- ballot_testbit, H0, Z.bits_0 in Hr. discriminate.
Qed.

Lemma find_seq (f : nat -> bool) (a n r : nat) :
  a <= r < a + n -> f r = true -> (forall j, a <= j < r -> f j = false) ->
  List.find f (seq a n) = Some r.
Proof.
  revert a. induction n as [|n IH]; intros a Hr Hf Hlow; [lia|].
  cbn [seq List.find]. destruct (decide (a = r)) as [->|Hne].
  - rewrite Hf. reflexivity.
  - rewrite Hlow by lia. apply IH; [lia | assumption |]. intros j Hj. apply Hlow. lia.
Qed.

(** [__ffs(ballot) - 1] is the lowest rank whose predicate holds. *)
Lemma ffs_ballot (preds : list bool) (r : nat) :
  r < 32 -> nth r preds false = true ->
  (forall j, j < r -> nth j preds false = false) ->
  cg.ffs (cg.ballot preds) - 1 = r.
Proof.
  intros Hr Ht Hlow. unfold cg.ffs.
  rewrite (find_seq _ 0 32 r); [lia | lia | |].
  - rewrite ballot_testbit. exact Ht.
  - intros j Hj. rewrite ballot_testbit. apply Hlow. lia.
Qed.

End Ballot.

(** ** The atomic operations *)

Section Atomics.

Import device_mutable_view.

Lemma map_first_insert (t : table) (i : nat) (s : slot) (d : Z) :
  t !! i = Some s -> map first (<[i := Slot (first s) d]> t) = map first t.
Proof.
  intros H. change (map first ?l) with (first <$> l).
  rewrite list_fmap_insert. cbn [first]. apply list_insert_id.
  rewrite list_lookup_fmap, H. reflexivity.
Qed.

Lemma second_cas_keys (t : table) (i : nat) (e d : Z) :
  map first (snd (second_compare_exchange_strong t i e d)) = map first t.
Proof.
  unfold second_compare_exchange_strong. destruct (t !! i) as [s|] eqn:Hs; [|reflexivity].
  destruct (second s =? e)%Z; [|reflexivity]. cbn [snd]. apply map_first_insert, Hs.
Qed.

Lemma second_store_keys (t : table) (i : nat) (d : Z) :
  map first (second_store t i d) = map first t.
Proof.
  unfold second_store. destruct (t !! i) as [s|] eqn:Hs; [|reflexivity].
  apply map_first_insert, Hs.
Qed.

Lemma full_map_first (vw : view) (t t' : table) :
  map first t' = map first t -> full vw t -> full vw t'.
Proof.
  unfold full. intros Heq H.
  rewrite <- (Forall_fmap first (fun x => x <> empty_key_sentinel_ vw)) in *.
  change (first <$> t') with (map first t'). rewrite Heq. exact H.
Qed.

Lemma first_cas_full (vw : view) (t : table) (i : nat) (d : Z) :
  full vw t ->
  first_compare_exchange_strong t i (get_empty_key_sentinel vw) d = (false, t).
Proof.
  intros Hf. unfold first_compare_exchange_strong.
  destruct (t !! i) as [s|] eqn:Hs; [|reflexivity].
  unfold full in Hf. rewrite Forall_lookup in Hf. specialize (Hf i s Hs).
  unfold get_empty_key_sentinel. destruct (Z.eqb_spec (first s) (empty_key_sentinel_ vw)); [contradiction | reflexivity].
Qed.

(** On a full table the commit protocol never wins the key, whatever
    the program point it may be at after a lost key CAS. *)
Lemma commit_step_full (vw : view) (p : Z * Z) (loc : nat) (pc : commit_pc) (t : table) :
  full vw t ->
  pc = key_cas \/ pc = value_cas false \/ pc = value_rollback ->
  full vw (snd (commit_step vw p loc pc t)) /\
  (fst (commit_step vw p loc pc t) = Pending (value_cas false) \/
   fst (commit_step vw p loc pc t) = Pending value_rollback \/
   fst (commit_step vw p loc pc t) = Finished false).
Proof.
  intros Hf [-> | [-> | ->]]; cbn [commit_step].
  - rewrite first_cas_full by assumption. cbn. auto.
  - destruct (second_compare_exchange_strong t loc _ _) as [vs t'] eqn:E.
    assert (Hk : map first t' = map first t).
    { pose proof (second_cas_keys t loc (get_empty_value_sentinel vw) (snd p)) as H.
      rewrite E in H. exact H. }
    destruct vs; cbn; split; eauto using full_map_first.
  - cbn. split; [|auto]. eapply full_map_first; [apply second_store_keys | assumption].
Qed.

End Atomics.

(** ** Inserting into a table without an empty slot *)

Section FullTable.

Import device_mutable_view.

Variable vw : view.
Variable insert_pair : Z * Z.
Variable env : interference.
Hypothesis env_full : keeps_full vw env.

Lemma insert_step_full (st : insert_state) (t : table) :
  full vw t -> not_committed st ->
  not_committed (fst (insert_step vw insert_pair st t)) /\
  full vw (snd (insert_step vw insert_pair st t)).
Proof.
  intros Hf Hn. destruct st as [cur pc|]; [|contradiction].
  cbn [insert_step not_committed] in *.
  destruct (commit_step_full vw insert_pair cur pc t Hf Hn) as [Hf' Hr].
  destruct (commit_step vw insert_pair cur pc t) as [r t'].
  cbn [fst snd] in *.
  destruct Hr as [-> | [-> | ->]]; cbn; unfold key_lost; auto.
Qed.

Lemma insert_run_full (fuel i : nat) (st : insert_state) (t : table) :
  full vw t -> not_committed st ->
  not_committed (fst (insert_run vw insert_pair env fuel i st t)).
Proof.
  revert i st t. induction fuel as [|fuel IH]; intros i st t Hf Hn; [exact Hn|].
  cbn [insert_run].
  destruct (insert_step_full st (env i t) (env_full i t Hf) Hn) as [Hn' Hf'].
  destruct (insert_step vw insert_pair st (env i t)) as [st' t'].
  apply IH; assumption.
Qed.

Lemma any_all_continue (status : list insert_result) :
  Forall (fun s => s = CONTINUE) status ->
  cg.any (map (fun s => insert_result_eqb s SUCCESS) status) = false.
Proof.
  induction 1 as [|s l Hs _ IH]; [reflexivity|]. subst s. cbn. exact IH.
Qed.

Lemma all_continue_replicate (n : nat) :
  Forall (fun s => s = CONTINUE) (replicate n CONTINUE).
Proof. apply Forall_replicate. reflexivity. Qed.

Lemma insert_cg_step_full (CGSize : nat) (st : insert_cg_state) (t : table) :
  full vw t -> not_committed_cg st ->
  not_committed_cg (fst (insert_cg_step vw CGSize insert_pair st t)) /\
  full vw (snd (insert_cg_step vw CGSize insert_pair st t)).
Proof.
  intros Hf Hn. destruct st as [cur | cur src loc pc status | cur status | |];
    cbn [insert_cg_step not_committed_cg] in *; try contradiction; try (split; [exact I | exact Hf]).
  - repeat case_match; cbn; (split; [|exact Hf]); try exact I.
    all: split; [unfold key_lost; auto | apply all_continue_replicate].
  - destruct Hn as [Hpc Hst].
    destruct (commit_step_full vw insert_pair loc pc t Hf Hpc) as [Hf' Hr].
    destruct (commit_step vw insert_pair loc pc t) as [r t']. cbn [fst snd] in *.
    destruct Hr as [-> | [-> | ->]]; cbn; unfold key_lost; auto.
  - rewrite any_all_continue by assumption. split; [exact I | exact Hf].
Qed.

Lemma insert_cg_run_full (CGSize fuel i : nat) (st : insert_cg_state) (t : table) :
  full vw t -> not_committed_cg st ->
  not_committed_cg (fst (insert_cg_run vw CGSize insert_pair env fuel i st t)).
Proof.
  revert i st t. induction fuel as [|fuel IH]; intros i st t Hf Hn; [exact Hn|].
  cbn [insert_cg_run].
  destruct (insert_cg_step_full CGSize st (env i t) (env_full i t Hf) Hn) as [Hn' Hf'].
  destruct (insert_cg_step vw CGSize insert_pair st (env i t)) as [st' t'].
  apply IH; assumption.
Qed.

End FullTable.

Lemma quiet_keeps_full (vw : view) : keeps_full vw device_mutable_view.quiet.
Proof. intros i t H. exact H. Qed.

Lemma full4_full : full view4 full4.
Proof. unfold full, full4. repeat constructor; cbn; discriminate. Qed.

(** ** The cooperative insert on a table without an empty slot, while
    its loads stay inside the slot array *)

Section FullTableInRange.

Import device_mutable_view.

Lemma load_window_in_range (t : table) (c : nat) :
  c + 1 < length t -> is_Some (load_window t c).
Proof.
  intros H. unfold load_window.
  destruct (lookup_lt_is_Some_2 t c ltac:(lia)) as [a0 ->].
  destruct (lookup_lt_is_Some_2 t (c + 1) ltac:(lia)) as [a1 ->].
  eexists. reflexivity.
Qed.

Lemma mapM_load_in_range (t : table) (w : list nat) :
  loads_in_range (length t) w ->
  exists arr, mapM (load_window t) w = Some arr /\ length arr = length w.
Proof.
  intros H.
  assert (Hs : is_Some (mapM (load_window t) w)).
  { apply mapM_is_Some. eapply Forall_impl; [exact H|].
    intros c Hc. apply load_window_in_range, Hc. }
  destruct Hs as [arr Harr]. exists arr. split; [exact Harr|].
  symmetry. eapply length_mapM, Harr.
Qed.

(** The lane a non-zero ballot elects is a lane of the group. *)
Lemma ffs_lane_in_range (preds : list bool) :
  cg.ballot preds <> 0%Z -> cg.ffs (cg.ballot preds) - 1 < length preds.
Proof.
  intros Hnz. unfold cg.ffs.
  destruct (List.find _ (seq 0 32)) as [r|] eqn:Hfind.
  - apply find_some in Hfind. destruct Hfind as [_ Hbit].
    rewrite ballot_testbit in Hbit.
    destruct (Nat.lt_ge_cases r (length preds)) as [Hlt | Hge]; [lia|].
    rewrite nth_overflow in Hbit by lia. discriminate.
  - destruct preds as [|b rest]; [contradiction Hnz; reflexivity | cbn; lia].
Qed.

Lemma commit_step_length (vw : view) (p : Z * Z) (loc : nat) (pc : commit_pc) (t : table) :
  length (snd (commit_step vw p loc pc t)) = length t.
Proof.
  destruct pc as [| ks | |]; cbn [commit_step];
    unfold first_compare_exchange_strong, second_compare_exchange_strong, second_store;
    repeat case_match; simplify_eq; cbn [snd]; rewrite ?length_insert; reflexivity.
Qed.

Variable vw : view.
Variable CGSize : nat.
Variable insert_pair : Z * Z.
Variable env : interference.
Variable current_slot : list nat.
Variable len : nat.
Hypothesis env_full : keeps_full vw env.
Hypothesis env_length : keeps_length env.
Hypothesis in_range : forall n, loads_in_range len (window vw CGSize current_slot n).

Lemma insert_cg_step_in_range (st : insert_cg_state) (t : table) :
  full vw t -> length t = len ->
  not_committed_cg st -> at_window vw CGSize current_slot st ->
  full vw (snd (insert_cg_step vw CGSize insert_pair st t)) /\
  length (snd (insert_cg_step vw CGSize insert_pair st t)) = len /\
  not_committed_cg (fst (insert_cg_step vw CGSize insert_pair st t)) /\
  at_window vw CGSize current_slot (fst (insert_cg_step vw CGSize insert_pair st t)).
Proof.
  intros Hf Hlen Hn Hw.
  destruct st as [w | w src loc pc status | w status | |];
    cbn [at_window] in Hw; try contradiction.
  - destruct Hw as [n ->]. cbn [insert_cg_step].
    destruct (mapM_load_in_range t (window vw CGSize current_slot n)) as (arr & -> & Harr).
    { rewrite Hlen. apply in_range. }
    destruct (Z.eqb_spec (cg.ballot (map (fun a => first_slot_is_empty vw a || second_slot_is_empty vw a) arr)) 0)
      as [Hz | Hnz].
    + cbn [fst snd not_committed_cg at_window].
      split; [exact Hf | split; [exact Hlen | split; [exact I|]]].
      exists (S n). reflexivity.
    + apply ffs_lane_in_range in Hnz. rewrite length_map in Hnz.
      destruct (lookup_lt_is_Some_2 (window vw CGSize current_slot n) _
                  ltac:(rewrite <- Harr; exact Hnz)) as [c ->].
      destruct (lookup_lt_is_Some_2 arr _ Hnz) as [a ->].
      cbn [fst snd not_committed_cg at_window].
      split; [exact Hf | split; [exact Hlen | split; [|exists n; reflexivity]]].
      split; [unfold key_lost; auto | apply all_continue_replicate].
  - cbn [not_committed_cg] in Hn. destruct Hn as [Hpc Hst]. cbn [insert_cg_step].
    destruct (commit_step_full vw insert_pair loc pc t Hf Hpc) as [Hf' Hr].
    pose proof (commit_step_length vw insert_pair loc pc t) as Hl.
    destruct (commit_step vw insert_pair loc pc t) as [r t']. cbn [fst snd] in *.
    destruct Hr as [-> | [-> | ->]]; cbn [fst snd not_committed_cg at_window];
      (split; [exact Hf' | split; [lia | split; [|exact Hw]]]);
      unfold key_lost; auto.
  - cbn [not_committed_cg] in Hn. cbn [insert_cg_step].
    rewrite any_all_continue by assumption.
    cbn [fst snd not_committed_cg at_window]. auto.
Qed.

Lemma insert_cg_run_in_range (fuel i : nat) (st : insert_cg_state) (t : table) :
  full vw t -> length t = len ->
  not_committed_cg st -> at_window vw CGSize current_slot st ->
  at_window vw CGSize current_slot
    (fst (insert_cg_run vw CGSize insert_pair env fuel i st t)).
Proof.
  revert i st t. induction fuel as [|fuel IH]; intros i st t Hf Hlen Hn Hw; [exact Hw|].
  cbn [insert_cg_run].
  destruct (insert_cg_step_in_range st (env i t) (env_full i t Hf)
              ltac:(rewrite env_length; exact Hlen) Hn Hw) as (Hf' & Hlen' & Hn' & Hw').
  destruct (insert_cg_step vw CGSize insert_pair st (env i t)) as [st' t'].
  apply IH; assumption.
Qed.

End FullTableInRange.

Lemma at_window_in_loop (vw : view) (CGSize : nat) (current_slot : list nat)
    (st : device_mutable_view.insert_cg_state) :
  at_window vw CGSize current_slot st -> in_loop st.
Proof. destruct st; cbn; auto. Qed.

Lemma quiet_keeps_length : keeps_length device_mutable_view.quiet.
Proof. intros i t. reflexivity. Qed.

(** On the capacity-4 table the two lanes that start at the slots 0 and
    2 load the slot pairs (0, 1) and (2, 3) in every window. *)
Lemma window4_in_range (n : nat) : loads_in_range 4 (window view4 2 [0; 2] n).
Proof.
  assert (H : window view4 2 [0; 2] n = [0; 2] \/ window view4 2 [0; 2] n = [2; 0]).
  { induction n as [|n IH]; [left; reflexivity|].
    change (window view4 2 [0; 2] (S n))
      with (map (next_slot_cg view4 2) (window view4 2 [0; 2] n)).
    destruct IH as [-> | ->]; [right | left]; reflexivity. }
  unfold loads_in_range. destruct H as [-> | ->]; repeat constructor.
Qed.

(** C2 (as amended): an insert into a table in which no slot is empty
    never returns, whatever the other workers do as long as they leave no
    key field empty; no insert counts its probes or reports a capacity
    error.  The single worker is, after any number of steps, still at a
    slot of its probe path with its key not placed.  The group of the
    cooperative insert has, after any number of steps, not returned:
    it is inside its loop or one of its lanes has loaded from outside
    the slot array; and from any lane slots whose two-slot loads stay
    inside the slot array in every window, it is inside its loop. *)
Theorem C2_insert_into_full_table_never_returns
    (vw : view) (CGSize : nat) (insert_pair : Z * Z) (hash : Z -> nat)
    (key_equal : Z -> Z -> bool) (env : device_mutable_view.interference)
    (fuel : nat) (t : table) :
  full vw t -> keeps_full vw env ->
  (exists current_slot pc,
     fst (device_mutable_view.insert vw insert_pair hash key_equal env fuel t)
       = device_mutable_view.Probing current_slot pc /\ key_lost pc) /\
  (in_loop (fst (device_mutable_view.insert_cg vw CGSize insert_pair hash key_equal env fuel t)) \/
   fst (device_mutable_view.insert_cg vw CGSize insert_pair hash key_equal env fuel t)
     = device_mutable_view.Fault_cg) /\
  (forall (current_slot : list nat) (i : nat),
     keeps_length env ->
     (forall n, loads_in_range (length t) (window vw CGSize current_slot n)) ->
     in_loop (fst (device_mutable_view.insert_cg_run vw CGSize insert_pair env fuel i
                     (device_mutable_view.Window current_slot) t))).
Proof.
  intros Hf He. split; [|split].
  - pose proof (insert_run_full vw insert_pair env He fuel 0
      (device_mutable_view.Probing
         (initial_slot vw (fst insert_pair) hash) device_mutable_view.key_cas)
      t Hf (or_introl eq_refl)) as H.
    unfold device_mutable_view.insert.
    destruct (fst (device_mutable_view.insert_run _ _ _ _ _ _ _)) as [c pc|];
      [|contradiction].
    exists c, pc. split; [reflexivity | exact H].
  - pose proof (insert_cg_run_full vw insert_pair env He CGSize fuel 0
      (device_mutable_view.Window
         (map (fun rank => initial_slot_cg vw CGSize rank (fst insert_pair) hash)
              (seq 0 CGSize)))
      t Hf I) as H.
    unfold device_mutable_view.insert_cg.
    destruct (fst (device_mutable_view.insert_cg_run _ _ _ _ _ _ _ _));
      cbn; auto; contradiction.
  - intros current_slot i Hl Hr.
    apply (at_window_in_loop vw CGSize current_slot).
    apply (insert_cg_run_in_range vw CGSize insert_pair env current_slot (length t)
             He Hl Hr fuel i); [exact Hf | reflexivity | exact I | exists 0; reflexivity].
Qed.

(** A fifth pair and the full capacity-4 table: the single worker is
    still probing after 100 steps, and so is the group of two lanes that
    start at the slots 0 and 2, whose loads cover the slot pairs (0, 1)
    and (2, 3) in every window. *)
Lemma C2_insert_into_full_table_never_returns_witness :
  (exists current_slot pc,
     fst (device_mutable_view.insert view4 (5, 50)%Z identity_hash Z.eqb
            device_mutable_view.quiet 100 full4)
       = device_mutable_view.Probing current_slot pc /\ key_lost pc) /\
  (in_loop (fst (device_mutable_view.insert_cg view4 2 (5, 50)%Z identity_hash Z.eqb
                   device_mutable_view.quiet 100 full4)) \/
   fst (device_mutable_view.insert_cg view4 2 (5, 50)%Z identity_hash Z.eqb
          device_mutable_view.quiet 100 full4)
     = device_mutable_view.Fault_cg) /\
  in_loop (fst (device_mutable_view.insert_cg_run view4 2 (5, 50)%Z
                  device_mutable_view.quiet 100 0
                  (device_mutable_view.Window [0; 2]) full4)).
Proof.
  destruct (C2_insert_into_full_table_never_returns view4 2 (5, 50)%Z identity_hash
              Z.eqb device_mutable_view.quiet 100 full4 full4_full
              (quiet_keeps_full view4)) as (Hsingle & Hentry & Hloop).
  split; [exact Hsingle | split; [exact Hentry|]].
  apply (Hloop [0; 2] 0).
  - exact quiet_keeps_length.
  - exact window4_in_range.
Defined.

(** C2, the claim as stated fails: the fifth insert into the full table
    of capacity 4 is back at its initial slot after [capacity / step = 4]
    probes (two atomic steps each), with the table as it was, and goes on
    probing; no amount of steps makes it return, with an error or
    otherwise. *)
Lemma C2_fifth_insert_runs_forever :
  device_mutable_view.insert view4 (5, 50)%Z identity_hash Z.eqb
    device_mutable_view.quiet 8 full4
  = (device_mutable_view.Probing (initial_slot view4 5 identity_hash)
       device_mutable_view.key_cas, full4) /\
  ~ (exists fuel,
       fst (device_mutable_view.insert view4 (5, 50)%Z identity_hash Z.eqb
              device_mutable_view.quiet fuel full4)
       = device_mutable_view.Returned).
Proof.
  split; [reflexivity|]. intros [fuel Heq].
  pose proof (insert_run_full view4 (5, 50)%Z device_mutable_view.quiet
    (quiet_keeps_full view4) fuel 0
    (device_mutable_view.Probing (initial_slot view4 5 identity_hash)
       device_mutable_view.key_cas)
    full4 full4_full (or_introl eq_refl)) as H.
  unfold device_mutable_view.insert in Heq. cbn [fst] in Heq. rewrite Heq in H. exact H.
Qed.

(** ** The [status] of the cooperative insert *)

Section Status.

Import device_mutable_view.

Variable vw : view.
Variable CGSize : nat.
Variable insert_pair : Z * Z.
Variable env : interference.

Lemma insert_cg_step_status (st : insert_cg_state) (t : table) :
  two_valued st -> two_valued (fst (insert_cg_step vw CGSize insert_pair st t)).
Proof.
  unfold two_valued.
  destruct st as [cur | cur src loc pc status | cur status | |];
    cbn [insert_cg_step status_of]; intros H.
  - repeat case_match; cbn [fst status_of]; try constructor.
    all: apply Forall_replicate; left; reflexivity.
  - destruct (commit_step vw insert_pair loc pc t) as [[pc'|[|]] t'];
      cbn [fst status_of]; [exact H | | exact H].
    apply Forall_insert; [exact H | right; reflexivity].
  - case_match; constructor.
  - constructor.
  - constructor.
Qed.

Lemma insert_cg_run_status (fuel i : nat) (st : insert_cg_state) (t : table) :
  two_valued st ->
  two_valued (fst (insert_cg_run vw CGSize insert_pair env fuel i st t)).
Proof.
  revert i st t. induction fuel as [|fuel IH]; intros i st t H; [exact H|].
  cbn [insert_cg_run].
  pose proof (insert_cg_step_status st (env i t) H) as H'.
  destruct (insert_cg_step vw CGSize insert_pair st (env i t)) as [st' t'].
  apply IH. exact H'.
Qed.

End Status.

(** C10: in no execution of the cooperative insert, under any
    interleaving with other workers, does a lane's [status] hold
    [DUPLICATE]: at every program point every lane's [status] is
    [CONTINUE] or [SUCCESS].  (The single-worker insert has no
    [insert_result] at all: its state is [Probing] or [Returned].) *)
Theorem C10_status_is_continue_or_success
    (vw : view) (CGSize : nat) (insert_pair : Z * Z) (hash : Z -> nat)
    (key_equal : Z -> Z -> bool) (env : device_mutable_view.interference)
    (fuel : nat) (t : table) :
  Forall (fun s => (s = CONTINUE \/ s = SUCCESS) /\ s <> DUPLICATE)
    (status_of (fst (device_mutable_view.insert_cg vw CGSize insert_pair hash
                       key_equal env fuel t))).
Proof.
  unfold device_mutable_view.insert_cg.
  eapply Forall_impl.
  - apply insert_cg_run_status. constructor.
  - intros s [-> | ->]; split; auto; discriminate.
Qed.

(** The status registers are not always empty: after the elected lane
    has committed, the group votes on [SUCCESS; CONTINUE]. *)
Example status_after_commit :
  status_of (fst (device_mutable_view.insert_cg (View 8 (-1) (-1)) 2 (4, 40)%Z
                    identity_hash Z.eqb device_mutable_view.quiet 3
                    (replicate 8 (Slot (-1) (-1)))))
  = [SUCCESS; CONTINUE].
Proof. reflexivity. Qed.

(** ** The emptiness test of the cooperative insert *)

Section ValueSentinelTest.

Import device_mutable_view.

Variable vw : view.
Variable CGSize : nat.
Variable insert_pair : Z * Z.
Variable t : table.

(** No key field holds the bit pattern of the empty VALUE sentinel. *)
Hypothesis no_value_sentinel :
  Forall (fun s => first s <> empty_value_sentinel_ vw) t.

Lemma window_never_empty (current_slot : list nat) (arr : list (slot * slot)) :
  mapM (load_window t) current_slot = Some arr ->
  cg.ballot (map (fun a => first_slot_is_empty vw a || second_slot_is_empty vw a) arr)
  = 0%Z.
Proof.
  intros Hload. apply ballot_zero. apply mapM_Some_1 in Hload.
  rewrite Forall_lookup in no_value_sentinel.
  induction Hload as [|c a cur arr' Ha _ IH]; [constructor|].
  cbn [map]. constructor; [|exact IH].
  unfold load_window in Ha.
  destruct (t !! c) as [a0|] eqn:H0; [|discriminate].
  destruct (t !! (c + 1)) as [a1|] eqn:H1; [|discriminate].
  injection Ha as <-.
  unfold first_slot_is_empty, second_slot_is_empty, bitwise_compare,
    get_empty_value_sentinel. cbn [fst snd].
  pose proof (no_value_sentinel c a0 H0). pose proof (no_value_sentinel (c + 1) a1 H1).
  destruct (Z.eqb_spec (first a0) (empty_value_sentinel_ vw)); [contradiction|].
  destruct (Z.eqb_spec (first a1) (empty_value_sentinel_ vw)); [contradiction|].
  reflexivity.
Qed.

(** The group then only ever walks on to the next window. *)
Lemma insert_cg_walks_on (fuel i : nat) (st : insert_cg_state) :
  (exists current_slot, st = Window current_slot) \/ st = Fault_cg ->
  fst (insert_cg_run vw CGSize insert_pair quiet fuel i st t) <> Returned_cg.
Proof.
  revert i st. induction fuel as [|fuel IH]; intros i st Hst.
  - cbn. destruct Hst as [[cur ->] | ->]; discriminate.
  - cbn [insert_cg_run]. unfold quiet at 1.
    destruct Hst as [[cur ->] | ->]; cbn [insert_cg_step].
    + destruct (mapM (load_window t) cur) as [arr|] eqn:Hload.
      * rewrite (window_never_empty cur arr Hload). cbn. apply IH. left. eauto.
      * apply IH. right. reflexivity.
    + apply IH. right. reflexivity.
Qed.

End ValueSentinelTest.

(** C1, evaluated on the code: with key sentinel -1 and value sentinel 0
    the cooperative insert compares the key of a slot with the VALUE
    sentinel.  A slot that holds the empty key is not found empty, the
    group walks past a window of empty slots, a slot that holds the real
    key 0 is taken for empty, and the insert into the empty table never
    returns. *)
Theorem C1_insert_cg_tests_key_against_value_sentinel :
  bitwise_compare (first (Slot (-1) 0)) (get_empty_key_sentinel view8_distinct) = true /\
  device_mutable_view.first_slot_is_empty view8_distinct (Slot (-1) 0, Slot (-1) 0) = false /\
  device_mutable_view.second_slot_is_empty view8_distinct (Slot (-1) 0, Slot (-1) 0) = false /\
  device_mutable_view.insert_cg view8_distinct 2 (4, 40)%Z identity_hash Z.eqb
    device_mutable_view.quiet 1 fresh8_distinct
  = (device_mutable_view.Window [2; 3], fresh8_distinct) /\
  device_mutable_view.first_slot_is_empty view8_distinct (Slot 0 7, Slot (-1) 0) = true /\
  forall fuel,
    fst (device_mutable_view.insert_cg view8_distinct 2 (4, 40)%Z identity_hash Z.eqb
           device_mutable_view.quiet fuel fresh8_distinct)
    <> device_mutable_view.Returned_cg.
Proof.
  repeat (split; [reflexivity|]). intros fuel.
  apply insert_cg_walks_on; [|left; eexists; reflexivity].
  repeat constructor; cbn; discriminate.
Qed.

(** ** The two-word commit of the single-worker insert *)

Section TwoWordCommit.

Import device_mutable_view.

Variable vw : view.
Variables k v : Z.

Lemma first_cas_at (t : table) (cur : nat) (s : slot) :
  t !! cur = Some s ->
  first_compare_exchange_strong t cur (get_empty_key_sentinel vw) k
  = (bitwise_compare (first s) (empty_key_sentinel_ vw),
     if bitwise_compare (first s) (empty_key_sentinel_ vw)
     then <[cur := Slot k (second s)]> t else t).
Proof.
  intros H. unfold first_compare_exchange_strong, bitwise_compare, get_empty_key_sentinel.
  rewrite H. destruct (first s =? empty_key_sentinel_ vw)%Z; reflexivity.
Qed.

Lemma second_cas_at (t : table) (cur : nat) (s : slot) :
  t !! cur = Some s ->
  second_compare_exchange_strong t cur (get_empty_value_sentinel vw) v
  = (bitwise_compare (second s) (empty_value_sentinel_ vw),
     if bitwise_compare (second s) (empty_value_sentinel_ vw)
     then <[cur := Slot (first s) v]> t else t).
Proof.
  intros H. unfold second_compare_exchange_strong, bitwise_compare, get_empty_value_sentinel.
  rewrite H. destruct (second s =? empty_value_sentinel_ vw)%Z; reflexivity.
Qed.

(** Once the key is won the worker neither leaves the slot nor gives
    up: whatever the other workers do, it is retrying the value CAS at
    the same slot or it has returned. *)
Lemma retry_stays (env : interference) (cur fuel i : nat) (st : insert_state) (t : table) :
  st = Probing cur (value_cas true) \/ st = Probing cur value_retry \/ st = Returned ->
  fst (insert_run vw (k, v) env fuel i st t) = Probing cur value_retry \/
  fst (insert_run vw (k, v) env fuel i st t) = Returned \/
  (fuel = 0 /\ st = Probing cur (value_cas true)).
Proof.
  revert i st t. induction fuel as [|fuel IH]; intros i st t Hst.
  - cbn. destruct Hst as [-> | [-> | ->]]; auto.
  - cbn [insert_run].
    assert (Hnext : fst (insert_step vw (k, v) st (env i t)) = Probing cur value_retry \/
                    fst (insert_step vw (k, v) st (env i t)) = Returned).
    { destruct Hst as [-> | [-> | ->]]; cbn [insert_step commit_step];
        try (destruct (second_compare_exchange_strong _ _ _ _) as [[|] t']); cbn; auto. }
    destruct (insert_step vw (k, v) st (env i t)) as [st' t']. cbn [fst] in Hnext.
    destruct Hnext as [-> | ->].
    + destruct (IH (S i) _ t' (or_intror (or_introl eq_refl))) as [H | [H | [_ H]]];
        auto; discriminate.
    + destruct (IH (S i) _ t' (or_intror (or_intror eq_refl))) as [H | [H | [_ H]]];
        auto; discriminate.
Qed.

End TwoWordCommit.

(** C3: the two-word commit protocol of the single-worker insert of
    [(k, v)] at a probed slot, for every content [s] the slot may have
    when the worker's atomic operation takes place.
    - The key CAS succeeds exactly when the key field holds the empty key
      sentinel, and then writes [k].
    - After a successful key CAS the value CAS (expected: the empty value
      sentinel) either succeeds, writes [v] and the insert returns, or the
      worker retries it; while retrying it stays at this slot until the CAS
      succeeds, under any interleaving.
    - After a failed key CAS, a successful value CAS is followed by the
      store of the empty value sentinel and the advance to the next slot;
      a failed one by the advance alone. *)
Theorem C3_two_word_commit_protocol
    (vw : view) (k v : Z) (cur : nat) (t : table) (s : slot) :
  t !! cur = Some s ->
  let key_is_empty := bitwise_compare (first s) (empty_key_sentinel_ vw) in
  let value_is_empty := bitwise_compare (second s) (empty_value_sentinel_ vw) in
  let step := device_mutable_view.insert_step vw (k, v) in
  let at_slot := device_mutable_view.Probing cur in
  step (at_slot device_mutable_view.key_cas) t
  = (at_slot (device_mutable_view.value_cas key_is_empty),
     if key_is_empty then <[cur := Slot k (second s)]> t else t) /\
  step (at_slot (device_mutable_view.value_cas true)) t
  = (if value_is_empty
     then (device_mutable_view.Returned, <[cur := Slot (first s) v]> t)
     else (at_slot device_mutable_view.value_retry, t)) /\
  step (at_slot device_mutable_view.value_retry) t
  = (if value_is_empty
     then (device_mutable_view.Returned, <[cur := Slot (first s) v]> t)
     else (at_slot device_mutable_view.value_retry, t)) /\
  (forall env fuel i t0,
     let st := fst (device_mutable_view.insert_run vw (k, v) env fuel i
                      (at_slot device_mutable_view.value_retry) t0) in
     st = at_slot device_mutable_view.value_retry \/ st = device_mutable_view.Returned) /\
  step (at_slot (device_mutable_view.value_cas false)) t
  = (if value_is_empty
     then (at_slot device_mutable_view.value_rollback, <[cur := Slot (first s) v]> t)
     else (device_mutable_view.Probing (next_slot vw cur) device_mutable_view.key_cas, t)) /\
  step (at_slot device_mutable_view.value_rollback) t
  = (device_mutable_view.Probing (next_slot vw cur) device_mutable_view.key_cas,
     <[cur := Slot (first s) (empty_value_sentinel_ vw)]> t).
Proof.
  intros Hs key_is_empty value_is_empty step at_slot.
  subst step at_slot. cbn [device_mutable_view.insert_step device_mutable_view.commit_step fst snd].
  rewrite (first_cas_at vw k t cur s Hs), (second_cas_at vw v t cur s Hs).
  fold key_is_empty value_is_empty.
  split; [|split; [|split; [|split; [|split]]]].
  - reflexivity.
  - destruct value_is_empty; reflexivity.
  - destruct value_is_empty; reflexivity.
  - intros env fuel i t0.
    destruct (retry_stays vw k v env cur fuel i
                (device_mutable_view.Probing cur device_mutable_view.value_retry) t0)
      as [H | [H | [_ H]]]; auto; discriminate.
  - destruct value_is_empty; reflexivity.
  - unfold second_store, get_empty_value_sentinel. rewrite Hs. reflexivity.
Qed.

Lemma C3_two_word_commit_protocol_witness :
  device_mutable_view.insert_step view8 (9, 90)%Z
    (device_mutable_view.Probing 0 device_mutable_view.key_cas) table8
  = (device_mutable_view.Probing 0 (device_mutable_view.value_cas true),
     <[0 := Slot 9 (-1)]> table8) /\
  device_mutable_view.insert_step view8 (9, 90)%Z
    (device_mutable_view.Probing 0 (device_mutable_view.value_cas false)) table8
  = (device_mutable_view.Probing 0 device_mutable_view.value_rollback,
     <[0 := Slot (-1) 90]> table8).
Proof.
  destruct (C3_two_word_commit_protocol view8 9 90 0 table8 (Slot (-1) (-1)) eq_refl)
    as (H1 & _ & _ & _ & H5 & _).
  split; [exact H1 | exact H5].
Defined.

(** ** What an insert writes *)

Section Writes.

Import device_mutable_view.

Variable vw : view.
Variables k v : Z.

Lemma keys_only_claimed_refl (t : table) : keys_only_claimed vw k t t.
Proof. split; [reflexivity|]. intros i s H. exists s. auto. Qed.

Lemma keys_only_claimed_map_first (t t' : table) :
  map first t' = map first t -> keys_only_claimed vw k t t'.
Proof.
  intros Heq. split.
  - rewrite <- (length_map first t'), Heq. apply length_map.
  - intros i s Hs.
    assert (H : (first <$> t') !! i = Some (first s)).
    { change (first <$> t') with (map first t'). rewrite Heq.
      change (map first t) with (first <$> t). rewrite list_lookup_fmap, Hs. reflexivity. }
    rewrite list_lookup_fmap in H. destruct (t' !! i) as [s'|]; [|discriminate].
    exists s'. split; [reflexivity|]. left. cbn in H. congruence.
Qed.

Lemma first_cas_keys (t : table) (loc : nat) :
  keys_only_claimed vw k t
    (snd (first_compare_exchange_strong t loc (get_empty_key_sentinel vw) k)).
Proof.
  unfold first_compare_exchange_strong, get_empty_key_sentinel.
  destruct (t !! loc) as [s|] eqn:Hs; [|apply keys_only_claimed_refl].
  destruct (Z.eqb_spec (first s) (empty_key_sentinel_ vw)) as [He|];
    [|apply keys_only_claimed_refl].
  cbn [snd]. split; [apply length_insert|]. intros i s0 Hi.
  destruct (decide (loc = i)) as [->|Hne].
  - rewrite list_lookup_insert_eq by (eapply lookup_lt_Some; eassumption).
    eexists; split; [reflexivity|]. right. cbn. split; congruence.
  - rewrite list_lookup_insert_ne by assumption. exists s0. auto.
Qed.

(** Every atomic step of the commit leaves the key field of a
    non-empty slot as it is; a key field that changes goes from the
    empty sentinel to [k]. *)
Lemma commit_step_keys (loc : nat) (pc : commit_pc) (t : table) :
  keys_only_claimed vw k t (snd (commit_step vw (k, v) loc pc t)).
Proof.
  destruct pc as [| ks | |]; cbn [commit_step fst snd].
  - pose proof (first_cas_keys t loc) as H.
    destruct (first_compare_exchange_strong _ _ _ _). exact H.
  - pose proof (second_cas_keys t loc (get_empty_value_sentinel vw) v) as H.
    destruct (second_compare_exchange_strong _ _ _ _) as [vs t'].
    apply keys_only_claimed_map_first. destruct ks, vs; exact H.
  - pose proof (second_cas_keys t loc (get_empty_value_sentinel vw) v) as H.
    destruct (second_compare_exchange_strong _ _ _ _) as [vs t'].
    apply keys_only_claimed_map_first. exact H.
  - apply keys_only_claimed_map_first, second_store_keys.
Qed.

Lemma insert_step_keys (st : insert_state) (t : table) :
  keys_only_claimed vw k t (snd (insert_step vw (k, v) st t)).
Proof.
  destruct st as [cur pc|]; cbn [insert_step]; [|apply keys_only_claimed_refl].
  pose proof (commit_step_keys cur pc t) as H.
  destruct (commit_step vw (k, v) cur pc t) as [[pc'|[|]] t']; exact H.
Qed.

Lemma insert_cg_step_keys (CGSize : nat) (st : insert_cg_state) (t : table) :
  keys_only_claimed vw k t (snd (insert_cg_step vw CGSize (k, v) st t)).
Proof.
  destruct st as [cur | cur src loc pc status | cur status | |]; cbn [insert_cg_step];
    try apply keys_only_claimed_refl.
  - repeat case_match; apply keys_only_claimed_refl.
  - pose proof (commit_step_keys loc pc t) as H.
    destruct (commit_step vw (k, v) loc pc t) as [[pc'|[|]] t']; exact H.
  - case_match; apply keys_only_claimed_refl.
Qed.

(** The commit protocol of a worker that runs alone. *)
Lemma commit_step_inv (t : table) (loc : nat) (pc : commit_pc) (t' : table) :
  commit_inv vw k v t loc pc t' ->
  match commit_step vw (k, v) loc pc t' with
  | (Pending pc', t'') => commit_inv vw k v t loc pc' t''
  | (Finished true, t'') => occupies_one_empty_slot vw k v t t''
  | (Finished false, t'') => t'' = t
  end.
Proof.
  destruct pc as [| [|] | |]; cbn [commit_inv commit_step fst snd].
  - intros ->. destruct (t !! loc) as [s|] eqn:Hs.
    + rewrite (first_cas_at vw k t loc s Hs). unfold bitwise_compare.
      destruct (Z.eqb_spec (first s) (empty_key_sentinel_ vw)); cbn; eauto.
    + unfold first_compare_exchange_strong. rewrite Hs. reflexivity.
  - intros (s & Hs & Hk & ->).
    assert (Hlt : loc < length t) by (eapply lookup_lt_Some; eassumption).
    rewrite (second_cas_at vw v _ loc (Slot k (second s)))
      by (apply list_lookup_insert_eq; assumption).
    unfold bitwise_compare. cbn [first second].
    destruct (Z.eqb_spec (second s) (empty_value_sentinel_ vw)) as [Hv|Hv].
    + exists loc. rewrite list_insert_insert_eq. split; [|reflexivity].
      rewrite Hs. destruct s; cbn in *; congruence.
    + cbn. eauto.
  - intros ->. destruct (t !! loc) as [s|] eqn:Hs.
    + rewrite (second_cas_at vw v t loc s Hs). unfold bitwise_compare.
      destruct (Z.eqb_spec (second s) (empty_value_sentinel_ vw)); cbn; eauto.
    + unfold second_compare_exchange_strong. rewrite Hs. reflexivity.
  - intros (s & Hs & Hk & Hv & ->).
    assert (Hlt : loc < length t) by (eapply lookup_lt_Some; eassumption).
    rewrite (second_cas_at vw v _ loc (Slot k (second s)))
      by (apply list_lookup_insert_eq; assumption).
    unfold bitwise_compare. cbn [first second].
    destruct (Z.eqb_spec (second s) (empty_value_sentinel_ vw)); [contradiction|].
    cbn. eauto.
  - intros (s & Hs & Hv & ->).
    assert (Hlt : loc < length t) by (eapply lookup_lt_Some; eassumption).
    unfold second_store, get_empty_value_sentinel. rewrite list_lookup_insert_eq by assumption.
    rewrite list_insert_insert_eq. cbn [first]. apply list_insert_id.
    rewrite Hs. destruct s; cbn in *; congruence.
Qed.

Lemma insert_step_inv (t : table) (st : insert_state) (t' : table) :
  insert_inv vw k v t st t' ->
  insert_inv vw k v t (fst (insert_step vw (k, v) st t'))
    (snd (insert_step vw (k, v) st t')).
Proof.
  destruct st as [cur pc|]; cbn [insert_step insert_inv]; [|auto].
  intros H. apply commit_step_inv in H.
  destruct (commit_step vw (k, v) cur pc t') as [[pc'|[|]] t'']; cbn; exact H.
Qed.

Lemma insert_run_inv (t : table) (fuel i : nat) (st : insert_state) (t' : table) :
  insert_inv vw k v t st t' ->
  insert_inv vw k v t (fst (insert_run vw (k, v) quiet fuel i st t'))
    (snd (insert_run vw (k, v) quiet fuel i st t')).
Proof.
  revert i st t'. induction fuel as [|fuel IH]; intros i st t' H; [exact H|].
  cbn [insert_run]. unfold quiet at 1 3.
  apply insert_step_inv in H.
  destruct (insert_step vw (k, v) st t') as [st1 t1]. apply IH. exact H.
Qed.

Lemma any_success_insert (status : list insert_result) (src : nat) :
  src < length status ->
  cg.any (map (fun s => insert_result_eqb s SUCCESS) (<[src := SUCCESS]> status)) = true.
Proof.
  revert src. induction status as [|s l IH]; intros src H; cbn in H; [lia|].
  destruct src as [|src]; cbn; [reflexivity|].
  unfold cg.any in IH. rewrite IH by lia. apply orb_true_r.
Qed.

Lemma insert_cg_step_inv (CGSize : nat) (t : table) (st : insert_cg_state) (t' : table) :
  insert_cg_inv vw k v t st t' ->
  insert_cg_inv vw k v t (fst (insert_cg_step vw CGSize (k, v) st t'))
    (snd (insert_cg_step vw CGSize (k, v) st t')).
Proof.
  destruct st as [cur | cur src loc pc status | cur status | |];
    cbn [insert_cg_step insert_cg_inv]; auto.
  - intros ->. repeat case_match; cbn; auto.
    all: split; [reflexivity|]; rewrite length_replicate;
      (split; [eapply lookup_lt_Some; eassumption | apply Forall_replicate; reflexivity]).
  - intros (H & Hsrc & Hst). apply commit_step_inv in H.
    destruct (commit_step vw (k, v) loc pc t') as [[pc'|[|]] t'']; cbn.
    + auto.
    + rewrite any_success_insert by assumption. exact H.
    + rewrite any_all_continue by assumption. exact H.
  - intros H. destruct (cg.any _); cbn; exact H.
Qed.

Lemma insert_cg_run_inv (CGSize : nat) (t : table) (fuel i : nat)
    (st : insert_cg_state) (t' : table) :
  insert_cg_inv vw k v t st t' ->
  insert_cg_inv vw k v t (fst (insert_cg_run vw CGSize (k, v) quiet fuel i st t'))
    (snd (insert_cg_run vw CGSize (k, v) quiet fuel i st t')).
Proof.
  revert i st t'. induction fuel as [|fuel IH]; intros i st t' H; [exact H|].
  cbn [insert_cg_run]. unfold quiet at 1 3.
  apply (insert_cg_step_inv CGSize) in H.
  destruct (insert_cg_step vw CGSize (k, v) st t') as [st1 t1]. apply IH. exact H.
Qed.

End Writes.

(** C9 (as amended): an insert never consults [key_equal] and never
    changes the key field of a slot that is not empty: in every atomic
    step, of the single-worker and of the cooperative insert and on any
    table, a key field either stays as it is or goes from the empty key
    sentinel to the inserted key.  An insert that runs without
    interference and returns has changed exactly one slot, from (empty
    key, empty value) to [(k, v)]; every other slot is as before, also
    when [k] was already present. *)
Theorem C9_insert_claims_only_empty_slots
    (vw : view) (CGSize : nat) (k v : Z) (hash : Z -> nat) :
  (forall key_equal key_equal' env fuel t,
     device_mutable_view.insert vw (k, v) hash key_equal env fuel t
     = device_mutable_view.insert vw (k, v) hash key_equal' env fuel t /\
     device_mutable_view.insert_cg vw CGSize (k, v) hash key_equal env fuel t
     = device_mutable_view.insert_cg vw CGSize (k, v) hash key_equal' env fuel t) /\
  (forall st t,
     keys_only_claimed vw k t (snd (device_mutable_view.insert_step vw (k, v) st t))) /\
  (forall st t,
     keys_only_claimed vw k t
       (snd (device_mutable_view.insert_cg_step vw CGSize (k, v) st t))) /\
  (forall key_equal fuel t,
     fst (device_mutable_view.insert vw (k, v) hash key_equal
            device_mutable_view.quiet fuel t) = device_mutable_view.Returned ->
     occupies_one_empty_slot vw k v t
       (snd (device_mutable_view.insert vw (k, v) hash key_equal
               device_mutable_view.quiet fuel t))) /\
  (forall key_equal fuel t,
     fst (device_mutable_view.insert_cg vw CGSize (k, v) hash key_equal
            device_mutable_view.quiet fuel t) = device_mutable_view.Returned_cg ->
     occupies_one_empty_slot vw k v t
       (snd (device_mutable_view.insert_cg vw CGSize (k, v) hash key_equal
               device_mutable_view.quiet fuel t))).
Proof.
  split; [|split; [|split; [|split]]].
  - intros. split; reflexivity.
  - intros st t. apply insert_step_keys.
  - intros st t. apply insert_cg_step_keys.
  - intros key_equal fuel t Hret. unfold device_mutable_view.insert in *.
    pose proof (insert_run_inv vw k v t fuel 0
      (device_mutable_view.Probing (initial_slot vw (fst (k, v)) hash)
         device_mutable_view.key_cas) t eq_refl) as H.
    rewrite Hret in H. exact H.
  - intros key_equal fuel t Hret. unfold device_mutable_view.insert_cg in *.
    pose proof (insert_cg_run_inv vw k v CGSize t fuel 0
      (device_mutable_view.Window
         (map (fun rank => initial_slot_cg vw CGSize rank (fst (k, v)) hash)
              (seq 0 CGSize))) t eq_refl) as H.
    rewrite Hret in H. exact H.
Qed.

Lemma C9_insert_claims_only_empty_slots_witness :
  occupies_one_empty_slot view8 1 13 table8
    (snd (device_mutable_view.insert view8 (1, 13)%Z identity_hash Z.eqb
            device_mutable_view.quiet 100 table8)) /\
  occupies_one_empty_slot view8 4 40 table8
    (snd (device_mutable_view.insert_cg view8 2 (4, 40)%Z identity_hash Z.eqb
            device_mutable_view.quiet 100 table8)).
Proof.
  split.
  - destruct (C9_insert_claims_only_empty_slots view8 2 1 13 identity_hash)
      as (_ & _ & _ & H & _).
    apply (H Z.eqb 100 table8). reflexivity.
  - destruct (C9_insert_claims_only_empty_slots view8 2 4 40 identity_hash)
      as (_ & _ & _ & _ & H).
    apply (H Z.eqb 100 table8). reflexivity.
Defined.

(** C9, the claim as stated fails: a worker does write to a slot whose
    key field is not empty.  Worker A inserts (7, 70) into the fresh
    table and has done its key CAS; slot 0 now holds the key 7 and still
    the empty value.  Worker B inserts (9, 90) on the same probe path: its
    key CAS fails, its value CAS succeeds and writes 90 into the slot of
    key 7; its third step stores the empty value back. *)
Lemma C9_value_word_of_taken_slot_written :
  snd (device_mutable_view.insert view2 (7, 70)%Z zero_hash Z.eqb
         device_mutable_view.quiet 1 fresh2) = mid_insert2 /\
  (exists s, mid_insert2 !! 0 = Some s /\ first s <> empty_key_sentinel_ view2) /\
  snd (device_mutable_view.insert view2 (9, 90)%Z zero_hash Z.eqb
         device_mutable_view.quiet 2 mid_insert2) = [Slot 7 90; Slot (-1) (-1)] /\
  snd (device_mutable_view.insert view2 (9, 90)%Z zero_hash Z.eqb
         device_mutable_view.quiet 3 mid_insert2) = mid_insert2.
Proof.
  split; [reflexivity|]. split; [|split; reflexivity].
  exists (Slot 7 (-1)). split; [reflexivity | cbn; discriminate].
Qed.

(** ** Single-worker [find] and [contains] *)

Section LinearProbe.

Import device_view.

Variable vw : view.
Variable t : table.
Variable k : Z.
Variable key_equal : Z -> Z -> bool.

Lemma fst_tbind {A B : Type} (m : traced A) (f : A -> traced B) :
  fst (tbind m f) = fst (f (fst m)).
Proof. unfold tbind. destruct m as [a c1]. cbn. destruct (f a). reflexivity. Qed.

Lemma snd_tbind {A B : Type} (m : traced A) (f : A -> traced B) :
  snd (tbind m f) = snd m ++ snd (f (fst m)).
Proof. unfold tbind. destruct m as [a c1]. cbn. destruct (f a). reflexivity. Qed.

(** The loops from any slot: [n] taken slots that do not match, then a
    slot that is empty or matches. *)
Lemma find_loop_probe (n fuel cur : nat) (s : slot) :
  n < fuel ->
  (forall j, j < n -> exists sj,
      t !! Nat.iter j (next_slot vw) cur = Some sj /\
      first sj <> empty_key_sentinel_ vw /\ key_equal (first sj) k = false) ->
  t !! Nat.iter n (next_slot vw) cur = Some s ->
  first s = empty_key_sentinel_ vw \/ key_equal (first s) k = true ->
  fst (find_loop vw t k key_equal fuel cur)
  = Ret (if bitwise_compare (first s) (empty_key_sentinel_ vw)
         then end_ vw else Nat.iter n (next_slot vw) cur) /\
  fst (contains_loop vw t k key_equal fuel cur)
  = Ret (negb (bitwise_compare (first s) (empty_key_sentinel_ vw))).
Proof.
  revert fuel cur. induction n as [|n IH]; intros fuel cur Hfuel Hskip Hs Hstop;
    (destruct fuel as [|fuel]; [lia|]); cbn [find_loop contains_loop].
  - cbn [Nat.iter nat_rect] in Hs. rewrite Hs. unfold bitwise_compare, get_empty_key_sentinel.
    destruct (Z.eqb_spec (first s) (empty_key_sentinel_ vw)) as [He|Hne]; [split; reflexivity|].
    destruct Hstop as [He|Hm]; [contradiction|].
    rewrite !fst_tbind. cbn [invoke fst]. rewrite Hm. split; reflexivity.
  - destruct (Hskip 0 ltac:(lia)) as (s0 & Hs0 & Hne0 & Hm0). cbn [Nat.iter nat_rect] in Hs0.
    rewrite Hs0. unfold bitwise_compare at 1 3, get_empty_key_sentinel.
    destruct (Z.eqb_spec (first s0) (empty_key_sentinel_ vw)) as [He|_]; [contradiction|].
    rewrite !fst_tbind. cbn [invoke fst]. rewrite Hm0.
    rewrite Nat.iter_succ_r in Hs |- *.
    apply IH; [lia | | exact Hs | exact Hstop].
    intros j Hj. specialize (Hskip (S j) ltac:(lia)).
    rewrite Nat.iter_succ_r in Hskip. exact Hskip.
Qed.

(** [key_equal] is called on keys that passed the sentinel test only. *)
Lemma find_loop_calls (fuel cur : nat) :
  Forall (guarded_call vw k) (snd (find_loop vw t k key_equal fuel cur)) /\
  Forall (guarded_call vw k) (snd (contains_loop vw t k key_equal fuel cur)).
Proof.
  revert cur. induction fuel as [|fuel IH]; intros cur; cbn [find_loop contains_loop];
    [split; constructor|].
  destruct (t !! cur) as [s|]; [|split; constructor].
  unfold bitwise_compare, get_empty_key_sentinel.
  destruct (Z.eqb_spec (first s) (empty_key_sentinel_ vw)) as [He|Hne]; [split; constructor|].
  rewrite !snd_tbind. cbn [invoke fst snd].
  destruct (IH (next_slot vw cur)) as [IH1 IH2].
  split; (constructor; [split; [exact Hne | reflexivity]|]);
    destruct (key_equal (first s) k); cbn; try constructor; assumption.
Qed.

End LinearProbe.

(** C4: the single-worker [find] and [contains] of [k] start at
    [initial_slot(k, hash)] and walk the probe path.  When the first [n]
    slots of the path are taken by keys that [key_equal] tells from [k],
    and the next slot either holds the empty key sentinel (as a bit
    pattern) or a key that [key_equal] identifies with [k], then with
    enough fuel [find] returns [end()] in the first case and that slot,
    the first match of the path, in the second; [contains] returns false
    and true. *)
Theorem C4_find_contains_walk_probe_path
    (vw : view) (t : table) (k : Z) (hash : Z -> nat)
    (key_equal : Z -> Z -> bool) (n fuel : nat) (s : slot) :
  n < fuel ->
  (forall j, j < n -> exists sj,
      t !! probe vw k hash j = Some sj /\
      first sj <> empty_key_sentinel_ vw /\ key_equal (first sj) k = false) ->
  t !! probe vw k hash n = Some s ->
  first s = empty_key_sentinel_ vw \/ key_equal (first s) k = true ->
  fst (device_view.find vw t k hash key_equal fuel)
  = Ret (if bitwise_compare (first s) (empty_key_sentinel_ vw)
         then end_ vw else probe vw k hash n) /\
  fst (device_view.contains vw t k hash key_equal fuel)
  = Ret (negb (bitwise_compare (first s) (empty_key_sentinel_ vw))).
Proof.
  intros Hfuel Hskip Hs Hstop.
  apply (find_loop_probe vw t k key_equal n fuel (initial_slot vw k hash) s); assumption.
Qed.

Lemma C4_find_contains_walk_probe_path_witness :
  (fst (device_view.find view8 table8 3 identity_hash Z.eqb 8) = Ret 4 /\
   fst (device_view.contains view8 table8 3 identity_hash Z.eqb 8) = Ret true) /\
  (fst (device_view.find view8 table8 4 identity_hash Z.eqb 8) = Ret (end_ view8) /\
   fst (device_view.contains view8 table8 4 identity_hash Z.eqb 8) = Ret false).
Proof.
  split.
  - apply (C4_find_contains_walk_probe_path view8 table8 3 identity_hash Z.eqb 1 8 (Slot 3 30)).
    + lia.
    + intros j Hj. assert (j = 0) as -> by lia.
      exists (Slot 1 11). repeat split. cbn. discriminate.
    + reflexivity.
    + right. reflexivity.
  - apply (C4_find_contains_walk_probe_path view8 table8 4 identity_hash Z.eqb 2 8
             (Slot (-1) (-1))).
    + lia.
    + intros j Hj. assert (j = 0 \/ j = 1) as [-> | ->] by lia.
      * exists (Slot 3 30). repeat split. cbn. discriminate.
      * exists (Slot 1 12). repeat split. cbn. discriminate.
    + reflexivity.
    + left. reflexivity.
Defined.


(** ** Cooperative [find] and [contains] *)

Section Windows.

Import device_view.

Variable CGSize : nat.
Variable vw : view.
Variable t : table.
Variable k : Z.
Variable key_equal : Z -> Z -> bool.

Lemma fst_lanes {A : Type} (pred : A -> traced bool) (regs : list A) :
  fst (lanes pred regs) = map (fun r => fst (pred r)) regs.
Proof.
  induction regs as [|r rest IH]; [reflexivity|].
  cbn [lanes map]. rewrite fst_tbind, fst_tbind. cbn [tret fst]. rewrite IH. reflexivity.
Qed.

Lemma snd_lanes {A : Type} (P : Z * Z -> Prop) (pred : A -> traced bool) (regs : list A) :
  (forall r, Forall P (snd (pred r))) -> Forall P (snd (lanes pred regs)).
Proof.
  intros H. induction regs as [|r rest IH]; [constructor|].
  cbn [lanes]. rewrite snd_tbind, snd_tbind. cbn [tret snd].
  rewrite app_nil_r. apply Forall_app. split; [apply H | exact IH].
Qed.

Lemma guarded_pred_matches (ek : Z) :
  fst (if bitwise_compare ek (get_empty_key_sentinel vw)
       then tret false else invoke key_equal ek k)
  = lane_matches vw k key_equal ek.
Proof.
  unfold lane_matches, get_empty_key_sentinel.
  destruct (bitwise_compare ek (empty_key_sentinel_ vw)); reflexivity.
Qed.

Lemma guarded_pred_calls (ek : Z) :
  Forall (guarded_call vw k)
    (snd (if bitwise_compare ek (get_empty_key_sentinel vw)
          then tret false else invoke key_equal ek k)).
Proof.
  unfold bitwise_compare, get_empty_key_sentinel.
  destruct (Z.eqb_spec ek (empty_key_sentinel_ vw)); cbn; constructor;
    [split; [assumption | reflexivity] | constructor].
Qed.

Lemma ballot_exists (preds : list bool) :
  Exists (fun b => b = true) preds -> (cg.ballot preds =? 0)%Z = false.
Proof.
  intros H. apply Z.eqb_neq. intros H0. apply ballot_zero in H0.
  induction H as [b l Hb | b l _ IH]; inversion H0; subst; [discriminate | auto].
Qed.

Lemma ballot_none (preds : list bool) :
  Forall (fun b => b = false) preds -> (cg.ballot preds =? 0)%Z = true.
Proof. intros H. apply Z.eqb_eq, ballot_zero, H. Qed.

(** One window of the cooperative [find] and [contains]. *)
Lemma window_step (fuel : nat) (current_slot : list nat) (existing_key : list Z) :
  load_keys t current_slot = Some existing_key ->
  let matching := map (lane_matches vw k key_equal) existing_key in
  let empty := map (fun ek => bitwise_compare ek (get_empty_key_sentinel vw)) existing_key in
  fst (find_cg_loop CGSize vw t k key_equal (S fuel) current_slot)
  = (if negb (cg.ballot matching =? 0)%Z then
       match cg.shfl current_slot (cg.ffs (cg.ballot matching) - 1) with
       | Some res_slot => Ret res_slot
       | None => Fault
       end
     else if negb (cg.ballot empty =? 0)%Z then Ret (end_ vw)
     else fst (find_cg_loop CGSize vw t k key_equal fuel
                 (map (next_slot_cg vw CGSize) current_slot))) /\
  fst (contains_cg_loop CGSize vw t k key_equal (S fuel) current_slot)
  = (if negb (cg.ballot matching =? 0)%Z then Ret true
     else if negb (cg.ballot empty =? 0)%Z then Ret false
     else fst (contains_cg_loop CGSize vw t k key_equal fuel
                 (map (next_slot_cg vw CGSize) current_slot))).
Proof.
  intros Hload matching empty. cbn [find_cg_loop contains_cg_loop]. rewrite Hload.
  rewrite !fst_tbind, fst_lanes.
  rewrite (map_ext _ (lane_matches vw k key_equal)) by apply guarded_pred_matches.
  fold matching. fold empty.
  split.
  - destruct (negb (cg.ballot matching =? 0)%Z).
    + destruct (cg.shfl current_slot _); reflexivity.
    + destruct (negb (cg.ballot empty =? 0)%Z); reflexivity.
  - destruct (negb (cg.ballot matching =? 0)%Z); [reflexivity|].
    destruct (negb (cg.ballot empty =? 0)%Z); reflexivity.
Qed.

Lemma find_cg_loop_calls (fuel : nat) (current_slot : list nat) :
  Forall (guarded_call vw k)
    (snd (find_cg_loop CGSize vw t k key_equal fuel current_slot)) /\
  Forall (guarded_call vw k)
    (snd (contains_cg_loop CGSize vw t k key_equal fuel current_slot)).
Proof.
  revert current_slot. induction fuel as [|fuel IH]; intros cur;
    cbn [find_cg_loop contains_cg_loop]; [split; constructor|].
  destruct (load_keys t cur) as [keys|]; [|split; constructor].
  rewrite !snd_tbind. destruct (IH (map (next_slot_cg vw CGSize) cur)) as [IH1 IH2].
  split; apply Forall_app; (split; [apply snd_lanes, guarded_pred_calls|]);
    repeat case_match; cbn; try constructor; assumption.
Qed.

End Windows.

(** C5: one window of the cooperative [find] and [contains], for a group
    of at most 32 lanes whose lanes loaded the keys [existing_key].
    - If a lane's slot is not empty and its key is [key_equal] to [k], the
      slot of the lowest such rank is returned ([contains]: true),
      whether or not another slot of the window is empty.
    - Otherwise, if a slot of the window is empty, the result is [end()]
      ([contains]: false).
    - Otherwise the group goes on with the next window. *)
Theorem C5_find_contains_cg_window
    (CGSize : nat) (vw : view) (t : table) (k : Z) (key_equal : Z -> Z -> bool)
    (fuel : nat) (current_slot : list nat) (existing_key : list Z) :
  length current_slot <= 32 ->
  device_view.load_keys t current_slot = Some existing_key ->
  let matching := map (lane_matches vw k key_equal) existing_key in
  let empty := map (fun ek => bitwise_compare ek (empty_key_sentinel_ vw)) existing_key in
  let next_window := map (next_slot_cg vw CGSize) current_slot in
  let find_result :=
    fst (device_view.find_cg_loop CGSize vw t k key_equal (S fuel) current_slot) in
  let contains_result :=
    fst (device_view.contains_cg_loop CGSize vw t k key_equal (S fuel) current_slot) in
  (forall r c,
     current_slot !! r = Some c ->
     nth r matching false = true ->
     (forall j, j < r -> nth j matching false = false) ->
     find_result = Ret c /\ contains_result = Ret true) /\
  (Forall (fun b => b = false) matching ->
   Exists (fun b => b = true) empty ->
   find_result = Ret (end_ vw) /\ contains_result = Ret false) /\
  (Forall (fun b => b = false) matching ->
   Forall (fun b => b = false) empty ->
   find_result
   = fst (device_view.find_cg_loop CGSize vw t k key_equal fuel next_window) /\
   contains_result
   = fst (device_view.contains_cg_loop CGSize vw t k key_equal fuel next_window)).
Proof.
  intros Hlen Hload matching empty next_window find_result contains_result.
  destruct (window_step CGSize vw t k key_equal fuel current_slot existing_key Hload)
    as [Hfind Hcontains].
  subst find_result contains_result. rewrite Hfind, Hcontains.
  unfold get_empty_key_sentinel. fold matching empty next_window.
  split; [|split].
  - intros r c Hc Hr Hlow.
    assert (Hr32 : r < 32) by (apply lookup_lt_Some in Hc; lia).
    rewrite (proj2 (Z.eqb_neq _ _) (ballot_nonzero matching r Hr)).
    cbn [negb]. rewrite (ffs_ballot matching r Hr32 Hr Hlow).
    unfold cg.shfl. rewrite Hc. split; reflexivity.
  - intros Hnone Hsome.
    rewrite (ballot_none matching Hnone), (ballot_exists empty Hsome). split; reflexivity.
  - intros Hnone Hfull.
    rewrite (ballot_none matching Hnone), (ballot_none empty Hfull). split; reflexivity.
Qed.

Lemma C5_find_contains_cg_window_witness :
  (fst (device_view.find_cg_loop 2 view4 table4_cg 4 Z.eqb 1 [0; 1]) = Ret 1 /\
   fst (device_view.contains_cg_loop 2 view4 table4_cg 4 Z.eqb 1 [0; 1]) = Ret true) /\
  (fst (device_view.find_cg_loop 2 view4 table4_cg 6 Z.eqb 1 [0; 1]) = Ret (end_ view4) /\
   fst (device_view.contains_cg_loop 2 view4 table4_cg 6 Z.eqb 1 [0; 1]) = Ret false) /\
  (fst (device_view.find_cg_loop 2 view4 table4_cg 7 Z.eqb 1 [2; 3])
   = fst (device_view.find_cg_loop 2 view4 table4_cg 7 Z.eqb 0 [0; 1]) /\
   fst (device_view.contains_cg_loop 2 view4 table4_cg 7 Z.eqb 1 [2; 3])
   = fst (device_view.contains_cg_loop 2 view4 table4_cg 7 Z.eqb 0 [0; 1])).
Proof.
  split; [|split].
  - destruct (C5_find_contains_cg_window 2 view4 table4_cg 4 Z.eqb 0 [0; 1] [-1; 4]%Z
                ltac:(cbn; lia) eq_refl) as (H & _ & _).
    apply (H 1 1 eq_refl eq_refl). intros j Hj. assert (j = 0) as -> by lia. reflexivity.
  - destruct (C5_find_contains_cg_window 2 view4 table4_cg 6 Z.eqb 0 [0; 1] [-1; 4]%Z
                ltac:(cbn; lia) eq_refl) as (_ & H & _).
    apply H.
    + repeat constructor.
    + apply Exists_cons_hd. reflexivity.
  - destruct (C5_find_contains_cg_window 2 view4 table4_cg 7 Z.eqb 0 [2; 3] [6; 4]%Z
                ltac:(cbn; lia) eq_refl) as (_ & _ & H).
    apply H; repeat constructor.
Defined.


(** ** [count] and the enumeration of matches *)

Section Count.

Import device_view.

Variable vw : view.
Variable increment : fancy_iterator -> traced (outcome fancy_iterator).

(** The counter of [count_loop], started at [c], ends at [c] plus the
    number of positions the cursor takes, in 64-bit arithmetic; the two
    loops call [key_equal] alike. *)
Lemma count_loop_matches_from (fuel : nat) (found : fancy_iterator) (c : Z) :
  (0 <= c < 2 ^ 64)%Z ->
  count_loop vw increment fuel found c
  = (match fst (matches_from vw increment fuel found) with
     | Ret l => Ret ((c + Z.of_nat (length l)) mod 2 ^ 64)%Z
     | OutOfFuel => OutOfFuel
     | Fault => Fault
     end,
     snd (matches_from vw increment fuel found)).
Proof.
  revert found c. induction fuel as [|fuel IH]; intros found c Hc; [reflexivity|].
  cbn [count_loop matches_from].
  destruct (it_slot found =? end_ vw).
  - cbn. rewrite Z.add_0_r, Z.mod_small by exact Hc. reflexivity.
  - unfold tbind at 1 2. destruct (increment found) as [[found'| |] calls]; try reflexivity.
    rewrite IH by (apply Z.mod_pos_bound; lia).
    unfold tbind. destruct (matches_from vw increment fuel found') as [[l| |] calls'];
      cbn [fst snd tret]; rewrite ?app_nil_r; try reflexivity.
    cbn [length]. rewrite Z.add_mod_idemp_l by lia.
    do 2 f_equal. f_equal. lia.
Qed.

End Count.

(** C7: on a fixed table, whenever iterating the cursor returned by
    [find_all(k)] reaches [end()] within the fuel and produces the
    sequence of matches [l] (of a length that fits [size_t]), [count(k)]
    returns with the same fuel, and returns exactly the length of [l];
    both make the same calls of [key_equal].  This holds for the
    single-worker and for the cooperative [count], whatever the cursor's
    increment operator is. *)
Theorem C7_count_is_length_of_matches
    (Key : arith_type) (CGSize : nat) (vw : view) (t : table)
    (increment : device_view.fancy_iterator -> traced (outcome device_view.fancy_iterator))
    (find_all : Z -> (Z -> nat) -> (Z -> Z -> bool) ->
                traced (outcome device_view.fancy_iterator))
    (k : Z) (hash : Z -> nat) (key_equal : Z -> Z -> bool) (fuel : nat) :
  (forall l,
     fst (device_view.matches vw increment find_all k hash key_equal fuel) = Ret l ->
     (Z.of_nat (length l) < 2 ^ 64)%Z ->
     fst (device_view.count vw increment find_all k hash key_equal fuel)
     = Ret (Z.of_nat (length l)) /\
     snd (device_view.count vw increment find_all k hash key_equal fuel)
     = snd (device_view.matches vw increment find_all k hash key_equal fuel)) /\
  (forall l,
     fst (device_view.matches_cg Key CGSize vw t increment k hash key_equal fuel) = Ret l ->
     (Z.of_nat (length l) < 2 ^ 64)%Z ->
     fst (device_view.count_cg Key CGSize vw t increment k hash key_equal fuel)
     = Ret (Z.of_nat (length l)) /\
     snd (device_view.count_cg Key CGSize vw t increment k hash key_equal fuel)
     = snd (device_view.matches_cg Key CGSize vw t increment k hash key_equal fuel)).
Proof.
  split; intros l Hl Hlen.
  - unfold device_view.count, device_view.matches in *.
    rewrite fst_tbind in Hl. rewrite fst_tbind, !snd_tbind.
    destruct (fst (find_all k hash key_equal)) as [found| |]; try discriminate.
    rewrite count_loop_matches_from by lia. cbn [fst snd]. rewrite Hl.
    rewrite Z.add_0_l, Z.mod_small by lia. split; reflexivity.
  - unfold device_view.count_cg, device_view.matches_cg in *.
    rewrite fst_tbind in Hl. rewrite fst_tbind, !snd_tbind.
    destruct (fst (device_view.find_all_cg Key CGSize vw t k hash key_equal fuel))
      as [found| |]; try discriminate.
    rewrite count_loop_matches_from by lia. cbn [fst snd]. rewrite Hl.
    rewrite Z.add_0_l, Z.mod_small by lia. split; reflexivity.
Qed.

Lemma C7_count_is_length_of_matches_witness :
  fst (device_view.count view8 (device_view.operator_increment table8 Z.eqb 9)
         (device_view.find_all view8 table8 9) 1 identity_hash Z.eqb 9) = Ret 3%Z /\
  fst (device_view.count_cg int32_t 2 view4 table4_cg
         (device_view.operator_increment table4_cg Z.eqb 5) 4 identity_hash Z.eqb 5)
  = Ret 2%Z.
Proof.
  destruct (C7_count_is_length_of_matches int32_t 2 view8 table8
              (device_view.operator_increment table8 Z.eqb 9)
              (device_view.find_all view8 table8 9) 1 identity_hash Z.eqb 9) as [H _].
  destruct (C7_count_is_length_of_matches int32_t 2 view4 table4_cg
              (device_view.operator_increment table4_cg Z.eqb 5)
              (device_view.find_all view4 table4_cg 5) 4 identity_hash Z.eqb 5) as [_ H'].
  split.
  - apply (H [device_view.FancyIterator 1 1 view8; device_view.FancyIterator 3 1 view8;
              device_view.FancyIterator 5 1 view8]); [reflexivity | cbn; lia].
  - apply (H' [device_view.FancyIterator 1 4 view4; device_view.FancyIterator 3 4 view4]);
      [reflexivity | cbn; lia].
Defined.

(** ** The emptiness test of the cooperative [find_all] *)

Section FindAll.

Import device_view.

(** For an integer key type [operator==] is the bitwise comparison, and
    the cooperative [find_all] guards [key_equal] as [find] does. *)
Lemma operator_eq_int32 (a b : Z) : operator_eq int32_t a b = bitwise_compare a b.
Proof. reflexivity. Qed.

Lemma find_all_cg_loop_calls_int32 (CGSize : nat) (vw : view) (t : table) (k : Z)
    (key_equal : Z -> Z -> bool) (fuel : nat) (current_slot : list nat) :
  Forall (guarded_call vw k)
    (snd (find_all_cg_loop int32_t CGSize vw t k key_equal fuel current_slot)).
Proof.
  revert current_slot. induction fuel as [|fuel IH]; intros cur;
    cbn [find_all_cg_loop]; [constructor|].
  destruct (load_keys t cur) as [keys|]; [|constructor].
  rewrite snd_tbind. apply Forall_app. split.
  - apply snd_lanes. intros ek. rewrite operator_eq_int32. apply guarded_pred_calls.
  - repeat case_match; cbn; try constructor. apply IH.
Qed.

(** With the NaN sentinel no window of the fresh table is found empty. *)
Lemma find_all_cg_nan_window (key_equal : Z -> Z -> bool) (fuel : nat)
    (current_slot : list nat) :
  key_equal quiet_nan one_f = false ->
  current_slot = [0; 1] \/ current_slot = [2; 3] ->
  fst (find_all_cg_loop float32 2 view4_nan fresh4_nan one_f key_equal fuel current_slot)
  = OutOfFuel.
Proof.
  intros Hne. revert current_slot.
  induction fuel as [|fuel IH]; intros cur Hcur; [reflexivity|].
  assert (Hload : load_keys fresh4_nan cur = Some [quiet_nan; quiet_nan])
    by (destruct Hcur as [-> | ->]; reflexivity).
  cbn [find_all_cg_loop]. rewrite Hload, fst_tbind, fst_lanes.
  cbn [map]. change (operator_eq float32 quiet_nan (get_empty_key_sentinel view4_nan))
    with false.
  cbn [invoke fst cg.ballot]. rewrite Hne. cbn [Z.b2z negb].
  change (negb (Z.lor 0 (Z.shiftl (Z.lor 0 (Z.shiftl 0 1)) 1) =? 0)%Z) with false.
  cbv iota. apply IH.
  destruct Hcur as [-> | ->]; [right | left]; reflexivity.
Qed.

End FindAll.

(** C8, evaluated on the code: with a float key type and the quiet NaN
    as empty key sentinel, the slots of the fresh table hold the bit
    pattern of the sentinel.  The bitwise comparison finds them empty, and
    [find] and [contains] (single-worker and cooperative) report "not
    found" after one probe.  The cooperative [find_all] compares with
    [operator==], under which the NaN differs from itself: it finds no
    slot empty and is still probing whatever the fuel. *)
Theorem C8_find_all_cg_tests_with_operator_eq :
  bitwise_compare quiet_nan (get_empty_key_sentinel view4_nan) = true /\
  operator_eq float32 quiet_nan (get_empty_key_sentinel view4_nan) = false /\
  fst (device_view.find view4_nan fresh4_nan one_f zero_hash (operator_eq float32) 1)
  = Ret (end_ view4_nan) /\
  fst (device_view.contains view4_nan fresh4_nan one_f zero_hash (operator_eq float32) 1)
  = Ret false /\
  fst (device_view.find_cg 2 view4_nan fresh4_nan one_f zero_hash (operator_eq float32) 1)
  = Ret (end_ view4_nan) /\
  fst (device_view.contains_cg 2 view4_nan fresh4_nan one_f zero_hash (operator_eq float32) 1)
  = Ret false /\
  forall fuel,
    fst (device_view.find_all_cg float32 2 view4_nan fresh4_nan one_f zero_hash
           (operator_eq float32) fuel)
    = OutOfFuel.
Proof.
  repeat (split; [reflexivity|]).
  intros fuel. apply find_all_cg_nan_window; [reflexivity | left; reflexivity].
Qed.

(** C6, evaluated on the code: on the same table the cooperative
    [find_all], and the cooperative [count] that starts with it, invoke
    [key_equal] with the empty key sentinel as first argument, once per
    lane, because the [operator==] test does not recognise the sentinel. *)
Theorem C6_find_all_cg_calls_key_equal_on_sentinel :
  snd (device_view.find_all_cg float32 2 view4_nan fresh4_nan one_f zero_hash
         (operator_eq float32) 1)
  = [(empty_key_sentinel_ view4_nan, one_f); (empty_key_sentinel_ view4_nan, one_f)] /\
  snd (device_view.count_cg float32 2 view4_nan fresh4_nan
         (device_view.operator_increment fresh4_nan (operator_eq float32) 1)
         one_f zero_hash (operator_eq float32) 1)
  = [(empty_key_sentinel_ view4_nan, one_f); (empty_key_sentinel_ view4_nan, one_f)] /\
  ~ Forall (guarded_call view4_nan one_f)
      (snd (device_view.find_all_cg float32 2 view4_nan fresh4_nan one_f zero_hash
              (operator_eq float32) 1)).
Proof.
  split; [reflexivity|]. split; [reflexivity|].
  intros H. inversion H as [|c l [Hc _] _]. apply Hc. reflexivity.
Qed.

(** ** Termination of the single-worker enumeration *)

Section Enumeration.

Import device_view.

Variable vw : view.
Variable t : table.
Variable k : Z.
Variable key_equal : Z -> Z -> bool.
Variable e : nat.

Hypothesis table_size : length t = capacity_ vw.
Hypothesis e_empty : exists s, t !! e = Some s /\ first s = empty_key_sentinel_ vw.

Lemma next_slot_in_range (c : nat) : next_slot vw c < capacity_ vw.
Proof.
  unfold next_slot. apply Nat.mod_upper_bound.
  destruct e_empty as (s & Hs & _). apply lookup_lt_Some in Hs. lia.
Qed.

Lemma scan_forward_stops (d fuel c : nat) :
  c < capacity_ vw -> d < fuel -> Nat.iter d (next_slot vw) c = e ->
  exists it, fst (scan_forward vw t k key_equal fuel c) = Ret it /\ before_empty vw k e d it.
Proof.
  revert fuel c. induction d as [|d IH]; intros fuel c Hc Hfuel Hreach;
    (destruct fuel as [|fuel]; [lia|]); cbn [scan_forward].
  - cbn in Hreach. subst c. destruct e_empty as (s & Hs & He). rewrite Hs.
    unfold bitwise_compare, get_empty_key_sentinel. rewrite He, Z.eqb_refl.
    eexists. split; [reflexivity|]. repeat split. left. reflexivity.
  - destruct (lookup_lt_is_Some_2 t c ltac:(lia)) as [s Hs]. rewrite Hs.
    destruct (bitwise_compare (first s) (get_empty_key_sentinel vw)).
    + eexists. split; [reflexivity|]. repeat split. left. reflexivity.
    + rewrite fst_tbind. cbn [invoke fst]. destruct (key_equal (first s) k).
      * eexists. split; [reflexivity|]. repeat split. right. split; [exact Hc|].
        exists (S d). split; [lia | exact Hreach].
      * rewrite Nat.iter_succ_r in Hreach.
        destruct (IH fuel (next_slot vw c) (next_slot_in_range c) ltac:(lia) Hreach)
          as (it & Hit & Hk & Hv & Hpos).
        exists it. split; [exact Hit|]. repeat split; try assumption.
        destruct Hpos as [Hend | (Hlt & d' & Hd' & Hr)]; [left; exact Hend|].
        right. split; [exact Hlt|]. exists d'. split; [lia | exact Hr].
Qed.

Lemma matches_from_returns (m inner fuel : nat) (found : fancy_iterator) :
  m < inner -> m < fuel -> before_empty vw k e m found ->
  exists l,
    fst (matches_from vw (operator_increment t key_equal inner) fuel found) = Ret l.
Proof.
  revert inner fuel found. induction m as [|m IH]; intros inner fuel found Hinner Hfuel
    (Hk & Hv & Hpos); (destruct fuel as [|fuel]; [lia|]); cbn [matches_from].
  - destruct Hpos as [Hend | (_ & d & Hd & _)]; [|lia].
    rewrite Hend, Nat.eqb_refl. eexists. reflexivity.
  - destruct Hpos as [Hend | (Hlt & d & Hd & Hreach)].
    + rewrite Hend, Nat.eqb_refl. eexists. reflexivity.
    + replace (it_slot found =? end_ vw) with false
        by (symmetry; apply Nat.eqb_neq; unfold end_; lia).
      destruct d as [|d]; [lia|]. rewrite Nat.iter_succ_r in Hreach.
      destruct (scan_forward_stops d inner (next_slot vw (it_slot found))
                  (next_slot_in_range _) ltac:(lia) Hreach) as (it & Hit & Hk' & Hv' & Hpos').
      rewrite fst_tbind. unfold operator_increment at 1. rewrite Hv, Hk, Hit.
      destruct (IH inner fuel it ltac:(lia) ltac:(lia)) as [l Hl].
      * repeat split; try assumption.
        destruct Hpos' as [Hend | (Hlt' & d' & Hd' & Hr)]; [left; exact Hend|].
        right. split; [exact Hlt'|]. exists d'. split; [lia | exact Hr].
      * rewrite fst_tbind, Hl. eexists. reflexivity.
Qed.

(** With the cursor of the specification, [count] returns as soon as
    the probe path of [k] reaches an empty slot: within [d] steps, given
    fuel beyond [d]. *)
Lemma count_returns (hash : Z -> nat) (d : nat) :
  probe vw k hash d = e ->
  exists l,
    fst (matches vw (operator_increment t key_equal (S d))
           (find_all vw t (S d)) k hash key_equal (S d)) = Ret l /\
    fst (count vw (operator_increment t key_equal (S d))
           (find_all vw t (S d)) k hash key_equal (S d))
    = Ret (Z.of_nat (length l) mod 2 ^ 64)%Z.
Proof.
  intros Hreach. unfold matches, count, find_all, probe in *.
  assert (Hinit : initial_slot vw k hash < capacity_ vw).
  { unfold initial_slot. apply Nat.mod_upper_bound.
    destruct e_empty as (s & Hs & _). apply lookup_lt_Some in Hs. lia. }
  destruct (scan_forward_stops d (S d) _ Hinit ltac:(lia) Hreach) as (it & Hit & Hb).
  destruct (matches_from_returns d (S d) (S d) it ltac:(lia) ltac:(lia) Hb)
    as [l Hl].
  exists l. rewrite !fst_tbind, Hit. split; [exact Hl|].
  rewrite count_loop_matches_from by lia. cbn [fst]. rewrite Hl. reflexivity.
Qed.

End Enumeration.

(** * Further properties of the device views *)

(** ** The single-worker insert that runs alone *)

Section InsertAlone.

Import device_mutable_view.

Variable vw : view.
Variables k v : Z.

Lemma insert_run_returned (fuel i : nat) (t : table) :
  insert_run vw (k, v) quiet fuel i Returned t = (Returned, t).
Proof. revert i. induction fuel as [|fuel IH]; intros i; [reflexivity | apply IH]. Qed.

Lemma insert_run_app (a b i : nat) (st : insert_state) (t : table) :
  insert_run vw (k, v) quiet (a + b) i st t
  = insert_run vw (k, v) quiet b (i + a)
      (fst (insert_run vw (k, v) quiet a i st t))
      (snd (insert_run vw (k, v) quiet a i st t)).
Proof.
  revert i st t. induction a as [|a IH]; intros i st t.
  - cbn. rewrite Nat.add_0_r. reflexivity.
  - cbn [Nat.add insert_run]. change (quiet i t) with t.
    destruct (insert_step vw (k, v) st t) as [st' t'].
    rewrite IH. replace (S i + a) with (i + S a) by lia. reflexivity.
Qed.

Lemma step_key_cas (t : table) (c : nat) (s : slot) :
  t !! c = Some s ->
  insert_step vw (k, v) (Probing c key_cas) t
  = (Probing c (value_cas (bitwise_compare (first s) (empty_key_sentinel_ vw))),
     if bitwise_compare (first s) (empty_key_sentinel_ vw)
     then <[c := Slot k (second s)]> t else t).
Proof.
  intros Hs. cbn [insert_step commit_step fst snd].
  rewrite (first_cas_at vw k t c s Hs). reflexivity.
Qed.

Lemma step_value_cas (t : table) (c : nat) (s : slot) (key_success : bool) :
  t !! c = Some s ->
  insert_step vw (k, v) (Probing c (value_cas key_success)) t
  = if bitwise_compare (second s) (empty_value_sentinel_ vw)
    then (if key_success then Returned else Probing c value_rollback,
          <[c := Slot (first s) v]> t)
    else (if key_success then Probing c value_retry
          else Probing (next_slot vw c) key_cas, t).
Proof.
  intros Hs. cbn [insert_step commit_step fst snd].
  rewrite (second_cas_at vw v t c s Hs).
  destruct key_success, (bitwise_compare (second s) (empty_value_sentinel_ vw)); reflexivity.
Qed.

Lemma step_value_rollback (t : table) (c : nat) (s : slot) :
  t !! c = Some s ->
  insert_step vw (k, v) (Probing c value_rollback) t
  = (Probing (next_slot vw c) key_cas,
     <[c := Slot (first s) (empty_value_sentinel_ vw)]> t).
Proof.
  intros Hs. cbn [insert_step commit_step fst snd].
  unfold second_store, get_empty_value_sentinel. rewrite Hs. reflexivity.
Qed.

(** A taken slot costs two atomic steps, three when its value word still
    holds the empty value (written and stored back); the table is as
    before. *)
Lemma probe_taken_slot (t : table) (c i : nat) (s : slot) :
  t !! c = Some s -> first s <> empty_key_sentinel_ vw ->
  exists m, 2 <= m <= 3 /\
    insert_run vw (k, v) quiet m i (Probing c key_cas) t
    = (Probing (next_slot vw c) key_cas, t).
Proof.
  intros Hs Hne.
  assert (Hk : bitwise_compare (first s) (empty_key_sentinel_ vw) = false)
    by (apply Z.eqb_neq; exact Hne).
  assert (Hlt : c < length t) by (eapply lookup_lt_Some; eassumption).
  destruct (bitwise_compare (second s) (empty_value_sentinel_ vw)) eqn:Hv.
  - exists 3. split; [lia|]. cbn [insert_run]. unfold quiet.
    rewrite (step_key_cas t c s Hs), Hk, (step_value_cas t c s false Hs), Hv.
    rewrite (step_value_rollback _ c (Slot (first s) v))
      by (apply list_lookup_insert_eq; exact Hlt).
    rewrite list_insert_insert_eq. cbn [first].
    rewrite list_insert_id; [reflexivity|].
    rewrite Hs. f_equal. destruct s as [f x]. cbn in *.
    apply Z.eqb_eq in Hv. congruence.
  - exists 2. split; [lia|]. cbn [insert_run]. unfold quiet.
    rewrite (step_key_cas t c s Hs), Hk, (step_value_cas t c s false Hs), Hv.
    reflexivity.
Qed.

Lemma probe_free_slot (t : table) (c i : nat) :
  t !! c = Some (Slot (empty_key_sentinel_ vw) (empty_value_sentinel_ vw)) ->
  insert_run vw (k, v) quiet 2 i (Probing c key_cas) t
  = (Returned, <[c := Slot k v]> t).
Proof.
  intros Hs. cbn [insert_run]. unfold quiet.
  assert (Hlt : c < length t) by (eapply lookup_lt_Some; eassumption).
  rewrite (step_key_cas t c _ Hs). unfold bitwise_compare. cbn [first second].
  rewrite Z.eqb_refl.
  rewrite (step_value_cas _ c (Slot k (empty_value_sentinel_ vw)) true)
    by (apply list_lookup_insert_eq; exact Hlt).
  unfold bitwise_compare. cbn [first second]. rewrite Z.eqb_refl.
  rewrite list_insert_insert_eq. reflexivity.
Qed.

Lemma insert_run_first_empty (t : table) (n fuel i c : nat) :
  (forall j, j < n -> exists sj,
      t !! Nat.iter j (next_slot vw) c = Some sj /\ first sj <> empty_key_sentinel_ vw) ->
  t !! Nat.iter n (next_slot vw) c
  = Some (Slot (empty_key_sentinel_ vw) (empty_value_sentinel_ vw)) ->
  3 * n + 2 <= fuel ->
  insert_run vw (k, v) quiet fuel i (Probing c key_cas) t
  = (Returned, <[Nat.iter n (next_slot vw) c := Slot k v]> t).
Proof.
  revert fuel i c. induction n as [|n IH]; intros fuel i c Htaken Hfree Hfuel.
  - replace fuel with (2 + (fuel - 2)) by lia.
    rewrite insert_run_app, (probe_free_slot t c i Hfree). cbn [fst snd].
    apply insert_run_returned.
  - destruct (Htaken 0 ltac:(lia)) as (s0 & Hs0 & Hne0). cbn [Nat.iter nat_rect] in Hs0.
    destruct (probe_taken_slot t c i s0 Hs0 Hne0) as (m & Hm & Hrun).
    replace fuel with (m + (fuel - m)) by lia.
    rewrite insert_run_app, Hrun. cbn [fst snd].
    rewrite Nat.iter_succ_r in Hfree |- *.
    apply IH; [|exact Hfree | lia].
    intros j Hj. specialize (Htaken (S j) ltac:(lia)).
    rewrite Nat.iter_succ_r in Htaken. exact Htaken.
Qed.

End InsertAlone.

(** X1: a single-worker insert that runs alone takes the first empty
    slot of its probe path.  When the first [n] slots of the path of [k]
    are taken and the next one is empty (empty key, empty value), the
    insert returns within [3 n + 2] atomic steps, and the table is the old
    one with [(k, v)] in exactly that slot. *)
Theorem X1_insert_takes_first_empty_slot
    (vw : view) (t : table) (k v : Z) (hash : Z -> nat)
    (key_equal : Z -> Z -> bool) (n fuel : nat) :
  (forall j, j < n -> exists sj,
      t !! probe vw k hash j = Some sj /\ first sj <> empty_key_sentinel_ vw) ->
  t !! probe vw k hash n
  = Some (Slot (empty_key_sentinel_ vw) (empty_value_sentinel_ vw)) ->
  3 * n + 2 <= fuel ->
  device_mutable_view.insert vw (k, v) hash key_equal device_mutable_view.quiet fuel t
  = (device_mutable_view.Returned, <[probe vw k hash n := Slot k v]> t).
Proof.
  intros Htaken Hfree Hfuel. unfold device_mutable_view.insert, probe in *.
  apply insert_run_first_empty; assumption.
Qed.

Lemma X1_insert_takes_first_empty_slot_witness :
  device_mutable_view.insert view8 (1, 13)%Z identity_hash Z.eqb
    device_mutable_view.quiet 17 table8
  = (device_mutable_view.Returned, <[6 := Slot 1 13]> table8).
Proof.
  apply (X1_insert_takes_first_empty_slot view8 table8 1 13 identity_hash Z.eqb 5 17).
  - intros j Hj.
    assert (j = 0 \/ j = 1 \/ j = 2 \/ j = 3 \/ j = 4) as [-> | [-> | [-> | [-> | ->]]]]
      by lia; eexists; (split; [reflexivity | cbn; discriminate]).
  - reflexivity.
  - lia.
Defined.

(** ** What the single-worker [find] and [contains] report *)

Section FindReports.

Import device_view.

Variable vw : view.
Variable t : table.
Variable k : Z.
Variable key_equal : Z -> Z -> bool.

(** Every result of [find] comes about in the way the probe describes. *)
Lemma find_loop_result (fuel cur c : nat) :
  fst (find_loop vw t k key_equal fuel cur) = Ret c ->
  exists n s,
    n < fuel /\
    (forall j, j < n -> exists sj,
        t !! Nat.iter j (next_slot vw) cur = Some sj /\
        first sj <> empty_key_sentinel_ vw /\ key_equal (first sj) k = false) /\
    t !! Nat.iter n (next_slot vw) cur = Some s /\
    ((first s = empty_key_sentinel_ vw /\ c = end_ vw) \/
     (first s <> empty_key_sentinel_ vw /\ key_equal (first s) k = true /\
      c = Nat.iter n (next_slot vw) cur)).
Proof.
  revert cur. induction fuel as [|fuel IH]; intros cur; cbn [find_loop]; [discriminate|].
  destruct (t !! cur) as [s|] eqn:Hs; [|discriminate].
  unfold bitwise_compare, get_empty_key_sentinel.
  destruct (Z.eqb_spec (first s) (empty_key_sentinel_ vw)) as [He|Hne].
  - cbn. intros [= <-]. exists 0, s. repeat split; [lia | intros j Hj; lia | exact Hs | auto].
  - rewrite fst_tbind. cbn [invoke fst]. destruct (key_equal (first s) k) eqn:Hm.
    + cbn. intros [= <-]. exists 0, s.
      repeat split; [lia | intros j Hj; lia | exact Hs | auto].
    + intros H. destruct (IH _ H) as (n & s' & Hn & Hskip & Hs' & Hres).
      exists (S n), s'. rewrite Nat.iter_succ_r.
      split; [lia|]. split; [|split; [exact Hs' | exact Hres]].
      intros [|j] Hj.
      * exists s. cbn. auto.
      * rewrite Nat.iter_succ_r. apply Hskip. lia.
Qed.

(** [contains] is [find] compared with [end()]. *)
Lemma contains_loop_find_loop (fuel cur : nat) :
  length t <= capacity_ vw ->
  contains_loop vw t k key_equal fuel cur
  = (match fst (find_loop vw t k key_equal fuel cur) with
     | Ret c => Ret (negb (c =? end_ vw))
     | OutOfFuel => OutOfFuel
     | Fault => Fault
     end,
     snd (find_loop vw t k key_equal fuel cur)).
Proof.
  intros Hlen. revert cur. induction fuel as [|fuel IH]; intros cur;
    cbn [find_loop contains_loop]; [reflexivity|].
  destruct (t !! cur) as [s|] eqn:Hs; [|reflexivity].
  unfold get_empty_key_sentinel.
  destruct (bitwise_compare (first s) (empty_key_sentinel_ vw)).
  - cbn. rewrite Nat.eqb_refl. reflexivity.
  - unfold tbind, invoke. destruct (key_equal (first s) k).
    + cbn. apply lookup_lt_Some in Hs.
      replace (cur =? end_ vw) with false
        by (symmetry; apply Nat.eqb_neq; unfold end_; lia).
      reflexivity.
    + rewrite IH. destruct (find_loop vw t k key_equal fuel (next_slot vw cur)) as [r calls].
      reflexivity.
Qed.

(** A slot that is not empty and matches is reached unless an earlier
    match stops the probe. *)
Lemma find_loop_reaches_match (n fuel cur : nat) :
  n < fuel ->
  (forall j, j < n -> exists sj,
      t !! Nat.iter j (next_slot vw) cur = Some sj /\
      first sj <> empty_key_sentinel_ vw) ->
  (exists s, t !! Nat.iter n (next_slot vw) cur = Some s /\
             first s <> empty_key_sentinel_ vw /\ key_equal (first s) k = true) ->
  fst (contains_loop vw t k key_equal fuel cur) = Ret true /\
  exists c s,
    fst (find_loop vw t k key_equal fuel cur) = Ret c /\
    t !! c = Some s /\ first s <> empty_key_sentinel_ vw /\
    key_equal (first s) k = true.
Proof.
  revert fuel cur. induction n as [|n IH]; intros fuel cur Hfuel Htaken Hmatch;
    (destruct fuel as [|fuel]; [lia|]); cbn [find_loop contains_loop].
  - destruct Hmatch as (s & Hs & Hne & Hm). cbn [Nat.iter nat_rect] in Hs. rewrite Hs.
    unfold bitwise_compare, get_empty_key_sentinel.
    destruct (Z.eqb_spec (first s) (empty_key_sentinel_ vw)); [contradiction|].
    rewrite !fst_tbind. cbn [invoke fst]. rewrite Hm.
    split; [reflexivity|]. exists cur, s. auto.
  - destruct (Htaken 0 ltac:(lia)) as (s0 & Hs0 & Hne0). cbn [Nat.iter nat_rect] in Hs0.
    rewrite Hs0. unfold bitwise_compare, get_empty_key_sentinel.
    destruct (Z.eqb_spec (first s0) (empty_key_sentinel_ vw)); [contradiction|].
    rewrite !fst_tbind. cbn [invoke fst]. destruct (key_equal (first s0) k) eqn:Hm0.
    + split; [reflexivity|]. exists cur, s0. auto.
    + apply IH; [lia | |].
      * intros j Hj. specialize (Htaken (S j) ltac:(lia)).
        rewrite Nat.iter_succ_r in Htaken. exact Htaken.
      * rewrite Nat.iter_succ_r in Hmatch. exact Hmatch.
Qed.

(** Without an empty slot and without a match the probe goes round the
    table for ever. *)
Lemma find_loop_round_and_round (fuel cur : nat) :
  length t = capacity_ vw -> cur < capacity_ vw ->
  (forall i s, t !! i = Some s ->
     first s <> empty_key_sentinel_ vw /\ key_equal (first s) k = false) ->
  fst (find_loop vw t k key_equal fuel cur) = OutOfFuel /\
  fst (contains_loop vw t k key_equal fuel cur) = OutOfFuel.
Proof.
  intros Hlen Hcur Hall. revert cur Hcur.
  induction fuel as [|fuel IH]; intros cur Hcur; cbn [find_loop contains_loop];
    [split; reflexivity|].
  destruct (lookup_lt_is_Some_2 t cur ltac:(lia)) as [s Hs]. rewrite Hs.
  destruct (Hall cur s Hs) as [Hne Hm].
  unfold bitwise_compare, get_empty_key_sentinel.
  destruct (Z.eqb_spec (first s) (empty_key_sentinel_ vw)); [contradiction|].
  rewrite !fst_tbind. cbn [invoke fst]. rewrite Hm.
  apply IH. unfold next_slot. apply Nat.mod_upper_bound. lia.
Qed.

(** Filling a slot that was empty does not change the answer for a key
    that was found: the probe of a found key never read that slot. *)
Lemma find_loop_stable (i : nat) (s x : slot) (fuel cur : nat) :
  t !! i = Some s -> first s = empty_key_sentinel_ vw ->
  fst (contains_loop vw t k key_equal fuel cur) = Ret true ->
  contains_loop vw (<[i := x]> t) k key_equal fuel cur
  = contains_loop vw t k key_equal fuel cur /\
  find_loop vw (<[i := x]> t) k key_equal fuel cur
  = find_loop vw t k key_equal fuel cur.
Proof.
  intros Hi He. revert cur. induction fuel as [|fuel IH]; intros cur;
    cbn [find_loop contains_loop]; [discriminate|].
  destruct (decide (i = cur)) as [->|Hne].
  - rewrite Hi. unfold bitwise_compare, get_empty_key_sentinel.
    rewrite He, Z.eqb_refl. discriminate.
  - rewrite list_lookup_insert_ne by exact Hne.
    destruct (t !! cur) as [s0|]; [|discriminate].
    unfold get_empty_key_sentinel.
    destruct (bitwise_compare (first s0) (empty_key_sentinel_ vw)); [discriminate|].
    rewrite fst_tbind. unfold tbind, invoke. cbn [fst].
    destruct (key_equal (first s0) k); [split; reflexivity|].
    intros H. destruct (IH _ H) as [-> ->]. split; reflexivity.
Qed.

End FindReports.

(** X2: insert, then look up.  After a single-worker insert of [(k, v)]
    that ran alone and took the first empty slot of its probe path, with
    [k] not the empty key sentinel and [key_equal k k], [contains(k)] is
    true and [find(k)] returns a slot
    that is not empty and holds a key [key_equal] to [k]; when no taken
    slot before the empty one matched [k], it is the slot just written and
    it holds [(k, v)]. *)
Theorem X2_insert_then_find
    (vw : view) (t : table) (k v : Z) (hash : Z -> nat)
    (key_equal : Z -> Z -> bool) (n fuel : nat) :
  k <> empty_key_sentinel_ vw ->
  key_equal k k = true ->
  (forall j, j < n -> exists sj,
      t !! probe vw k hash j = Some sj /\ first sj <> empty_key_sentinel_ vw) ->
  t !! probe vw k hash n
  = Some (Slot (empty_key_sentinel_ vw) (empty_value_sentinel_ vw)) ->
  3 * n + 2 <= fuel ->
  let t' := snd (device_mutable_view.insert vw (k, v) hash key_equal
                   device_mutable_view.quiet fuel t) in
  fst (device_view.contains vw t' k hash key_equal (S n)) = Ret true /\
  (exists c s,
     fst (device_view.find vw t' k hash key_equal (S n)) = Ret c /\
     t' !! c = Some s /\ first s <> empty_key_sentinel_ vw /\
     key_equal (first s) k = true) /\
  ((forall j sj, j < n -> t !! probe vw k hash j = Some sj ->
      key_equal (first sj) k = false) ->
   fst (device_view.find vw t' k hash key_equal (S n)) = Ret (probe vw k hash n) /\
   t' !! probe vw k hash n = Some (Slot k v)).
Proof.
  intros Hk Hrefl Htaken Hfree Hfuel t'.
  assert (Ht' : t' = <[probe vw k hash n := Slot k v]> t).
  { subst t'. unfold device_mutable_view.insert, probe in *. cbn [fst].
    rewrite (insert_run_first_empty vw k v t n fuel 0 _ Htaken Hfree Hfuel). reflexivity. }
  clearbody t'. subst t'.
  assert (Hlt : probe vw k hash n < length t) by (eapply lookup_lt_Some; eassumption).
  assert (Hnew : <[probe vw k hash n := Slot k v]> t !! probe vw k hash n = Some (Slot k v))
    by (apply list_lookup_insert_eq; exact Hlt).
  assert (Hold : forall j sj, j < n -> t !! probe vw k hash j = Some sj ->
            <[probe vw k hash n := Slot k v]> t !! probe vw k hash j = Some sj).
  { intros j sj Hj Hsj. rewrite list_lookup_insert_ne; [exact Hsj|].
    intros Heq. destruct (Htaken j Hj) as (sj' & Hsj' & Hne).
    rewrite <- Heq, Hfree in Hsj'. injection Hsj' as <-. apply Hne. reflexivity. }
  unfold device_view.contains, device_view.find, probe in *.
  split; [|split].
  - apply (find_loop_reaches_match vw _ k key_equal n); [lia | |].
    + intros j Hj. destruct (Htaken j Hj) as (sj & Hsj & Hne). exists sj. auto.
    + exists (Slot k v). auto.
  - apply (find_loop_reaches_match vw _ k key_equal n); [lia | |].
    + intros j Hj. destruct (Htaken j Hj) as (sj & Hsj & Hne). exists sj. auto.
    + exists (Slot k v). auto.
  - intros Hnomatch. split; [|exact Hnew].
    destruct (find_loop_probe vw (<[Nat.iter n (next_slot vw) (initial_slot vw k hash)
                                    := Slot k v]> t) k key_equal n (S n)
                (initial_slot vw k hash) (Slot k v)) as [Hfind _]; [lia | | exact Hnew | auto |].
    + intros j Hj. destruct (Htaken j Hj) as (sj & Hsj & Hne). exists sj. eauto.
    + rewrite Hfind. cbn [first]. unfold bitwise_compare.
      destruct (Z.eqb_spec k (empty_key_sentinel_ vw)); [contradiction | reflexivity].
Qed.

Lemma X2_insert_then_find_witness :
  fst (device_view.contains view8
         (snd (device_mutable_view.insert view8 (9, 90)%Z identity_hash Z.eqb
                 device_mutable_view.quiet 17 table8))
         9 identity_hash Z.eqb 6) = Ret true /\
  fst (device_view.find view8
         (snd (device_mutable_view.insert view8 (9, 90)%Z identity_hash Z.eqb
                 device_mutable_view.quiet 17 table8))
         9 identity_hash Z.eqb 6) = Ret 6 /\
  snd (device_mutable_view.insert view8 (9, 90)%Z identity_hash Z.eqb
         device_mutable_view.quiet 17 table8) !! 6 = Some (Slot 9 90).
Proof.
  assert (Htaken : forall j, j < 5 -> exists sj,
            table8 !! probe view8 9 identity_hash j = Some sj /\
            first sj <> empty_key_sentinel_ view8).
  { intros j Hj.
    assert (j = 0 \/ j = 1 \/ j = 2 \/ j = 3 \/ j = 4) as [-> | [-> | [-> | [-> | ->]]]]
      by lia; eexists; (split; [reflexivity | cbn; discriminate]). }
  destruct (X2_insert_then_find view8 table8 9 90 identity_hash Z.eqb 5 17
              ltac:(cbn; discriminate) eq_refl Htaken eq_refl ltac:(lia))
    as (Hc & _ & Hf).
  split; [exact Hc|]. apply Hf. intros j sj Hj.
  assert (j = 0 \/ j = 1 \/ j = 2 \/ j = 3 \/ j = 4) as [-> | [-> | [-> | [-> | ->]]]]
    by lia; intros [= <-]; reflexivity.
Defined.

(** X3: an insert does not hide what was found.  When a single-worker
    insert that ran alone has returned, every key for which [contains]
    was true before is still reported, and [find] returns for it the slot
    it returned before, with the same calls of [key_equal]. *)
Theorem X3_insert_keeps_found_keys
    (vw : view) (t : table) (k v : Z) (hash : Z -> nat)
    (key_equal : Z -> Z -> bool) (fuel : nat) (k' : Z) (fuel' : nat) :
  fst (device_mutable_view.insert vw (k, v) hash key_equal
         device_mutable_view.quiet fuel t) = device_mutable_view.Returned ->
  fst (device_view.contains vw t k' hash key_equal fuel') = Ret true ->
  let t' := snd (device_mutable_view.insert vw (k, v) hash key_equal
                   device_mutable_view.quiet fuel t) in
  device_view.contains vw t' k' hash key_equal fuel'
  = device_view.contains vw t k' hash key_equal fuel' /\
  device_view.find vw t' k' hash key_equal fuel'
  = device_view.find vw t k' hash key_equal fuel'.
Proof.
  intros Hret Hfound t'. subst t'. unfold device_mutable_view.insert in *.
  pose proof (insert_run_inv vw k v t fuel 0
    (device_mutable_view.Probing (initial_slot vw (fst (k, v)) hash)
       device_mutable_view.key_cas) t eq_refl) as H.
  rewrite Hret in H. destruct H as (i & Hi & ->).
  apply (find_loop_stable vw t k' key_equal i _ (Slot k v) fuel' _ Hi); [reflexivity|].
  exact Hfound.
Qed.

Lemma X3_insert_keeps_found_keys_witness :
  device_view.contains view8
    (snd (device_mutable_view.insert view8 (9, 90)%Z identity_hash Z.eqb
            device_mutable_view.quiet 17 table8))
    3 identity_hash Z.eqb 8
  = device_view.contains view8 table8 3 identity_hash Z.eqb 8 /\
  device_view.find view8
    (snd (device_mutable_view.insert view8 (9, 90)%Z identity_hash Z.eqb
            device_mutable_view.quiet 17 table8))
    3 identity_hash Z.eqb 8
  = device_view.find view8 table8 3 identity_hash Z.eqb 8.
Proof.
  apply (X3_insert_keeps_found_keys view8 table8 9 90 identity_hash Z.eqb 17 3 8);
    reflexivity.
Defined.

(** X4: what [find] returns.  Whenever [find(k)] returns, it has walked
    the probe path over taken slots that [key_equal] tells from [k] and
    stopped at the first slot that is empty, returning [end()], or that
    matches, returning that slot.  It never returns a slot that is empty
    or whose key is not [key_equal] to [k]. *)
Theorem X4_find_returns_first_match_or_end
    (vw : view) (t : table) (k : Z) (hash : Z -> nat)
    (key_equal : Z -> Z -> bool) (fuel c : nat) :
  fst (device_view.find vw t k hash key_equal fuel) = Ret c ->
  exists n s,
    n < fuel /\
    (forall j, j < n -> exists sj,
        t !! probe vw k hash j = Some sj /\
        first sj <> empty_key_sentinel_ vw /\ key_equal (first sj) k = false) /\
    t !! probe vw k hash n = Some s /\
    ((first s = empty_key_sentinel_ vw /\ c = end_ vw) \/
     (first s <> empty_key_sentinel_ vw /\ key_equal (first s) k = true /\
      c = probe vw k hash n)).
Proof. apply find_loop_result. Qed.

Lemma X4_find_returns_first_match_or_end_witness :
  exists n s,
    n < 8 /\
    (forall j, j < n -> exists sj,
        table8 !! probe view8 3 identity_hash j = Some sj /\
        first sj <> empty_key_sentinel_ view8 /\ Z.eqb (first sj) 3 = false) /\
    table8 !! probe view8 3 identity_hash n = Some s /\
    ((first s = empty_key_sentinel_ view8 /\ 4 = end_ view8) \/
     (first s <> empty_key_sentinel_ view8 /\ Z.eqb (first s) 3 = true /\
      4 = probe view8 3 identity_hash n)).
Proof.
  apply (X4_find_returns_first_match_or_end view8 table8 3 identity_hash Z.eqb 8 4).
  reflexivity.
Defined.

(** X5: [contains(k)] is [find(k) != end()].  On a table no longer than
    the capacity the two functions, which have separate loops, return
    alike, run out of fuel alike, and call [key_equal] alike. *)
Theorem X5_contains_is_find_not_end
    (vw : view) (t : table) (k : Z) (hash : Z -> nat)
    (key_equal : Z -> Z -> bool) (fuel : nat) :
  length t <= capacity_ vw ->
  device_view.contains vw t k hash key_equal fuel
  = (match fst (device_view.find vw t k hash key_equal fuel) with
     | Ret c => Ret (negb (c =? end_ vw))
     | OutOfFuel => OutOfFuel
     | Fault => Fault
     end,
     snd (device_view.find vw t k hash key_equal fuel)).
Proof. intros Hlen. apply contains_loop_find_loop. exact Hlen. Qed.

Lemma X5_contains_is_find_not_end_witness :
  device_view.contains view8 table8 2 identity_hash Z.eqb 8
  = (match fst (device_view.find view8 table8 2 identity_hash Z.eqb 8) with
     | Ret c => Ret (negb (c =? end_ view8))
     | OutOfFuel => OutOfFuel
     | Fault => Fault
     end,
     snd (device_view.find view8 table8 2 identity_hash Z.eqb 8)).
Proof.
  apply (X5_contains_is_find_not_end view8 table8 2 identity_hash Z.eqb 8).
  cbn. lia.
Defined.

(** X6: a missing key on a table without an empty slot.  When every
    slot is taken by a key that [key_equal] tells from [k], [find(k)] and
    [contains(k)] do not return: the loops have no exit but an empty slot
    or a match, and are still probing whatever the fuel. *)
Theorem X6_query_on_full_table_never_returns
    (vw : view) (t : table) (k : Z) (hash : Z -> nat)
    (key_equal : Z -> Z -> bool) (fuel : nat) :
  length t = capacity_ vw -> 0 < capacity_ vw ->
  (forall i s, t !! i = Some s ->
     first s <> empty_key_sentinel_ vw /\ key_equal (first s) k = false) ->
  fst (device_view.find vw t k hash key_equal fuel) = OutOfFuel /\
  fst (device_view.contains vw t k hash key_equal fuel) = OutOfFuel.
Proof.
  intros Hlen Hcap Hall. apply find_loop_round_and_round; try assumption.
  unfold initial_slot. apply Nat.mod_upper_bound. lia.
Qed.

Lemma X6_query_on_full_table_never_returns_witness :
  fst (device_view.find view4 full4 5 identity_hash Z.eqb 100) = OutOfFuel /\
  fst (device_view.contains view4 full4 5 identity_hash Z.eqb 100) = OutOfFuel.
Proof.
  apply (X6_query_on_full_table_never_returns view4 full4 5 identity_hash Z.eqb 100).
  - reflexivity.
  - cbn. lia.
  - intros i s Hs.
    destruct i as [|[|[|[|i]]]]; cbn in Hs; try discriminate;
      injection Hs as <-; split; cbn; (discriminate || reflexivity).
Defined.

(** ** What the cooperative [find] and [contains] report *)

Section WindowReports.

Import device_view.

(** A ballot that is not zero elects, through [__ffs], the lowest lane
    whose predicate holds, provided the group fits the 32-bit mask. *)
Lemma ballot_lowest (preds : list bool) :
  cg.ballot preds <> 0%Z ->
  exists r, r < length preds /\ nth r preds false = true /\
            forall j, j < r -> nth j preds false = false.
Proof.
  induction preds as [|b rest IH]; cbn [cg.ballot]; [congruence|]. intros H.
  destruct b.
  - exists 0. cbn. split; [lia|]. split; [reflexivity|]. intros j Hj. lia.
  - destruct IH as (r & Hr & Ht & Hlow).
    + intros H0. apply H. rewrite H0. reflexivity.
    + exists (S r). cbn [length nth]. split; [lia|]. split; [exact Ht|].
      intros [|j] Hj; [reflexivity | apply Hlow; lia].
Qed.

Lemma ffs_elects (preds : list bool) :
  length preds <= 32 -> cg.ballot preds <> 0%Z ->
  cg.ffs (cg.ballot preds) - 1 < length preds /\
  nth (cg.ffs (cg.ballot preds) - 1) preds false = true /\
  forall j, j < cg.ffs (cg.ballot preds) - 1 -> nth j preds false = false.
Proof.
  intros Hlen H. destruct (ballot_lowest preds H) as (r & Hr & Ht & Hlow).
  rewrite (ffs_ballot preds r ltac:(lia) Ht Hlow). auto.
Qed.

Variable CGSize : nat.
Variable vw : view.
Variable t : table.
Variable k : Z.
Variable key_equal : Z -> Z -> bool.

Lemma load_keys_lookup (current_slot : list nat) (existing_key : list Z) (r c : nat) :
  load_keys t current_slot = Some existing_key ->
  current_slot !! r = Some c ->
  exists s, t !! c = Some s /\ existing_key !! r = Some (first s).
Proof.
  intros Hload Hc. unfold load_keys in Hload. apply mapM_Some_1 in Hload.
  destruct (Forall2_lookup_l _ _ _ _ _ Hload Hc) as (ek & Hek & Hf).
  destruct (t !! c) as [s|]; [|discriminate]. cbn in Hf. injection Hf as <-.
  exists s. auto.
Qed.

Lemma load_keys_length (current_slot : list nat) (existing_key : list Z) :
  load_keys t current_slot = Some existing_key ->
  length existing_key = length current_slot.
Proof. intros H. symmetry. eapply length_mapM. exact H. Qed.

(** The lane that the ballot of matches elects holds a slot that is not
    empty and matches. *)
Lemma elected_lane_matches (current_slot : list nat) (existing_key : list Z) :
  length current_slot <= 32 ->
  load_keys t current_slot = Some existing_key ->
  cg.ballot (map (lane_matches vw k key_equal) existing_key) <> 0%Z ->
  exists c s,
    cg.shfl current_slot
      (cg.ffs (cg.ballot (map (lane_matches vw k key_equal) existing_key)) - 1) = Some c /\
    t !! c = Some s /\ first s <> empty_key_sentinel_ vw /\
    key_equal (first s) k = true.
Proof.
  intros Hlen Hload Hballot.
  pose proof (load_keys_length _ _ Hload) as Hl.
  destruct (ffs_elects (map (lane_matches vw k key_equal) existing_key)) as (Hr & Ht & _);
    [rewrite length_map; lia | exact Hballot |].
  set (r := cg.ffs _ - 1) in *. rewrite length_map in Hr.
  destruct (lookup_lt_is_Some_2 current_slot r ltac:(lia)) as [c Hc].
  destruct (load_keys_lookup _ _ r c Hload Hc) as (s & Hs & Hek).
  exists c, s. unfold cg.shfl. split; [exact Hc|]. split; [exact Hs|].
  rewrite nth_lookup, list_lookup_fmap, Hek in Ht. cbn in Ht.
  unfold lane_matches, bitwise_compare in Ht.
  destruct (Z.eqb_spec (first s) (empty_key_sentinel_ vw)); [discriminate|].
  cbn in Ht. auto.
Qed.

Lemma find_cg_loop_result (fuel : nat) (current_slot : list nat) (c : nat) :
  length current_slot <= 32 ->
  fst (find_cg_loop CGSize vw t k key_equal fuel current_slot) = Ret c ->
  c = end_ vw \/
  exists s, t !! c = Some s /\ first s <> empty_key_sentinel_ vw /\
            key_equal (first s) k = true.
Proof.
  revert current_slot. induction fuel as [|fuel IH]; intros cur Hlen; [discriminate|].
  destruct (load_keys t cur) as [keys|] eqn:Hload.
  - destruct (window_step CGSize vw t k key_equal fuel cur keys Hload) as [-> _].
    destruct (Z.eqb_spec (cg.ballot (map (lane_matches vw k key_equal) keys)) 0)
      as [_|Hballot]; cbn [negb].
    + destruct (negb _); [intros [= <-]; left; reflexivity|].
      apply IH. rewrite length_map. exact Hlen.
    + destruct (elected_lane_matches cur keys Hlen Hload Hballot) as (c' & s & -> & Hs).
      intros [= <-]. right. exists s. exact Hs.
  - cbn [find_cg_loop]. rewrite Hload. discriminate.
Qed.

Lemma contains_cg_loop_find_cg_loop (fuel : nat) (current_slot : list nat) :
  length current_slot <= 32 -> length t <= capacity_ vw ->
  contains_cg_loop CGSize vw t k key_equal fuel current_slot
  = (match fst (find_cg_loop CGSize vw t k key_equal fuel current_slot) with
     | Ret c => Ret (negb (c =? end_ vw))
     | OutOfFuel => OutOfFuel
     | Fault => Fault
     end,
     snd (find_cg_loop CGSize vw t k key_equal fuel current_slot)).
Proof.
  intros Hlen Hcap. revert current_slot Hlen.
  induction fuel as [|fuel IH]; intros cur Hlen; [reflexivity|].
  cbn [find_cg_loop contains_cg_loop].
  destruct (load_keys t cur) as [keys|] eqn:Hload; [|reflexivity].
  pose proof (fst_lanes (fun ek => if bitwise_compare ek (get_empty_key_sentinel vw)
                                   then tret false else invoke key_equal ek k) keys) as Hfst.
  rewrite (map_ext _ (lane_matches vw k key_equal)) in Hfst
    by apply guarded_pred_matches.
  unfold tbind. destruct (lanes _ keys) as [preds calls]. cbn [fst] in Hfst. subst preds.
  destruct (Z.eqb_spec (cg.ballot (map (lane_matches vw k key_equal) keys)) 0)
    as [_|Hballot]; cbn [negb].
  - destruct (negb _).
    + cbn. rewrite Nat.eqb_refl. reflexivity.
    + rewrite IH by (rewrite length_map; exact Hlen).
      destruct (find_cg_loop CGSize vw t k key_equal fuel _) as [r calls']. reflexivity.
  - destruct (elected_lane_matches cur keys Hlen Hload Hballot) as (c & s & -> & Hs & _).
    cbn. apply lookup_lt_Some in Hs.
    replace (c =? end_ vw) with false
      by (symmetry; apply Nat.eqb_neq; unfold end_; lia).
    reflexivity.
Qed.

(** With an integer key type the cooperative [find_all] is the
    cooperative [find], its result wrapped into a cursor. *)
Lemma find_all_cg_loop_find_cg_loop (fuel : nat) (current_slot : list nat) :
  find_all_cg_loop int32_t CGSize vw t k key_equal fuel current_slot
  = (match fst (find_cg_loop CGSize vw t k key_equal fuel current_slot) with
     | Ret c => Ret (FancyIterator c k vw)
     | OutOfFuel => OutOfFuel
     | Fault => Fault
     end,
     snd (find_cg_loop CGSize vw t k key_equal fuel current_slot)).
Proof.
  revert current_slot. induction fuel as [|fuel IH]; intros cur; [reflexivity|].
  cbn [find_all_cg_loop find_cg_loop].
  destruct (load_keys t cur) as [keys|]; [|reflexivity].
  change (operator_eq int32_t) with bitwise_compare.
  unfold tbind. destruct (lanes _ keys) as [preds calls].
  destruct (negb (cg.ballot preds =? 0)%Z).
  - destruct (cg.shfl cur _); reflexivity.
  - destruct (negb _); [reflexivity|].
    rewrite IH. destruct (find_cg_loop CGSize vw t k key_equal fuel _) as [r calls'].
    reflexivity.
Qed.

End WindowReports.

Lemma initial_slots_length (CGSize : nat) (vw : view) (k : Z) (hash : Z -> nat) :
  length (device_view.initial_slots CGSize vw k hash) = CGSize.
Proof. unfold device_view.initial_slots. rewrite length_map. apply length_seq. Qed.

(** X7: what the cooperative [find] returns.  For a group of at most 32
    lanes, whatever [find(g, k)] returns is [end()] or a slot of the table
    that is not empty and whose key is [key_equal] to [k]: the slot handed
    round by the shuffle is the one of a lane that voted for a match. *)
Theorem X7_find_cg_returns_match_or_end
    (CGSize : nat) (vw : view) (t : table) (k : Z) (hash : Z -> nat)
    (key_equal : Z -> Z -> bool) (fuel c : nat) :
  CGSize <= 32 ->
  fst (device_view.find_cg CGSize vw t k hash key_equal fuel) = Ret c ->
  c = end_ vw \/
  exists s, t !! c = Some s /\ first s <> empty_key_sentinel_ vw /\
            key_equal (first s) k = true.
Proof.
  intros Hsize. apply find_cg_loop_result. rewrite initial_slots_length. exact Hsize.
Qed.

Lemma X7_find_cg_returns_match_or_end_witness :
  1 = end_ view4 \/
  exists s, table4_cg !! 1 = Some s /\ first s <> empty_key_sentinel_ view4 /\
            Z.eqb (first s) 4 = true.
Proof.
  apply (X7_find_cg_returns_match_or_end 2 view4 table4_cg 4 identity_hash Z.eqb 1 1).
  - lia.
  - reflexivity.
Defined.

(** X8: [contains(g, k)] is [find(g, k) != end()].  For a group of at
    most 32 lanes on a table no longer than the capacity, the two
    cooperative functions return alike, run out of fuel or fault alike,
    and call [key_equal] alike. *)
Theorem X8_contains_cg_is_find_cg_not_end
    (CGSize : nat) (vw : view) (t : table) (k : Z) (hash : Z -> nat)
    (key_equal : Z -> Z -> bool) (fuel : nat) :
  CGSize <= 32 -> length t <= capacity_ vw ->
  device_view.contains_cg CGSize vw t k hash key_equal fuel
  = (match fst (device_view.find_cg CGSize vw t k hash key_equal fuel) with
     | Ret c => Ret (negb (c =? end_ vw))
     | OutOfFuel => OutOfFuel
     | Fault => Fault
     end,
     snd (device_view.find_cg CGSize vw t k hash key_equal fuel)).
Proof.
  intros Hsize Hlen. apply contains_cg_loop_find_cg_loop; [|exact Hlen].
  rewrite initial_slots_length. exact Hsize.
Qed.

Lemma X8_contains_cg_is_find_cg_not_end_witness :
  device_view.contains_cg 2 view4 table4_cg 6 identity_hash Z.eqb 4
  = (match fst (device_view.find_cg 2 view4 table4_cg 6 identity_hash Z.eqb 4) with
     | Ret c => Ret (negb (c =? end_ view4))
     | OutOfFuel => OutOfFuel
     | Fault => Fault
     end,
     snd (device_view.find_cg 2 view4 table4_cg 6 identity_hash Z.eqb 4)).
Proof.
  apply (X8_contains_cg_is_find_cg_not_end 2 view4 table4_cg 6 identity_hash Z.eqb 4).
  - lia.
  - cbn. lia.
Defined.

(** X9: with an integer key type, [find_all(g, k)] returns the cursor
    [{slot, k, view}] at exactly the slot [find(g, k)] returns ([end()]
    included), after the same calls of [key_equal]; the two functions,
    which test emptiness with different operators, agree on every table. *)
Theorem X9_find_all_cg_is_find_cg_for_integer_keys
    (CGSize : nat) (vw : view) (t : table) (k : Z) (hash : Z -> nat)
    (key_equal : Z -> Z -> bool) (fuel : nat) :
  device_view.find_all_cg int32_t CGSize vw t k hash key_equal fuel
  = (match fst (device_view.find_cg CGSize vw t k hash key_equal fuel) with
     | Ret c => Ret (device_view.FancyIterator c k vw)
     | OutOfFuel => OutOfFuel
     | Fault => Fault
     end,
     snd (device_view.find_cg CGSize vw t k hash key_equal fuel)).
Proof. apply find_all_cg_loop_find_cg_loop. Qed.

(** X10: the count of an absent key.  With an integer key type, when
    [contains(g, k)] is false, [count(g, k)] returns 0 without advancing
    the cursor, whatever the cursor's increment operator is; it calls
    [key_equal] as [contains] did. *)
Theorem X10_count_cg_of_absent_key_is_zero
    (CGSize : nat) (vw : view) (t : table)
    (increment : device_view.fancy_iterator -> traced (outcome device_view.fancy_iterator))
    (k : Z) (hash : Z -> nat) (key_equal : Z -> Z -> bool) (fuel : nat) :
  CGSize <= 32 -> length t <= capacity_ vw ->
  fst (device_view.contains_cg CGSize vw t k hash key_equal fuel) = Ret false ->
  device_view.count_cg int32_t CGSize vw t increment k hash key_equal fuel
  = (Ret 0%Z, snd (device_view.contains_cg CGSize vw t k hash key_equal fuel)).
Proof.
  intros Hsize Hlen Habsent.
  destruct fuel as [|fuel]; [discriminate|].
  unfold device_view.contains_cg in *.
  rewrite (contains_cg_loop_find_cg_loop CGSize vw t k key_equal (S fuel)
             (device_view.initial_slots CGSize vw k hash)
             ltac:(rewrite initial_slots_length; exact Hsize) Hlen) in Habsent |- *.
  cbn [fst snd] in *. unfold device_view.count_cg, device_view.find_all_cg.
  rewrite find_all_cg_loop_find_cg_loop.
  destruct (device_view.find_cg_loop CGSize vw t k key_equal (S fuel) _)
    as [[c| |] calls]; cbn [fst snd] in *; try discriminate.
  injection Habsent as Hc. apply negb_false_iff, Nat.eqb_eq in Hc. subst c.
  cbn. rewrite Nat.eqb_refl. cbn. rewrite app_nil_r. reflexivity.
Qed.

Lemma X10_count_cg_of_absent_key_is_zero_witness :
  device_view.count_cg int32_t 2 view4 table4_cg
    (device_view.operator_increment table4_cg Z.eqb 4) 6 identity_hash Z.eqb 4
  = (Ret 0%Z, snd (device_view.contains_cg 2 view4 table4_cg 6 identity_hash Z.eqb 4)).
Proof.
  apply (X10_count_cg_of_absent_key_is_zero 2 view4 table4_cg
           (device_view.operator_increment table4_cg Z.eqb 4) 6 identity_hash Z.eqb 4).
  - lia.
  - cbn. lia.
  - reflexivity.
Defined.

(** ** The cooperative insert that runs alone *)

Section InsertCgAlone.

Import device_mutable_view.

Variable vw : view.
Variable CGSize : nat.
Variables k v : Z.

Lemma map_first_lookup (t t' : table) (i : nat) (s : slot) :
  map first t' = map first t -> t !! i = Some s ->
  exists s', t' !! i = Some s' /\ first s' = first s.
Proof.
  intros Heq Hs.
  assert (H : (first <$> t') !! i = Some (first s)).
  { change (first <$> t') with (map first t'). rewrite Heq.
    change (map first t) with (first <$> t). rewrite list_lookup_fmap, Hs. reflexivity. }
  rewrite list_lookup_fmap in H. destruct (t' !! i) as [s'|]; [|discriminate].
  exists s'. split; [reflexivity|]. cbn in H. congruence.
Qed.

Lemma load_window_lookup (t : table) (current_slot : list nat) (arr : list (slot * slot))
    (r c : nat) (a : slot * slot) :
  mapM (load_window t) current_slot = Some arr ->
  current_slot !! r = Some c -> arr !! r = Some a ->
  t !! c = Some (fst a) /\ t !! (c + 1) = Some (snd a).
Proof.
  intros Hload Hc Ha. apply mapM_Some_1 in Hload.
  destruct (Forall2_lookup_l _ _ _ _ _ Hload Hc) as (a' & Ha' & Hl).
  rewrite Ha in Ha'. injection Ha' as <-. unfold load_window in Hl.
  destruct (t !! c), (t !! (c + 1)); try discriminate.
  injection Hl as <-. split; reflexivity.
Qed.

(** A lane that has not won the key of its slot does not touch a key. *)
Lemma commit_step_lost (t : table) (loc : nat) (pc : commit_pc) :
  (forall s, t !! loc = Some s -> first s <> empty_key_sentinel_ vw) ->
  key_lost pc ->
  map first (snd (commit_step vw (k, v) loc pc t)) = map first t /\
  (fst (commit_step vw (k, v) loc pc t) = Pending (value_cas false) \/
   fst (commit_step vw (k, v) loc pc t) = Pending value_rollback \/
   fst (commit_step vw (k, v) loc pc t) = Finished false).
Proof.
  intros Hkey [-> | [-> | ->]]; cbn [commit_step fst snd].
  - assert (Hcas : first_compare_exchange_strong t loc (get_empty_key_sentinel vw) k
                   = (false, t)).
    { unfold first_compare_exchange_strong, get_empty_key_sentinel.
      destruct (t !! loc) as [s|] eqn:Hs; [|reflexivity].
      destruct (Z.eqb_spec (first s) (empty_key_sentinel_ vw)) as [He|]; [|reflexivity].
      destruct (Hkey s eq_refl He). }
    rewrite Hcas. cbn. auto.
  - pose proof (second_cas_keys t loc (get_empty_value_sentinel vw) v) as H.
    destruct (second_compare_exchange_strong t loc _ _) as [[|] t']; cbn in *; auto.
  - cbn. split; [apply second_store_keys | auto].
Qed.

Section SentinelsDiffer.

Hypothesis sentinels_differ : empty_key_sentinel_ vw <> empty_value_sentinel_ vw.

Variable t0 : table.

Lemma insert_cg_step_never_wins (st : insert_cg_state) (t : table) :
  never_won_inv vw t0 st t ->
  never_won_inv vw t0 (fst (insert_cg_step vw CGSize (k, v) st t))
    (snd (insert_cg_step vw CGSize (k, v) st t)).
Proof.
  intros (Hkeys & Hnc & Hst).
  destruct st as [cur | cur src loc pc status | cur status | |];
    cbn [insert_cg_step]; try contradiction.
  - destruct (mapM (load_window t) cur) as [arr|] eqn:Hload;
      [|repeat split; assumption].
    destruct (Z.eqb_spec (cg.ballot (map (fun a => first_slot_is_empty vw a
                                                   || second_slot_is_empty vw a) arr)) 0)
      as [_|Hballot].
    + repeat split; try assumption. cbn. rewrite length_map. exact Hst.
    + destruct (ffs_elects _ ltac:(rewrite length_map, <- (length_mapM _ _ _ Hload);
                                   exact Hst) Hballot) as (Hr & Ht & _).
      set (src := cg.ffs _ - 1) in *.
      destruct (cur !! src) as [c|] eqn:Hc; [|repeat split; assumption].
      destruct (arr !! src) as [a|] eqn:Ha; [|repeat split; assumption].
      cbn [fst snd]. split; [exact Hkeys|]. split.
      * split; [unfold key_lost; auto | apply Forall_replicate; reflexivity].
      * split; [exact Hst|].
        destruct (load_window_lookup t cur arr src c a Hload Hc Ha) as [H0 H1].
        rewrite nth_lookup, list_lookup_fmap, Ha in Ht. cbn in Ht.
        intros s Hs He.
        unfold first_slot_is_empty, second_slot_is_empty, bitwise_compare,
          get_empty_value_sentinel in *.
        destruct (Z.eqb_spec (first (fst a)) (empty_value_sentinel_ vw)) as [Hf|Hf].
        -- rewrite Nat.add_0_r in Hs.
           destruct (map_first_lookup t0 t c s Hkeys Hs) as (s' & Hs' & Hfs).
           rewrite H0 in Hs'. injection Hs' as <-. congruence.
        -- cbn in Ht. apply Z.eqb_eq in Ht.
           destruct (map_first_lookup t0 t (c + 1) s Hkeys Hs)
             as (s' & Hs' & Hfs).
           rewrite H1 in Hs'. injection Hs' as <-. congruence.
  - destruct Hnc as [Hpc Hstat]. destruct Hst as [Hlen Hloc].
    destruct (commit_step_lost t loc pc) as [Hk' Hr]; [|exact Hpc|].
    + intros s Hs.
      destruct (map_first_lookup t t0 loc s (eq_sym Hkeys) Hs) as (s0 & Hs0 & Hf).
      rewrite <- Hf. apply (Hloc s0 Hs0).
    + destruct (commit_step vw (k, v) loc pc t) as [r t']. cbn [fst snd] in *.
      destruct Hr as [-> | [-> | ->]]; cbn [fst snd];
        (split; [congruence|]); (split; [cbn; unfold key_lost; auto|]); auto.
  - rewrite (any_all_continue status Hnc). cbn. repeat split; assumption.
  - repeat split; assumption.
Qed.

Lemma insert_cg_run_never_wins (fuel i : nat) (st : insert_cg_state) (t : table) :
  never_won_inv vw t0 st t ->
  fst (insert_cg_run vw CGSize (k, v) quiet fuel i st t) <> Returned_cg.
Proof.
  revert i st t. induction fuel as [|fuel IH]; intros i st t Hinv.
  - cbn. destruct Hinv as (_ & Hnc & _). intros ->. exact Hnc.
  - cbn [insert_cg_run]. change (quiet i t) with t.
    apply insert_cg_step_never_wins in Hinv.
    destruct (insert_cg_step vw CGSize (k, v) st t) as [st' t']. apply IH. exact Hinv.
Qed.

End SentinelsDiffer.

Lemma insert_cg_run_returned (fuel i : nat) (t : table) :
  insert_cg_run vw CGSize (k, v) quiet fuel i Returned_cg t = (Returned_cg, t).
Proof. revert i. induction fuel as [|fuel IH]; intros i; [reflexivity | apply IH]. Qed.

End InsertCgAlone.

(** X11: when the two sentinels differ, a cooperative insert that runs
    alone never returns, on any table and for any pair.  The lanes look
    for a key field that holds the empty VALUE sentinel, the elected lane
    then tries to swap the empty KEY sentinel out of that field, the swap
    fails, and the group tries the same window again or walks on. *)
Theorem X11_insert_cg_never_returns_when_sentinels_differ
    (vw : view) (CGSize : nat) (k v : Z) (hash : Z -> nat)
    (key_equal : Z -> Z -> bool) (fuel : nat) (t : table) :
  empty_key_sentinel_ vw <> empty_value_sentinel_ vw ->
  CGSize <= 32 ->
  fst (device_mutable_view.insert_cg vw CGSize (k, v) hash key_equal
         device_mutable_view.quiet fuel t)
  <> device_mutable_view.Returned_cg.
Proof.
  intros Hdiff Hsize. unfold device_mutable_view.insert_cg.
  apply (insert_cg_run_never_wins vw CGSize k v Hdiff t).
  split; [reflexivity|]. split; [exact I|].
  cbn. rewrite length_map, length_seq. exact Hsize.
Qed.

Lemma X11_insert_cg_never_returns_when_sentinels_differ_witness :
  fst (device_mutable_view.insert_cg view8_distinct 2 (4, 40)%Z identity_hash Z.eqb
         device_mutable_view.quiet 50 (<[0 := Slot 0 7]> fresh8_distinct))
  <> device_mutable_view.Returned_cg.
Proof.
  apply (X11_insert_cg_never_returns_when_sentinels_differ view8_distinct 2 4 40
           identity_hash Z.eqb 50 (<[0 := Slot 0 7]> fresh8_distinct)).
  - cbn. discriminate.
  - lia.
Defined.

(** X12: the tie-break of the cooperative insert.  In a window in which
    some lane sees an empty slot, the lane of lowest rank that does is
    elected and works on the first slot of its pair that it saw empty.
    When the sentinels are equal and the value word of that slot is empty
    too, the group, running alone, returns after four steps (load and
    ballot, key CAS, value CAS, vote) and [(k, v)] is in that slot. *)
Theorem X12_insert_cg_lowest_lane_takes_its_first_empty_slot
    (vw : view) (CGSize : nat) (k v : Z) (t : table)
    (current_slot : list nat) (arr : list (slot * slot))
    (r c : nat) (a : slot * slot) (fuel i : nat) :
  empty_key_sentinel_ vw = empty_value_sentinel_ vw ->
  length current_slot <= 32 ->
  mapM (device_mutable_view.load_window t) current_slot = Some arr ->
  current_slot !! r = Some c -> arr !! r = Some a ->
  device_mutable_view.first_slot_is_empty vw a
  || device_mutable_view.second_slot_is_empty vw a = true ->
  (forall j a', j < r -> arr !! j = Some a' ->
     device_mutable_view.first_slot_is_empty vw a'
     || device_mutable_view.second_slot_is_empty vw a' = false) ->
  let loc := c + (if device_mutable_view.first_slot_is_empty vw a then 0 else 1) in
  (forall s, t !! loc = Some s -> second s = empty_value_sentinel_ vw) ->
  4 <= fuel ->
  device_mutable_view.insert_cg_run vw CGSize (k, v) device_mutable_view.quiet fuel i
    (device_mutable_view.Window current_slot) t
  = (device_mutable_view.Returned_cg, <[loc := Slot k v]> t).
Proof.
  intros Hsent Hlen Hload Hc Ha Hsees Hlow loc Hvalue Hfuel.
  set (sees := map (fun a => device_mutable_view.first_slot_is_empty vw a
                             || device_mutable_view.second_slot_is_empty vw a) arr).
  assert (Hr : nth r sees false = true).
  { unfold sees. rewrite nth_lookup, list_lookup_fmap, Ha. exact Hsees. }
  assert (Hlower : forall j, j < r -> nth j sees false = false).
  { intros j Hj. unfold sees. rewrite nth_lookup, list_lookup_fmap.
    destruct (arr !! j) as [a'|] eqn:Ha'; [|reflexivity]. cbn. eauto. }
  assert (Hr32 : r < 32) by (apply lookup_lt_Some in Hc; lia).
  destruct (load_window_lookup t current_slot arr r c a Hload Hc Ha) as [H0 H1].
  assert (Hloc : exists s, t !! loc = Some s /\ first s = empty_key_sentinel_ vw).
  { subst loc. unfold device_mutable_view.first_slot_is_empty,
      device_mutable_view.second_slot_is_empty, bitwise_compare,
      get_empty_value_sentinel in *.
    destruct (Z.eqb_spec (first (fst a)) (empty_value_sentinel_ vw)) as [Hf|Hf].
    - rewrite Nat.add_0_r. exists (fst a). split; [exact H0 | congruence].
    - cbn in Hsees. apply Z.eqb_eq in Hsees. exists (snd a). split; [exact H1 | congruence]. }
  destruct Hloc as (s & Hs & Hkey). pose proof (Hvalue s Hs) as Hval.
  assert (Hlt : loc < length t) by (eapply lookup_lt_Some; eassumption).
  destruct fuel as [|[|[|[|fuel]]]]; try lia.
  cbn [device_mutable_view.insert_cg_run]. unfold device_mutable_view.quiet at 1.
  cbn [device_mutable_view.insert_cg_step]. rewrite Hload. fold sees.
  rewrite (proj2 (Z.eqb_neq _ _) (ballot_nonzero sees r Hr)).
  rewrite (ffs_ballot sees r Hr32 Hr Hlower), Hc, Ha. fold loc.
  unfold device_mutable_view.quiet at 1.
  cbn [device_mutable_view.insert_cg_step device_mutable_view.commit_step fst snd].
  rewrite (first_cas_at vw k t loc s Hs). unfold bitwise_compare at 1 2.
  rewrite Hkey, Z.eqb_refl.
  unfold device_mutable_view.quiet at 1.
  cbn [device_mutable_view.insert_cg_step device_mutable_view.commit_step fst snd].
  rewrite (second_cas_at vw v _ loc (Slot k (second s)))
    by (apply list_lookup_insert_eq; exact Hlt).
  unfold bitwise_compare. cbn [first second]. rewrite Hval, Z.eqb_refl.
  rewrite list_insert_insert_eq.
  unfold device_mutable_view.quiet at 1. cbn [device_mutable_view.insert_cg_step].
  rewrite any_success_insert
    by (rewrite length_replicate; eapply lookup_lt_Some; eassumption).
  apply insert_cg_run_returned.
Qed.

Lemma X12_insert_cg_lowest_lane_takes_its_first_empty_slot_witness :
  device_mutable_view.insert_cg_run view4 2 (8, 80)%Z device_mutable_view.quiet 4 0
    (device_mutable_view.Window [0; 1]) [Slot 4 40; Slot 6 60; Slot (-1) (-1); Slot 5 50]
  = (device_mutable_view.Returned_cg,
     <[2 := Slot 8 80]> [Slot 4 40; Slot 6 60; Slot (-1) (-1); Slot 5 50]).
Proof.
  apply (X12_insert_cg_lowest_lane_takes_its_first_empty_slot view4 2 8 80
           [Slot 4 40; Slot 6 60; Slot (-1) (-1); Slot 5 50] [0; 1]
           [(Slot 4 40, Slot 6 60); (Slot 6 60, Slot (-1) (-1))]
           1 1 (Slot 6 60, Slot (-1) (-1)) 4 0).
  - reflexivity.
  - cbn. lia.
  - reflexivity.
  - reflexivity.
  - reflexivity.
  - reflexivity.
  - intros j a' Hj. assert (j = 0) as -> by lia. intros [= <-]. reflexivity.
  - intros s. cbn. intros [= <-]. reflexivity.
  - lia.
Defined.

(** ** Two inserts that race *)

Section Race.

Import device_mutable_view race.

Variable vw : view.
Variables ka va kb vb : Z.
Variable t0 : table.

Hypothesis t0_settled : settled vw t0.
Hypothesis key_a : ka <> empty_key_sentinel_ vw.
Hypothesis key_b : kb <> empty_key_sentinel_ vw.
Hypothesis value_a : va <> empty_value_sentinel_ vw.
Hypothesis value_b : vb <> empty_value_sentinel_ vw.

Lemma compatible_sym (ha hb : hold) : compatible ha hb -> compatible hb ha.
Proof. destruct ha, hb; cbn; auto. Qed.

Lemma seen_sym (ha hb : hold) (i : nat) (s0 : slot) :
  compatible ha hb ->
  seen (kb, vb) (ka, va) hb ha i s0 = seen (ka, va) (kb, vb) ha hb i s0.
Proof.
  intros H. unfold seen.
  destruct ha as [|a|a|a], hb as [|b|b|b]; cbn in *; try contradiction; try reflexivity;
    destruct (Nat.eqb_spec a i), (Nat.eqb_spec b i); try reflexivity; subst; congruence.
Qed.

Lemma seen_elsewhere (c i : nat) (ha ha' hb : hold) (s : slot) :
  about c ha -> about c ha' -> i <> c ->
  seen (ka, va) (kb, vb) ha' hb i s = seen (ka, va) (kb, vb) ha hb i s.
Proof.
  intros H H' Hne. unfold seen.
  assert (Hk : forall h, about c h -> has_key h i = false /\ has_value h i = false).
  { intros h [-> | [-> | [-> | ->]]]; cbn; split; try reflexivity;
      apply Nat.eqb_neq; congruence. }
  destruct (Hk ha H) as [-> ->]. destruct (Hk ha' H') as [-> ->]. reflexivity.
Qed.

Lemma table_update (t : table) (ha ha' hb : hold) (c : nat) (s0 x : slot) :
  length t = length t0 ->
  (forall i s, t0 !! i = Some s -> t !! i = Some (seen (ka, va) (kb, vb) ha hb i s)) ->
  t0 !! c = Some s0 -> about c ha -> about c ha' ->
  x = seen (ka, va) (kb, vb) ha' hb c s0 ->
  forall i s, t0 !! i = Some s ->
    <[c := x]> t !! i = Some (seen (ka, va) (kb, vb) ha' hb i s).
Proof.
  intros Hlen Htab Hc H H' -> i s Hs. destruct (decide (i = c)) as [->|Hne].
  - rewrite list_lookup_insert_eq by (rewrite Hlen; eapply lookup_lt_Some; eassumption).
    congruence.
  - rewrite list_lookup_insert_ne by congruence.
    rewrite (seen_elsewhere c i ha ha' hb s H H' Hne). apply Htab. exact Hs.
Qed.

Lemma lost_key_update (st : insert_state) (t : table) (c : nat) (x : slot) :
  lost_key vw st t -> first x <> empty_key_sentinel_ vw ->
  lost_key vw st (<[c := x]> t).
Proof.
  intros Hl Hx. destruct st as [cb [|[|]| |]|]; cbn in *; try exact I.
  intros s Hs. destruct (decide (cb = c)) as [->|Hne].
  - destruct (decide (c < length t)) as [Hlt|Hge].
    + rewrite list_lookup_insert_eq in Hs by exact Hlt. congruence.
    + rewrite list_insert_ge in Hs by lia. eauto.
  - rewrite list_lookup_insert_ne in Hs by congruence. eauto.
Qed.

Lemma step_a_inv (a b : insert_state) (t : table) :
  inv vw (ka, va) (kb, vb) t0 (Config a b t) ->
  inv vw (ka, va) (kb, vb) t0
    (Config (fst (insert_step vw (ka, va) a t)) b (snd (insert_step vw (ka, va) a t))).
Proof.
  intros (ha & hb & Ha & Hb & Hcomp & Hfa & Hfb & Hlen & Htab & Hla & Hlb).
  cbn [worker_a worker_b slots] in *.
  destruct a as [c pc|]; [|exists ha, hb; cbn; repeat split; assumption].
  destruct (t0 !! c) as [s0|] eqn:Hs0.
  2:{ (* the worker is outside the array *)
    assert (Hnone : t !! c = None).
    { apply lookup_ge_None. rewrite Hlen. apply lookup_ge_None. exact Hs0. }
    destruct pc as [|[|]| |]; cbn [hold_of] in Ha; subst ha; cbn [held_was_empty] in Hfa;
      try congruence.
    - exists Idle, hb. cbn [insert_step commit_step fst snd].
      unfold first_compare_exchange_strong. rewrite Hnone. cbn.
      repeat split; try assumption. intros s Hs. congruence.
    - exists Idle, hb. cbn [insert_step commit_step fst snd].
      unfold second_compare_exchange_strong. rewrite Hnone. cbn.
      repeat split; assumption. }
  pose proof (Htab c s0 Hs0) as Hcur.
  set (cur := seen (ka, va) (kb, vb) ha hb c s0) in *.
  destruct pc as [|[|]| |]; cbn [hold_of] in Ha; subst ha.
  - (* key CAS *)
    rewrite (step_key_cas vw ka va t c cur Hcur). unfold bitwise_compare.
    destruct (Z.eqb_spec (first cur) (empty_key_sentinel_ vw)) as [He|Hne]; cbn [fst snd].
    + assert (Hnk : has_key hb c = false).
      { subst cur. unfold seen in He. cbn in He.
        destruct (has_key hb c); [contradiction | reflexivity]. }
      assert (Hfree : s0 = Slot (empty_key_sentinel_ vw) (empty_value_sentinel_ vw)).
      { subst cur. unfold seen in He. cbn in He. rewrite Hnk in He.
        destruct s0 as [f x]. cbn in He. subst f.
        f_equal. apply (proj1 (t0_settled c _ Hs0)). reflexivity. }
      exists (Won c), hb. cbn [worker_a worker_b slots hold_of].
      split; [reflexivity|]. split; [exact Hb|]. split.
      { destruct hb as [|j|j|j]; cbn in *; try contradiction; try exact I;
          apply Nat.eqb_neq in Hnk; congruence. }
      split; [cbn; congruence|]. split; [exact Hfb|].
      split; [rewrite length_insert; exact Hlen|]. split.
      { apply (table_update t Idle (Won c) hb c s0); try assumption.
        - left; reflexivity.
        - right; left; reflexivity.
        - subst cur. unfold seen. cbn. rewrite Nat.eqb_refl. reflexivity. }
      split; [exact I|]. apply lost_key_update; [exact Hlb | exact key_a].
    + exists Idle, hb. cbn [worker_a worker_b slots hold_of].
      repeat split; try assumption. cbn. intros s Hs. congruence.
  - (* value CAS after the key was won *)
    cbn [held_was_empty] in Hfa. rewrite Hfa in Hs0. injection Hs0 as <-.
    rewrite (step_value_cas vw ka va t c cur true Hcur). unfold bitwise_compare.
    assert (Hfirst : first cur = ka).
    { subst cur. unfold seen. cbn. rewrite Nat.eqb_refl. reflexivity. }
    destruct (Z.eqb_spec (second cur) (empty_value_sentinel_ vw)) as [He|Hne]; cbn [fst snd].
    + assert (Hnv : has_value hb c = false).
      { subst cur. unfold seen in He. cbn in He.
        destruct (has_value hb c); [contradiction | reflexivity]. }
      exists (Done c), hb. cbn [worker_a worker_b slots hold_of].
      split; [eauto|]. split; [exact Hb|]. split.
      { destruct hb as [|j|j|j]; cbn in *; try contradiction; try exact I; try assumption.
        subst j. rewrite Nat.eqb_refl in Hnv. discriminate. }
      split; [exact Hfa|]. split; [exact Hfb|].
      split; [rewrite length_insert; exact Hlen|]. split.
      { eapply (table_update t (Won c) (Done c) hb c); try eassumption.
        - right; left; reflexivity.
        - right; right; right; reflexivity.
        - rewrite Hfirst. unfold seen. cbn. rewrite Nat.eqb_refl. reflexivity. }
      split; [exact I|]. apply lost_key_update; [exact Hlb|]. cbn [first]. rewrite Hfirst. exact key_a.
    + exists (Won c), hb. cbn [worker_a worker_b slots hold_of].
      repeat split; assumption.
  - (* value CAS after the key was lost *)
    rewrite (step_value_cas vw ka va t c cur false Hcur). unfold bitwise_compare.
    pose proof (Hla cur Hcur) as Hkey. cbn [lost_key] in Hla.
    destruct (Z.eqb_spec (second cur) (empty_value_sentinel_ vw)) as [He|Hne]; cbn [fst snd].
    + assert (Hb_won : hb = Won c).
      { subst cur. unfold seen in He, Hkey. cbn in He, Hkey.
        destruct hb as [|j|j|j]; cbn in *.
        - exfalso. apply Hkey. apply (proj2 (t0_settled c _ Hs0)). exact He.
        - destruct (Nat.eqb_spec j c); [congruence|].
          exfalso. apply Hkey. apply (proj2 (t0_settled c _ Hs0)). exact He.
        - contradiction.
        - destruct (Nat.eqb_spec j c); [contradiction|].
          exfalso. apply Hkey. apply (proj2 (t0_settled c _ Hs0)). exact He. }
      subst hb. cbn [held_was_empty] in Hfb.
      exists (Spurious c), (Won c). cbn [worker_a worker_b slots hold_of].
      split; [reflexivity|]. split; [exact Hb|]. split; [reflexivity|].
      split; [exact Hfb|]. split; [exact Hfb|].
      split; [rewrite length_insert; exact Hlen|]. split.
      { apply (table_update t Idle (Spurious c) (Won c) c s0); try assumption.
        - left; reflexivity.
        - right; right; left; reflexivity.
        - subst cur. unfold seen. cbn. rewrite Nat.eqb_refl. reflexivity. }
      split; [exact I|]. apply lost_key_update; [exact Hlb | exact Hkey].
    + exists Idle, hb. cbn [worker_a worker_b slots hold_of].
      repeat split; assumption.
  - (* retry of the value CAS *)
    cbn [held_was_empty] in Hfa. rewrite Hfa in Hs0. injection Hs0 as <-.
    assert (Hstep : insert_step vw (ka, va) (Probing c value_retry) t
                    = insert_step vw (ka, va) (Probing c (value_cas true)) t).
    { cbn [insert_step commit_step].
      destruct (second_compare_exchange_strong t c _ _) as [[|] t']; reflexivity. }
    rewrite Hstep, (step_value_cas vw ka va t c cur true Hcur). unfold bitwise_compare.
    assert (Hfirst : first cur = ka).
    { subst cur. unfold seen. cbn. rewrite Nat.eqb_refl. reflexivity. }
    destruct (Z.eqb_spec (second cur) (empty_value_sentinel_ vw)) as [He|Hne]; cbn [fst snd].
    + assert (Hnv : has_value hb c = false).
      { subst cur. unfold seen in He. cbn in He.
        destruct (has_value hb c); [contradiction | reflexivity]. }
      exists (Done c), hb. cbn [worker_a worker_b slots hold_of].
      split; [eauto|]. split; [exact Hb|]. split.
      { destruct hb as [|j|j|j]; cbn in *; try contradiction; try exact I; try assumption.
        subst j. rewrite Nat.eqb_refl in Hnv. discriminate. }
      split; [exact Hfa|]. split; [exact Hfb|].
      split; [rewrite length_insert; exact Hlen|]. split.
      { eapply (table_update t (Won c) (Done c) hb c); try eassumption.
        - right; left; reflexivity.
        - right; right; right; reflexivity.
        - rewrite Hfirst. unfold seen. cbn. rewrite Nat.eqb_refl. reflexivity. }
      split; [exact I|]. apply lost_key_update; [exact Hlb|]. cbn [first]. rewrite Hfirst. exact key_a.
    + exists (Won c), hb. cbn [worker_a worker_b slots hold_of].
      repeat split; assumption.
  - (* store back of a spurious value *)
    assert (Hb_won : hb = Won c).
    { destruct hb as [|j|j|j]; cbn in Hcomp; try contradiction. congruence. }
    subst hb. cbn [held_was_empty] in Hfa. rewrite Hfa in Hs0. injection Hs0 as <-.
    rewrite (step_value_rollback vw ka va t c cur Hcur). cbn [fst snd].
    assert (Hfirst : first cur = kb).
    { subst cur. unfold seen. cbn. rewrite Nat.eqb_refl. reflexivity. }
    exists Idle, (Won c). cbn [worker_a worker_b slots hold_of].
    split; [reflexivity|]. split; [exact Hb|]. split; [exact I|].
    split; [exact I|]. split; [exact Hfb|].
    split; [rewrite length_insert; exact Hlen|]. split.
    { eapply (table_update t (Spurious c) Idle (Won c) c); try eassumption.
      - right; right; left; reflexivity.
      - left; reflexivity.
      - rewrite Hfirst. unfold seen. cbn. rewrite Nat.eqb_refl. reflexivity. }
    split; [exact I|]. apply lost_key_update; [exact Hlb|]. cbn [first]. rewrite Hfirst. exact key_b.
Qed.

Lemma inv_swap (a b : insert_state) (t : table) :
  inv vw (ka, va) (kb, vb) t0 (Config a b t) ->
  inv vw (kb, vb) (ka, va) t0 (Config b a t).
Proof.
  intros (ha & hb & Ha & Hb & Hcomp & Hfa & Hfb & Hlen & Htab & Hla & Hlb).
  exists hb, ha. cbn [worker_a worker_b slots] in *.
  repeat split; try assumption; [apply compatible_sym; exact Hcomp|].
  intros i s0 Hs0. rewrite (seen_sym ha hb i s0 Hcomp). apply Htab. exact Hs0.
Qed.

End Race.

Section RaceRuns.

Import device_mutable_view race.

Variable vw : view.
Variables ka va kb vb : Z.
Variable t0 : table.

Hypothesis t0_settled : settled vw t0.
Hypothesis key_a : ka <> empty_key_sentinel_ vw.
Hypothesis key_b : kb <> empty_key_sentinel_ vw.
Hypothesis value_a : va <> empty_value_sentinel_ vw.
Hypothesis value_b : vb <> empty_value_sentinel_ vw.

Lemma step_inv (who : bool) (c : config) :
  inv vw (ka, va) (kb, vb) t0 c ->
  inv vw (ka, va) (kb, vb) t0 (step vw (ka, va) (kb, vb) who c).
Proof.
  destruct c as [a b t]. intros Hinv. unfold step. cbn [worker_a worker_b slots].
  destruct who.
  - pose proof (step_a_inv vw ka va kb vb t0 t0_settled key_a key_b value_b a b t Hinv) as H.
    destruct (insert_step vw (ka, va) a t) as [a' t']. exact H.
  - apply inv_swap in Hinv.
    pose proof (step_a_inv vw kb vb ka va t0 t0_settled key_b key_a value_a b a t Hinv) as H.
    destruct (insert_step vw (kb, vb) b t) as [b' t']. apply inv_swap. exact H.
Qed.

Lemma run_inv (schedule : list bool) (c : config) :
  inv vw (ka, va) (kb, vb) t0 c ->
  inv vw (ka, va) (kb, vb) t0 (run vw (ka, va) (kb, vb) schedule c).
Proof.
  revert c. induction schedule as [|who rest IH]; intros c Hinv; [exact Hinv|].
  apply IH, step_inv, Hinv.
Qed.

Lemma start_inv (hash : Z -> nat) :
  inv vw (ka, va) (kb, vb) t0 (start vw (ka, va) (kb, vb) hash t0).
Proof.
  exists Idle, Idle. cbn. repeat split.
  intros i [f x] H. exact H.
Qed.

End RaceRuns.

(** X13: two concurrent inserts lose nothing.  Two single-worker
    inserts of pairs with real keys and values start on a table whose
    slots are each empty in both words or taken in both, and their atomic
    steps (CAS, CAS, store) interleave in any order.  Whenever both have
    returned, the table is the initial one with two distinct slots, both
    empty at the start, holding exactly [(ka, va)] and [(kb, vb)]: no pair
    is lost, torn or mixed with the other's value, also when both probe the
    same slots. *)
Theorem X13_two_concurrent_inserts_both_land
    (vw : view) (ka va kb vb : Z) (hash : Z -> nat) (t0 : table)
    (schedule : list bool) :
  settled vw t0 ->
  ka <> empty_key_sentinel_ vw -> kb <> empty_key_sentinel_ vw ->
  va <> empty_value_sentinel_ vw -> vb <> empty_value_sentinel_ vw ->
  let c := race.run vw (ka, va) (kb, vb) schedule
             (race.start vw (ka, va) (kb, vb) hash t0) in
  race.worker_a c = device_mutable_view.Returned ->
  race.worker_b c = device_mutable_view.Returned ->
  exists ia ib,
    ia <> ib /\
    t0 !! ia = Some (Slot (empty_key_sentinel_ vw) (empty_value_sentinel_ vw)) /\
    t0 !! ib = Some (Slot (empty_key_sentinel_ vw) (empty_value_sentinel_ vw)) /\
    race.slots c = <[ia := Slot ka va]> (<[ib := Slot kb vb]> t0).
Proof.
  intros Hset Hka Hkb Hva Hvb c Hra Hrb.
  pose proof (run_inv vw ka va kb vb t0 Hset Hka Hkb Hva Hvb schedule _
                (start_inv vw ka va kb vb t0 hash)) as Hinv.
  fold c in Hinv.
  destruct Hinv as (ha & hb & Ha & Hb & Hcomp & Hfa & Hfb & Hlen & Htab & _ & _).
  rewrite Hra in Ha. rewrite Hrb in Hb. cbn in Ha, Hb.
  destruct Ha as [ia ->]. destruct Hb as [ib ->]. cbn in Hcomp, Hfa, Hfb.
  exists ia, ib. repeat split; try assumption.
  apply list_eq. intros i.
  destruct (t0 !! i) as [s0|] eqn:Hs0.
  - rewrite (Htab i s0 Hs0). unfold race.seen. cbn.
    assert (Hlt : i < length t0) by (eapply lookup_lt_Some; eassumption).
    destruct (Nat.eqb_spec ia i) as [->|Ha].
    + rewrite list_lookup_insert_eq by (rewrite length_insert; exact Hlt).
      reflexivity.
    + rewrite list_lookup_insert_ne by exact Ha.
      destruct (Nat.eqb_spec ib i) as [->|Hb].
      * rewrite list_lookup_insert_eq by exact Hlt. reflexivity.
      * rewrite list_lookup_insert_ne by exact Hb. rewrite Hs0. destruct s0; reflexivity.
  - assert (Hge : length t0 <= i) by (apply lookup_ge_None; exact Hs0).
    rewrite (proj2 (lookup_ge_None _ _)) by lia.
    symmetry. apply lookup_ge_None. rewrite !length_insert. exact Hge.
Qed.

Lemma X13_two_concurrent_inserts_both_land_witness :
  exists ia ib,
    ia <> ib /\
    fresh2 !! ia = Some (Slot (empty_key_sentinel_ view2) (empty_value_sentinel_ view2)) /\
    fresh2 !! ib = Some (Slot (empty_key_sentinel_ view2) (empty_value_sentinel_ view2)) /\
    race.slots
      (race.run view2 (7, 70)%Z (9, 90)%Z
         [true; false; false; true; false; true; false; false]
         (race.start view2 (7, 70)%Z (9, 90)%Z zero_hash fresh2))
    = <[ia := Slot 7 70]> (<[ib := Slot 9 90]> fresh2).
Proof.
  apply (X13_two_concurrent_inserts_both_land view2 7 70 9 90 zero_hash fresh2
           [true; false; false; true; false; true; false; false]).
  - intros i s Hs. destruct i as [|[|i]]; cbn in Hs; try discriminate;
      injection Hs as <-; split; reflexivity.
  - cbn. discriminate.
  - cbn. discriminate.
  - cbn. discriminate.
  - cbn. discriminate.
  - reflexivity.
  - reflexivity.
Defined.

(** X14: what two racing inserts never disturb.  At every moment of
    every interleaving of two single-worker inserts (pairs with real keys
    and values, on a table whose slots are each empty in both words or
    taken in both), a slot that was taken at the start holds what it held,
    in both
    words, and once a worker has returned its pair sits in a slot that was
    empty at the start, whatever the other worker, still running, does
    from then on. *)
Theorem X14_racing_inserts_leave_stored_pairs_alone
    (vw : view) (ka va kb vb : Z) (hash : Z -> nat) (t0 : table)
    (schedule : list bool) :
  settled vw t0 ->
  ka <> empty_key_sentinel_ vw -> kb <> empty_key_sentinel_ vw ->
  va <> empty_value_sentinel_ vw -> vb <> empty_value_sentinel_ vw ->
  let c := race.run vw (ka, va) (kb, vb) schedule
             (race.start vw (ka, va) (kb, vb) hash t0) in
  (forall i s, t0 !! i = Some s -> first s <> empty_key_sentinel_ vw ->
     race.slots c !! i = Some s) /\
  (race.worker_a c = device_mutable_view.Returned ->
   exists i,
     t0 !! i = Some (Slot (empty_key_sentinel_ vw) (empty_value_sentinel_ vw)) /\
     race.slots c !! i = Some (Slot ka va)) /\
  (race.worker_b c = device_mutable_view.Returned ->
   exists i,
     t0 !! i = Some (Slot (empty_key_sentinel_ vw) (empty_value_sentinel_ vw)) /\
     race.slots c !! i = Some (Slot kb vb)).
Proof.
  intros Hset Hka Hkb Hva Hvb c.
  pose proof (run_inv vw ka va kb vb t0 Hset Hka Hkb Hva Hvb schedule _
                (start_inv vw ka va kb vb t0 hash)) as Hinv.
  fold c in Hinv.
  destruct Hinv as (ha & hb & Ha & Hb & Hcomp & Hfa & Hfb & Hlen & Htab & _ & _).
  assert (Hheld : forall h i, race.held_was_empty vw t0 h ->
            race.has_key h i = true \/ race.has_value h i = true ->
            t0 !! i = Some (Slot (empty_key_sentinel_ vw) (empty_value_sentinel_ vw))).
  { intros h i Hh Hor. destruct h as [|j|j|j]; cbn in *;
      destruct Hor as [H|H]; try discriminate; apply Nat.eqb_eq in H; subst; exact Hh. }
  split; [|split].
  - intros i s Hs Htaken. rewrite (Htab i s Hs). unfold race.seen. cbn [fst snd].
    assert (Hno : forall h, race.held_was_empty vw t0 h ->
              race.has_key h i = false /\ race.has_value h i = false).
    { intros h Hh.
      destruct (race.has_key h i) eqn:Hk.
      - pose proof (Hheld h i Hh (or_introl Hk)) as H. rewrite Hs in H.
        injection H as ->. contradiction Htaken. reflexivity.
      - destruct (race.has_value h i) eqn:Hv; [|auto].
        pose proof (Hheld h i Hh (or_intror Hv)) as H. rewrite Hs in H.
        injection H as ->. contradiction Htaken. reflexivity. }
    destruct (Hno ha Hfa) as [-> ->]. destruct (Hno hb Hfb) as [-> ->].
    destruct s; reflexivity.
  - intros Hra. rewrite Hra in Ha. cbn in Ha. destruct Ha as [i ->]. cbn in Hfa.
    exists i. split; [exact Hfa|]. rewrite (Htab i _ Hfa). unfold race.seen. cbn.
    rewrite Nat.eqb_refl. reflexivity.
  - intros Hrb. rewrite Hrb in Hb. cbn in Hb. destruct Hb as [i ->]. cbn in Hfb.
    exists i. split; [exact Hfb|]. rewrite (Htab i _ Hfb). unfold race.seen.
    assert (Hk : race.has_key ha i = false /\ race.has_value ha i = false).
    { destruct ha as [|j|j|j]; cbn in *; try contradiction; try (split; reflexivity);
        split; try reflexivity; apply Nat.eqb_neq; exact Hcomp. }
    destruct Hk as [-> ->]. cbn. rewrite Nat.eqb_refl. reflexivity.
Qed.

Lemma X14_racing_inserts_leave_stored_pairs_alone_witness :
  (forall i s, table8 !! i = Some s -> first s <> empty_key_sentinel_ view8 ->
     race.slots
       (race.run view8 (7, 70)%Z (15, 150)%Z [true; false; true; false; false]
          (race.start view8 (7, 70)%Z (15, 150)%Z identity_hash table8)) !! i = Some s) /\
  (race.worker_a
     (race.run view8 (7, 70)%Z (15, 150)%Z [true; false; true; false; false]
        (race.start view8 (7, 70)%Z (15, 150)%Z identity_hash table8))
   = device_mutable_view.Returned ->
   exists i,
     table8 !! i = Some (Slot (empty_key_sentinel_ view8) (empty_value_sentinel_ view8)) /\
     race.slots
       (race.run view8 (7, 70)%Z (15, 150)%Z [true; false; true; false; false]
          (race.start view8 (7, 70)%Z (15, 150)%Z identity_hash table8)) !! i
     = Some (Slot 7 70)).
Proof.
  destruct (X14_racing_inserts_leave_stored_pairs_alone view8 7 70 15 150 identity_hash
              table8 [true; false; true; false; false]) as (H1 & H2 & _).
  - intros i s Hs.
    destruct i as [|[|[|[|[|[|[|[|i]]]]]]]]; cbn in Hs; try discriminate;
      injection Hs as <-; cbn; split; (reflexivity || discriminate).
  - cbn. discriminate.
  - cbn. discriminate.
  - cbn. discriminate.
  - cbn. discriminate.
  - split; [exact H1 | exact H2].
Defined.

(** ** More on the cooperative queries *)

(** X15: the guard of [key_equal].  In [find] and [contains], of a
    single worker and of a group, and in the cooperative [find_all] with
    an integer key type, every call of [key_equal] has as first argument
    the key of a slot that is not empty and as second argument the queried
    key; this holds on every table and for every amount of fuel. *)
Theorem X15_queries_guard_key_equal
    (CGSize : nat) (vw : view) (t : table) (k : Z) (hash : Z -> nat)
    (key_equal : Z -> Z -> bool) (fuel : nat) :
  Forall (guarded_call vw k) (snd (device_view.find vw t k hash key_equal fuel)) /\
  Forall (guarded_call vw k) (snd (device_view.contains vw t k hash key_equal fuel)) /\
  Forall (guarded_call vw k) (snd (device_view.find_cg CGSize vw t k hash key_equal fuel)) /\
  Forall (guarded_call vw k)
    (snd (device_view.contains_cg CGSize vw t k hash key_equal fuel)) /\
  Forall (guarded_call vw k)
    (snd (device_view.find_all_cg int32_t CGSize vw t k hash key_equal fuel)).
Proof.
  split; [apply find_loop_calls|]. split; [apply find_loop_calls|].
  split; [apply find_cg_loop_calls|]. split; [apply find_cg_loop_calls|].
  apply find_all_cg_loop_calls_int32.
Qed.

Section WindowsInARow.

Import device_view.

Variable CGSize : nat.
Variable vw : view.
Variable t : table.
Variable k : Z.
Variable key_equal : Z -> Z -> bool.

Lemma window_succ (current_slot : list nat) (n : nat) :
  window vw CGSize current_slot (S n)
  = window vw CGSize (map (next_slot_cg vw CGSize) current_slot) n.
Proof. unfold window. apply Nat.iter_succ_r. Qed.

(** Windows that are full of other keys are passed; the first window
    with a match or an empty slot decides. *)
Lemma find_cg_loop_windows (n fuel : nat) (current_slot : list nat) (keys : list Z) :
  n < fuel ->
  (forall j, j < n -> exists keys_j,
      load_keys t (window vw CGSize current_slot j) = Some keys_j /\
      Forall (fun ek => ek <> empty_key_sentinel_ vw /\ key_equal ek k = false) keys_j) ->
  load_keys t (window vw CGSize current_slot n) = Some keys ->
  fst (find_cg_loop CGSize vw t k key_equal fuel current_slot)
  = fst (find_cg_loop CGSize vw t k key_equal (fuel - n) (window vw CGSize current_slot n)) /\
  fst (contains_cg_loop CGSize vw t k key_equal fuel current_slot)
  = fst (contains_cg_loop CGSize vw t k key_equal (fuel - n)
           (window vw CGSize current_slot n)).
Proof.
  revert fuel current_slot. induction n as [|n IH]; intros fuel cur Hfuel Hpass Hload.
  - rewrite Nat.sub_0_r. split; reflexivity.
  - destruct fuel as [|fuel]; [lia|].
    destruct (Hpass 0 ltac:(lia)) as (keys0 & Hload0 & Hfull).
    change (window vw CGSize cur 0) with cur in Hload0.
    destruct (window_step CGSize vw t k key_equal fuel cur keys0 Hload0) as [-> ->].
    rewrite (ballot_none (map (lane_matches vw k key_equal) keys0)).
    2:{ apply Forall_fmap. eapply Forall_impl; [exact Hfull|].
        intros ek [_ Hm]. unfold lane_matches. cbn. rewrite Hm. apply andb_false_r. }
    rewrite (ballot_none (map (fun ek => bitwise_compare ek (get_empty_key_sentinel vw)) keys0)).
    2:{ apply Forall_fmap. eapply Forall_impl; [exact Hfull|].
        intros ek [Hne _]. cbn. apply Z.eqb_neq. exact Hne. }
    cbn [negb]. rewrite window_succ in Hload |- *.
    change (S fuel - S n) with (fuel - n).
    apply IH; [lia | | exact Hload].
    intros j Hj. specialize (Hpass (S j) ltac:(lia)). rewrite window_succ in Hpass.
    exact Hpass.
Qed.

End WindowsInARow.

(** X16: the cooperative [find] and [contains] over several windows.
    When the first [n] windows of a group of at most 32 lanes hold only
    keys that are not empty and that [key_equal] tells from [k], and in the
    next window the lane of rank [r] is the lowest whose slot is not empty
    and matches, then with enough fuel [find(g, k)] returns the slot of that
    lane and [contains(g, k)] returns true. *)
Theorem X16_find_cg_passes_full_windows
    (CGSize : nat) (vw : view) (t : table) (k : Z) (key_equal : Z -> Z -> bool)
    (n fuel : nat) (current_slot : list nat) (keys : list Z) (r c : nat) :
  length current_slot <= 32 ->
  n < fuel ->
  (forall j, j < n -> exists keys_j,
      device_view.load_keys t (window vw CGSize current_slot j) = Some keys_j /\
      Forall (fun ek => ek <> empty_key_sentinel_ vw /\ key_equal ek k = false) keys_j) ->
  device_view.load_keys t (window vw CGSize current_slot n) = Some keys ->
  window vw CGSize current_slot n !! r = Some c ->
  nth r (map (lane_matches vw k key_equal) keys) false = true ->
  (forall j, j < r -> nth j (map (lane_matches vw k key_equal) keys) false = false) ->
  fst (device_view.find_cg_loop CGSize vw t k key_equal fuel current_slot) = Ret c /\
  fst (device_view.contains_cg_loop CGSize vw t k key_equal fuel current_slot) = Ret true.
Proof.
  intros Hlen Hfuel Hpass Hload Hc Hr Hlow.
  destruct (find_cg_loop_windows CGSize vw t k key_equal n fuel current_slot keys
              Hfuel Hpass Hload) as [-> ->].
  destruct (fuel - n) as [|f] eqn:Hf; [lia|].
  destruct (window_step CGSize vw t k key_equal f _ keys Hload) as [-> ->].
  assert (Hr32 : r < 32).
  { assert (Hwl : forall m l, length (window vw CGSize l m) = length l).
    { intros m. induction m as [|m IHm]; intros l; [reflexivity|].
      rewrite window_succ, IHm. apply length_map. }
    apply lookup_lt_Some in Hc. rewrite Hwl in Hc. lia. }
  rewrite (proj2 (Z.eqb_neq _ _) (ballot_nonzero _ r Hr)). cbn [negb].
  rewrite (ffs_ballot _ r Hr32 Hr Hlow). unfold cg.shfl. rewrite Hc.
  split; reflexivity.
Qed.

Lemma X16_find_cg_passes_full_windows_witness :
  fst (device_view.find_cg_loop 2 view4 [Slot 5 50; Slot 6 60; Slot 7 70; Slot 4 40]
         4 Z.eqb 2 [0; 1]) = Ret 3 /\
  fst (device_view.contains_cg_loop 2 view4 [Slot 5 50; Slot 6 60; Slot 7 70; Slot 4 40]
         4 Z.eqb 2 [0; 1]) = Ret true.
Proof.
  apply (X16_find_cg_passes_full_windows 2 view4
           [Slot 5 50; Slot 6 60; Slot 7 70; Slot 4 40] 4 Z.eqb 1 2 [0; 1]
           [7; 4]%Z 1 3).
  - cbn. lia.
  - lia.
  - intros j Hj. assert (j = 0) as -> by lia. exists [5; 6]%Z.
    split; [reflexivity|]. repeat constructor; cbn; discriminate.
  - reflexivity.
  - reflexivity.
  - reflexivity.
  - intros j Hj. assert (j = 0) as -> by lia. reflexivity.
Defined.

Section FilledSlot.

Import device_view.

Variable CGSize : nat.
Variable vw : view.
Variable t : table.
Variable k : Z.
Variable key_equal : Z -> Z -> bool.
Variable i : nat.
Variables s x : slot.

Hypothesis slot_i : t !! i = Some s.
Hypothesis slot_i_empty : first s = empty_key_sentinel_ vw.

(** The lanes load from the table with slot [i] filled what they loaded
    before, except the lanes that held the empty slot [i]. *)
Lemma load_keys_filled (current_slot : list nat) (keys : list Z) :
  load_keys t current_slot = Some keys ->
  exists keys',
    load_keys (<[i := x]> t) current_slot = Some keys' /\
    length keys' = length keys /\
    forall r ek, keys !! r = Some ek -> ek <> empty_key_sentinel_ vw ->
                 keys' !! r = Some ek.
Proof.
  unfold load_keys. intros Hload. apply mapM_Some_1 in Hload.
  induction Hload as [|c ek cur keys Hc _ IH].
  - exists []. repeat split. intros r ek H. discriminate.
  - destruct IH as (keys' & Hload' & Hlen & Hsame). apply mapM_Some_1 in Hload'.
    destruct (decide (c = i)) as [->|Hne].
    + exists (first x :: keys'). split; [|split].
      * apply mapM_Some_2. constructor; [|exact Hload'].
        rewrite list_lookup_insert_eq by (eapply lookup_lt_Some; exact slot_i).
        reflexivity.
      * cbn. lia.
      * intros [|r] ek' Hr Hne; cbn in *; [|eauto].
        rewrite slot_i in Hc. cbn in Hc. congruence.
    + exists (ek :: keys'). split; [|split].
      * apply mapM_Some_2. constructor; [|exact Hload'].
        rewrite list_lookup_insert_ne by congruence. exact Hc.
      * cbn. lia.
      * intros [|r] ek' Hr Hne'; cbn in *; [exact Hr | eauto].
Qed.

Lemma contains_cg_loop_stable (fuel : nat) (current_slot : list nat) :
  fst (contains_cg_loop CGSize vw t k key_equal fuel current_slot) = Ret true ->
  fst (contains_cg_loop CGSize vw (<[i := x]> t) k key_equal fuel current_slot) = Ret true.
Proof.
  revert current_slot. induction fuel as [|fuel IH]; intros cur; [discriminate|].
  destruct (load_keys t cur) as [keys|] eqn:Hload.
  2:{ cbn [contains_cg_loop]. rewrite Hload. discriminate. }
  destruct (load_keys_filled cur keys Hload) as (keys' & Hload' & Hlen & Hsame).
  destruct (window_step CGSize vw t k key_equal fuel cur keys Hload) as [_ ->].
  destruct (window_step CGSize vw (<[i := x]> t) k key_equal fuel cur keys' Hload')
    as [_ ->].
  destruct (Z.eqb_spec (cg.ballot (map (lane_matches vw k key_equal) keys)) 0)
    as [Hnone|Hsome]; cbn [negb].
  - destruct (Z.eqb_spec (cg.ballot (map (fun ek => bitwise_compare ek
                                           (get_empty_key_sentinel vw)) keys)) 0)
      as [Hfull|]; cbn [negb]; [|discriminate].
    assert (Heq : keys' = keys).
    { apply ballot_zero in Hfull. rewrite Forall_fmap in Hfull.
      apply list_eq. intros r. destruct (keys !! r) as [ek|] eqn:Hr.
      - apply Hsame; [exact Hr|].
        rewrite Forall_lookup in Hfull. specialize (Hfull r ek Hr). cbn in Hfull.
        apply Z.eqb_neq in Hfull. exact Hfull.
      - apply lookup_ge_None. rewrite Hlen. apply lookup_ge_None. exact Hr. }
    rewrite Heq, Hnone.
    rewrite (proj2 (Z.eqb_eq _ _) Hfull). cbn [negb]. apply IH.
  - intros _. destruct (ballot_lowest _ Hsome) as (r & _ & Hr & _).
    rewrite nth_lookup, list_lookup_fmap in Hr.
    destruct (keys !! r) as [ek|] eqn:Hek; [|discriminate]. cbn in Hr.
    assert (Hne : ek <> empty_key_sentinel_ vw).
    { unfold lane_matches, bitwise_compare in Hr.
      destruct (Z.eqb_spec ek (empty_key_sentinel_ vw)); [discriminate | assumption]. }
    rewrite (proj2 (Z.eqb_neq _ _)
               (ballot_nonzero (map (lane_matches vw k key_equal) keys') r
                  ltac:(rewrite nth_lookup, list_lookup_fmap, (Hsame r ek Hek Hne);
                        exact Hr))).
    reflexivity.
Qed.

End FilledSlot.

(** X17: an insert does not hide a key from the cooperative [contains].
    When an insert, of a single worker or of a group, has run alone and
    returned, every key for which [contains(g, k')] was true before is
    still reported. *)
Theorem X17_insert_keeps_contains_cg
    (vw : view) (CGSize : nat) (t : table) (k v : Z) (hash : Z -> nat)
    (key_equal : Z -> Z -> bool) (fuel : nat) (k' : Z) (fuel' : nat) :
  fst (device_view.contains_cg CGSize vw t k' hash key_equal fuel') = Ret true ->
  (fst (device_mutable_view.insert vw (k, v) hash key_equal
          device_mutable_view.quiet fuel t) = device_mutable_view.Returned ->
   fst (device_view.contains_cg CGSize vw
          (snd (device_mutable_view.insert vw (k, v) hash key_equal
                  device_mutable_view.quiet fuel t))
          k' hash key_equal fuel') = Ret true) /\
  (fst (device_mutable_view.insert_cg vw CGSize (k, v) hash key_equal
          device_mutable_view.quiet fuel t) = device_mutable_view.Returned_cg ->
   fst (device_view.contains_cg CGSize vw
          (snd (device_mutable_view.insert_cg vw CGSize (k, v) hash key_equal
                  device_mutable_view.quiet fuel t))
          k' hash key_equal fuel') = Ret true).
Proof.
  intros Hfound. split; intros Hret.
  - unfold device_mutable_view.insert in *.
    pose proof (insert_run_inv vw k v t fuel 0
      (device_mutable_view.Probing (initial_slot vw (fst (k, v)) hash)
         device_mutable_view.key_cas) t eq_refl) as H.
    rewrite Hret in H. destruct H as (i & Hi & ->).
    apply (contains_cg_loop_stable CGSize vw t k' key_equal i _ (Slot k v) Hi eq_refl).
    exact Hfound.
  - unfold device_mutable_view.insert_cg in *.
    pose proof (insert_cg_run_inv vw k v CGSize t fuel 0
      (device_mutable_view.Window
         (map (fun rank => initial_slot_cg vw CGSize rank (fst (k, v)) hash)
              (seq 0 CGSize))) t eq_refl) as H.
    rewrite Hret in H. destruct H as (i & Hi & ->).
    apply (contains_cg_loop_stable CGSize vw t k' key_equal i _ (Slot k v) Hi eq_refl).
    exact Hfound.
Qed.

Lemma X17_insert_keeps_contains_cg_witness :
  fst (device_view.contains_cg 2 view4
         (snd (device_mutable_view.insert view4 (8, 80)%Z identity_hash Z.eqb
                 device_mutable_view.quiet 4 table4_cg))
         4 identity_hash Z.eqb 4) = Ret true /\
  fst (device_view.contains_cg 2 view4
         (snd (device_mutable_view.insert_cg view4 2 (8, 80)%Z identity_hash Z.eqb
                 device_mutable_view.quiet 4 table4_cg))
         4 identity_hash Z.eqb 4) = Ret true.
Proof.
  destruct (X17_insert_keeps_contains_cg view4 2 table4_cg 8 80 identity_hash Z.eqb 4 4 4
              eq_refl) as [H1 H2].
  split; [apply H1 | apply H2]; reflexivity.
Defined.
